(** * Living Dex tracker: a shallow embedding of the non-presentational logic

    Source: [living_dex_tracker_pokeball_dex_react.jsx].

    Conventions of the embedding.

    - A JavaScript string is a Rocq [string] holding its UTF-8 bytes.  The
      text functions below ([trim], [toLowerCase], [toUpperCase], the
      whitespace class of regular expressions, the default sort order) follow
      the JavaScript semantics exactly on ASCII text, which is what the
      catalog service delivers; bytes from 128 up are treated as ordinary
      characters without case that are not white space.
    - A JavaScript number that holds an integer is a [Z].  Decimal printing
      and reading agree with JavaScript on the safe integers
      (absolute value at most 2^53 - 1).
    - An exception is the [Throw] case of [result]; [try]/[catch] is
      [try_catch].
    - A [Set] is the list of its elements in insertion order; a plain
      object used as a map is the list of its own properties in insertion
      order.
    - [useEffect] instances are records holding the variables their closure
      captured; resolving a promise is an event of a step function. *)

From Stdlib Require Import List String Ascii ZArith NArith Bool Lia.
From Stdlib Require Import Permutation Sorted Decimal DecimalString DecimalZ DecimalPos.
Import ListNotations.
Local Open Scope string_scope.
Local Open Scope Z_scope.

Set Implicit Arguments.

(** ** Exceptions *)

Inductive result (A : Type) : Type :=
| Return (a : A)
| Throw.
Arguments Return {A} a.
Arguments Throw {A}.

Definition bind {A B : Type} (r : result A) (k : A -> result B) : result B :=
  match r with
  | Return a => k a
  | Throw => Throw
  end.

Notation "x <- r ;; k" := (bind r (fun x => k))
  (at level 61, r at next level, right associativity).

Definition try_catch {A : Type} (body : result A) (handler : result A) : result A :=
  match body with
  | Return a => Return a
  | Throw => handler
  end.

(** ** Text *)

Definition code (c : ascii) : N := N_of_ascii c.

Definition in_range (lo hi : N) (c : ascii) : bool :=
  ((lo <=? code c) && (code c <=? hi))%N.

Definition is_digit (c : ascii) : bool := in_range 48 57 c.

(** The class [\s] of regular expressions and the characters removed by
    [trim], on ASCII: tab, line feed, vertical tab, form feed, carriage
    return and space. *)
Definition is_space (c : ascii) : bool :=
  in_range 9 13 c || (code c =? 32)%N.

(** [toLowerCase] and [toUpperCase] on one character: the ASCII letters
    change case, every other character, those from 128 up among them, is
    left as it is. *)
Definition lower_char (c : ascii) : ascii :=
  if in_range 65 90 c then ascii_of_N (code c + 32) else c.

Definition upper_char (c : ascii) : ascii :=
  if in_range 97 122 c then ascii_of_N (code c - 32) else c.

Fixpoint toLowerCase (s : string) : string :=
  match s with
  | EmptyString => EmptyString
  | String c r => String (lower_char c) (toLowerCase r)
  end.

Fixpoint toUpperCase (s : string) : string :=
  match s with
  | EmptyString => EmptyString
  | String c r => String (upper_char c) (toUpperCase r)
  end.

Fixpoint trimStart (s : string) : string :=
  match s with
  | EmptyString => EmptyString
  | String c r => if is_space c then trimStart r else s
  end.

(** [trimEnd] keeps a character when it is not white space or when
    something is kept after it. *)
Fixpoint trimEnd (s : string) : string :=
  match s with
  | EmptyString => EmptyString
  | String c r =>
      match trimEnd r with
      | EmptyString => if is_space c then EmptyString else String c EmptyString
      | r' => String c r'
      end
  end.

Definition trim (s : string) : string := trimEnd (trimStart s).

(** [s.includes(q)]: [q] occurs in [s] as a substring. *)
Fixpoint includes (s q : string) : bool :=
  prefix q s ||
  match s with
  | EmptyString => false
  | String _ r => includes r q
  end.

(** [s.split(re)] for a regular expression [re] of the shape [[class]+]:
    the pieces between the maximal runs of separators.  A run at the start or
    at the end leaves an empty piece there, and the empty string gives one
    empty piece. *)
Fixpoint split_from (sep : ascii -> bool) (s : string) (cur : string) (in_run : bool)
  : list string :=
  match s with
  | EmptyString => [cur]
  | String c r =>
      if sep c then
        if in_run then split_from sep r EmptyString true
        else cur :: split_from sep r EmptyString true
      else split_from sep r (cur ++ String c EmptyString) false
  end.

Definition split_runs (sep : ascii -> bool) (s : string) : list string :=
  split_from sep s EmptyString false.

(** [Boolean(s)] for a string: the empty string is falsy. *)
Definition truthy (s : string) : bool :=
  match s with
  | EmptyString => false
  | _ => true
  end.

(** [s.replace(/\s+/g, " ")]. *)
Fixpoint collapse_from (s : string) (in_run : bool) : string :=
  match s with
  | EmptyString => EmptyString
  | String c r =>
      if is_space c then
        if in_run then collapse_from r true
        else String " " (collapse_from r true)
      else String c (collapse_from r false)
  end.

Definition collapse_spaces (s : string) : string := collapse_from s false.

(** [String(n)] for an integer. *)
Definition decimal (z : Z) : string := NilEmpty.string_of_int (Z.to_int z).

(** ** Arrays: [Array.prototype.sort]

    The sort is stable.  With a consistent comparator the result is the
    stable sorted arrangement, which this insertion sort computes: an element
    is put before the first element of the sorted rest that it does not
    follow. *)

Section Sort.
Variable A : Type.
Variable cmp : A -> A -> comparison.

Fixpoint sort_insert (x : A) (l : list A) : list A :=
  match l with
  | [] => [x]
  | y :: l' =>
      match cmp x y with
      | Gt => y :: sort_insert x l'
      | _ => x :: l
      end
  end.

Fixpoint array_sort (l : list A) : list A :=
  match l with
  | [] => []
  | x :: l' => sort_insert x (array_sort l')
  end.

(** [a] does not follow [b]. *)
Definition le_by (a b : A) : Prop := cmp a b <> Gt.

(** A consistent comparator: swapping the arguments swaps the answer, and
    [le_by] is transitive. *)
Definition consistent : Prop :=
  (forall a b, cmp a b = CompOpp (cmp b a))
  /\ (forall a b c, le_by a b -> le_by b c -> le_by a c).
End Sort.

(** [arr.sort()] without a comparator on strings: code unit order. *)
Definition default_sort (l : list string) : list string :=
  array_sort String.compare l.

(** ** Sets: insertion-ordered, keyed by an equality test *)

Section JsSet.
Variable A : Type.
Variable same : A -> A -> bool.

Definition set_has (s : list A) (x : A) : bool := existsb (same x) s.

Definition set_add (s : list A) (x : A) : list A :=
  if set_has s x then s else s ++ [x].

Fixpoint set_delete (s : list A) (x : A) : list A :=
  match s with
  | [] => []
  | y :: s' => if same x y then s' else y :: set_delete s' x
  end.

(** [new Set(iterable)]: the elements are added one by one. *)
Definition new_Set (l : list A) : list A := fold_left set_add l [].

(** No two elements of a set are the same value. *)
Fixpoint set_wf (s : list A) : Prop :=
  match s with
  | [] => True
  | x :: s' => set_has s' x = false /\ set_wf s'
  end.
End JsSet.

(** ** Plain objects used as maps *)

Definition obj (V : Type) : Type := list (string * V).

Fixpoint obj_own {V : Type} (o : obj V) (k : string) : option V :=
  match o with
  | [] => None
  | (k', v) :: o' => if String.eqb k k' then Some v else obj_own o' k
  end.

(** [o[k] = v]: an existing own property keeps its place. *)
Fixpoint obj_set {V : Type} (o : obj V) (k : string) (v : V) : obj V :=
  match o with
  | [] => [(k, v)]
  | (k', v') :: o' =>
      if String.eqb k k' then (k', v) :: o' else (k', v') :: obj_set o' k v
  end.

(** The properties every plain object inherits from [Object.prototype]. *)
Definition Object_prototype_names : list string :=
  [ "constructor"; "__defineGetter__"; "__defineSetter__"; "hasOwnProperty";
    "__lookupGetter__"; "__lookupSetter__"; "isPrototypeOf";
    "propertyIsEnumerable"; "toString"; "valueOf"; "__proto__";
    "toLocaleString" ].

Definition inherited (k : string) : bool :=
  existsb (String.eqb k) Object_prototype_names.

(** The result of reading [o[k]]. *)
Inductive property (V : Type) : Type :=
| Own (v : V)
| Inherited
| Undefined.
Arguments Own {V} v.
Arguments Inherited {V}.
Arguments Undefined {V}.

Definition obj_get {V : Type} (o : obj V) (k : string) : property V :=
  match obj_own o k with
  | Some v => Own v
  | None => if inherited k then Inherited else Undefined
  end.

(** An array index is a canonical numeral below 2^32 - 1: such keys are
    listed first by [Object.keys], in increasing order, and the other keys
    follow in insertion order. *)
Fixpoint all_digits (s : string) : bool :=
  match s with
  | EmptyString => true
  | String c r => is_digit c && all_digits r
  end.

Definition array_index (k : string) : option N :=
  match k with
  | EmptyString => None
  | String c r =>
      if all_digits k && (negb (Ascii.eqb c "0") || negb (truthy r)) then
        match NilEmpty.uint_of_string k with
        | Some d => let n := N.of_uint d in
                    if (n <? 4294967295)%N then Some n else None
        | None => None
        end
      else None
  end.

Definition is_array_index (k : string) : bool :=
  match array_index k with Some _ => true | None => false end.

Definition index_compare (a b : string) : comparison :=
  match array_index a, array_index b with
  | Some m, Some n => N.compare m n
  | _, _ => Eq
  end.

Definition Object_keys {V : Type} (o : obj V) : list string :=
  let ks := map fst o in
  array_sort index_compare (filter is_array_index ks)
  ++ filter (fun k => negb (is_array_index k)) ks.

(** ** JSON values, [JSON.stringify] and [JSON.parse] *)

(** A number is an integer or a decimal fraction [m * 10^e] with [e < 0] and
    [m] not divisible by ten.  (JavaScript rounds a numeral to the nearest
    double; the two agree on numerals of at most 15 significant digits and on
    the safe integers.) *)
Inductive number : Type :=
| Integer (z : Z)
| Fraction (m e : Z).

#[local] Set Warnings "-register-all".
Inductive json : Type :=
| JNull
| JBool (b : bool)
| JNum (x : number)
| JStr (s : string)
| JArr (l : list json)
| JObj (o : list (string * json)).

Definition isArray (v : json) : bool :=
  match v with
  | JArr _ => true
  | _ => false
  end.

Definition number_eqb (x y : number) : bool :=
  match x, y with
  | Integer a, Integer b => a =? b
  | Fraction m e, Fraction m' e' => (m =? m') && (e =? e')
  | _, _ => false
  end.

(** The equality of [Set]: primitive values are compared by value, and an
    array or an object is the same value as itself only; every array or
    object below comes fresh out of [JSON.parse] and is never added twice. *)
Definition sameValueZero (a b : json) : bool :=
  match a, b with
  | JNull, JNull => true
  | JBool x, JBool y => Bool.eqb x y
  | JNum x, JNum y => number_eqb x y
  | JStr s, JStr t => String.eqb s t
  | _, _ => false
  end.

Definition dquote : ascii := "034"%char.
Definition backslash : ascii := "092"%char.

Fixpoint zeros (n : nat) : string :=
  match n with
  | O => EmptyString
  | S n' => String "0" (zeros n')
  end.

Fixpoint strip_zeros_end (s : string) : string :=
  match s with
  | EmptyString => EmptyString
  | String c r =>
      match strip_zeros_end r with
      | EmptyString => if Ascii.eqb c "0" then EmptyString else String c EmptyString
      | r' => String c r'
      end
  end.

Definition slen (s : string) : Z := Z.of_nat (String.length s).

(** [Number::toString] on the significant digits [ds] of a number whose
    decimal point stands after [n] digits. *)
Definition exponent_form (ds : string) (n : Z) : string :=
  let x := n - 1 in
  let tail := "e" ++ (if x <? 0 then "-" else "+") ++ decimal (Z.abs x) in
  match ds with
  | EmptyString => tail
  | String d EmptyString => String d tail
  | String d r => String d ("." ++ r ++ tail)
  end.

Definition positional (ds : string) (n : Z) : string :=
  let k := slen ds in
  if (k <=? n) && (n <=? 21) then ds ++ zeros (Z.to_nat (n - k))
  else if (0 <? n) && (n <=? 21) then
    substring 0 (Z.to_nat n) ds ++ "." ++ substring (Z.to_nat n) (Z.to_nat (k - n)) ds
  else if (-6 <? n) && (n <=? 0) then "0." ++ zeros (Z.to_nat (- n)) ++ ds
  else exponent_form ds n.

Definition sign_of (z : Z) : string := if z <? 0 then "-" else EmptyString.

Definition number_to_string (x : number) : string :=
  match x with
  | Integer z =>
      let ds := decimal (Z.abs z) in
      if Z.abs z <? 10 ^ 21 then sign_of z ++ ds
      else sign_of z ++ exponent_form (strip_zeros_end ds) (slen ds)
  | Fraction m e =>
      let ds := decimal (Z.abs m) in
      sign_of m ++ positional ds (slen ds + e)
  end.

Definition hex_digit (n : N) : ascii :=
  if (n <? 10)%N then ascii_of_N (48 + n) else ascii_of_N (87 + n).

Definition escape_char (c : ascii) : string :=
  if Ascii.eqb c dquote then String backslash (String dquote EmptyString)
  else if Ascii.eqb c backslash then String backslash (String backslash EmptyString)
  else if (code c =? 8)%N then String backslash "b"
  else if (code c =? 9)%N then String backslash "t"
  else if (code c =? 10)%N then String backslash "n"
  else if (code c =? 12)%N then String backslash "f"
  else if (code c =? 13)%N then String backslash "r"
  else if (code c <? 32)%N then
    String backslash
      ("u00" ++ String (hex_digit (code c / 16)) (String (hex_digit (code c mod 16)) EmptyString))
  else String c EmptyString.

Fixpoint escape (s : string) : string :=
  match s with
  | EmptyString => EmptyString
  | String c r => escape_char c ++ escape r
  end.

Definition quote (s : string) : string :=
  String dquote (escape s ++ String dquote EmptyString).

Fixpoint join (sep : string) (l : list string) : string :=
  match l with
  | [] => EmptyString
  | [x] => x
  | x :: l' => x ++ sep ++ join sep l'
  end.

Fixpoint stringify (v : json) : string :=
  match v with
  | JNull => "null"
  | JBool true => "true"
  | JBool false => "false"
  | JNum x => number_to_string x
  | JStr s => quote s
  | JArr l => "[" ++ join "," (map stringify l) ++ "]"
  | JObj o =>
      let texts : obj string := map (fun kv => (fst kv, stringify (snd kv))) o in
      let member k :=
        quote k ++ ":" ++ match obj_own texts k with Some t => t | None => EmptyString end in
      "{" ++ join "," (map member (Object_keys texts)) ++ "}"
  end.

(** [JSON.stringify(arr)] for an array. *)
Definition JSON_stringify (arr : list json) : string := stringify (JArr arr).

(** *** The parser *)

Definition json_ws (c : ascii) : bool :=
  (code c =? 9)%N || (code c =? 10)%N || (code c =? 13)%N || (code c =? 32)%N.

Fixpoint skip_ws (s : string) : string :=
  match s with
  | EmptyString => EmptyString
  | String c r => if json_ws c then skip_ws r else s
  end.

Fixpoint span_digits (s : string) : string * string :=
  match s with
  | EmptyString => (EmptyString, EmptyString)
  | String c r =>
      if is_digit c then
        let (d, t) := span_digits r in (String c d, t)
      else (EmptyString, s)
  end.

Definition digits_value (ds : string) : Z :=
  match NilEmpty.uint_of_string ds with
  | Some d => Z.of_uint d
  | None => 0
  end.

Fixpoint reduce (fuel : nat) (m e : Z) : number :=
  match fuel with
  | O => Integer m
  | S f => if m mod 10 =? 0 then reduce f (m / 10) (e + 1) else Fraction m e
  end.

Definition make_number (m e : Z) : number :=
  if m =? 0 then Integer 0
  else if 0 <=? e then Integer (m * 10 ^ e)
  else reduce (Z.to_nat (- e)) m e.

Definition parse_fraction (s : string) : option (string * string) :=
  match s with
  | String "." r =>
      let (fp, t) := span_digits r in
      if truthy fp then Some (fp, t) else None
  | _ => Some (EmptyString, s)
  end.

Definition parse_exponent (s : string) : option (Z * string) :=
  match s with
  | String c r =>
      if Ascii.eqb c "e" || Ascii.eqb c "E" then
        let (neg, r1) :=
          match r with
          | String "-" r' => (true, r')
          | String "+" r' => (false, r')
          | _ => (false, r)
          end in
        let (ds, t) := span_digits r1 in
        if truthy ds then
          Some (if neg : bool then - digits_value ds else digits_value ds, t)
        else None
      else Some (0, s)
  | EmptyString => Some (0, s)
  end.

Definition parse_number (s : string) : option (number * string) :=
  let (neg, s1) :=
    match s with
    | String "-" r => (true, r)
    | _ => (false, s)
    end in
  match s1 with
  | String c r =>
      if is_digit c then
        let (ip, s2) :=
          if Ascii.eqb c "0" then (String c EmptyString, r) else span_digits s1 in
        match parse_fraction s2 with
        | Some (fp, s3) =>
            match parse_exponent s3 with
            | Some (x, s4) =>
                let m := digits_value (ip ++ fp) in
                Some (make_number (if neg : bool then - m else m) (x - slen fp), s4)
            | None => None
            end
        | None => None
        end
      else None
  | EmptyString => None
  end.

Definition hex_value (c : ascii) : option N :=
  if is_digit c then Some (code c - 48)%N
  else if in_range 97 102 c then Some (code c - 87)%N
  else if in_range 65 70 c then Some (code c - 55)%N
  else None.

Definition hex4 (a b c d : ascii) : option N :=
  match hex_value a, hex_value b, hex_value c, hex_value d with
  | Some x, Some y, Some z, Some w => Some (((x * 16 + y) * 16 + z) * 16 + w)%N
  | _, _, _, _ => None
  end.

(** The UTF-8 bytes of a code unit. *)
Definition utf8 (n : N) : string :=
  if (n <? 128)%N then String (ascii_of_N n) EmptyString
  else if (n <? 2048)%N then
    String (ascii_of_N (192 + n / 64)) (String (ascii_of_N (128 + n mod 64)) EmptyString)
  else
    String (ascii_of_N (224 + n / 4096))
      (String (ascii_of_N (128 + (n / 64) mod 64))
         (String (ascii_of_N (128 + n mod 64)) EmptyString)).

Definition simple_escape (e : ascii) : option ascii :=
  if Ascii.eqb e dquote then Some dquote
  else if Ascii.eqb e backslash then Some backslash
  else if Ascii.eqb e "/" then Some "/"%char
  else if Ascii.eqb e "b" then Some (ascii_of_N 8)
  else if Ascii.eqb e "f" then Some (ascii_of_N 12)
  else if Ascii.eqb e "n" then Some (ascii_of_N 10)
  else if Ascii.eqb e "r" then Some (ascii_of_N 13)
  else if Ascii.eqb e "t" then Some (ascii_of_N 9)
  else None.

Definition prepend (p : string) (r : option (string * string)) : option (string * string) :=
  match r with
  | Some (s, t) => Some (p ++ s, t)
  | None => None
  end.

(** The characters of a string literal after its opening quote. *)
Fixpoint parse_chars (s : string) : option (string * string) :=
  match s with
  | EmptyString => None
  | String c r =>
      if Ascii.eqb c dquote then Some (EmptyString, r)
      else if Ascii.eqb c backslash then
        match r with
        | String e r' =>
            if Ascii.eqb e "u" then
              match r' with
              | String h1 (String h2 (String h3 (String h4 r''))) =>
                  match hex4 h1 h2 h3 h4 with
                  | Some n => prepend (utf8 n) (parse_chars r'')
                  | None => None
                  end
              | _ => None
              end
            else
              match simple_escape e with
              | Some ch => prepend (String ch EmptyString) (parse_chars r')
              | None => None
              end
        | EmptyString => None
        end
      else if (code c <? 32)%N then None
      else prepend (String c EmptyString) (parse_chars r)
  end.

Fixpoint strip_prefix (p s : string) : option string :=
  match p, s with
  | EmptyString, _ => Some s
  | String a p', String b s' => if Ascii.eqb a b then strip_prefix p' s' else None
  | _, EmptyString => None
  end.

Definition literal (lit : string) (v : json) (s : string) : option (json * string) :=
  match strip_prefix lit s with
  | Some t => Some (v, t)
  | None => None
  end.

Section Loops.
Variable value : string -> option (json * string).

(** The elements of an array after the first check for []]. *)
Fixpoint parse_elems (fuel : nat) (acc : list json) (s : string)
  : option (list json * string) :=
  match fuel with
  | O => None
  | S f =>
      match value s with
      | Some (v, r) =>
          match skip_ws r with
          | String c r' =>
              if Ascii.eqb c "," then parse_elems f (acc ++ [v])%list r'
              else if Ascii.eqb c "]" then Some ((acc ++ [v])%list, r')
              else None
          | EmptyString => None
          end
      | None => None
      end
  end.

Fixpoint parse_members (fuel : nat) (acc : obj json) (s : string)
  : option (obj json * string) :=
  match fuel with
  | O => None
  | S f =>
      match skip_ws s with
      | String q r =>
          if Ascii.eqb q dquote then
            match parse_chars r with
            | Some (k, r1) =>
                match skip_ws r1 with
                | String c r2 =>
                    if Ascii.eqb c ":" then
                      match value r2 with
                      | Some (v, r3) =>
                          match skip_ws r3 with
                          | String d r4 =>
                              if Ascii.eqb d "," then parse_members f (obj_set acc k v) r4
                              else if Ascii.eqb d "}" then Some (obj_set acc k v, r4)
                              else None
                          | EmptyString => None
                          end
                      | None => None
                      end
                    else None
                | EmptyString => None
                end
            | None => None
            end
          else None
      | EmptyString => None
      end
  end.
End Loops.

Fixpoint parse_value (fuel : nat) (s : string) : option (json * string) :=
  match fuel with
  | O => None
  | S f =>
      match skip_ws s with
      | EmptyString => None
      | String c r as t =>
          if Ascii.eqb c "n" then literal "null" JNull t
          else if Ascii.eqb c "t" then literal "true" (JBool true) t
          else if Ascii.eqb c "f" then literal "false" (JBool false) t
          else if Ascii.eqb c dquote then
            match parse_chars r with
            | Some (str, r') => Some (JStr str, r')
            | None => None
            end
          else if Ascii.eqb c "[" then
            match skip_ws r with
            | String "]" r' => Some (JArr [], r')
            | _ =>
                match parse_elems (parse_value f) f [] r with
                | Some (l, r') => Some (JArr l, r')
                | None => None
                end
            end
          else if Ascii.eqb c "{" then
            match skip_ws r with
            | String "}" r' => Some (JObj [], r')
            | _ =>
                match parse_members (parse_value f) f [] r with
                | Some (o, r') => Some (JObj o, r')
                | None => None
                end
            end
          else
            match parse_number t with
            | Some (x, r') => Some (JNum x, r')
            | None => None
            end
      end
  end.

(** [JSON.parse(text)]; a [SyntaxError] is [Throw].  Every loop of the parser
    uses up at least one character for each unit of fuel, so the length of the
    text is fuel enough: more fuel gives the same result. *)
Definition JSON_parse (text : string) : result json :=
  match parse_value (S (String.length text)) text with
  | Some (v, rest) =>
      match skip_ws rest with
      | EmptyString => Return v
      | _ => Throw
      end
  | None => Throw
  end.

(** ** Persisted selection set: [loadCaught], [saveCaught], [toggleCaught] *)

Definition LS_KEY : string := "livingDex:caught".

(** [localStorage]: the stored items, whether every access is refused
    (a [SecurityError]) and whether a write is refused for lack of room
    (a [QuotaExceededError]). *)
Record Storage : Type := {
  stored : obj string;
  denied : bool;
  full : bool
}.

Definition getItem (st : Storage) (k : string) : result (option string) :=
  if denied st then Throw else Return (obj_own (stored st) k).

Definition setItem (st : Storage) (k v : string) : result Storage :=
  if denied st || full st then Throw
  else Return {| stored := obj_set (stored st) k v; denied := denied st; full := full st |}.

Definition elements (v : json) : list json :=
  match v with
  | JArr l => l
  | _ => []
  end.

Definition loadCaught (st : Storage) : result (list json) :=
  try_catch
    (raw <- getItem st LS_KEY ;;
     match raw with
     | None => Return []
     | Some text =>
         if negb (truthy text) then Return []
         else
           arr <- JSON_parse text ;;
           Return (new_Set sameValueZero (if isArray arr then elements arr else []))
     end)
    (Return []).

(** [Array.from(set)]: the elements in insertion order. *)
Definition Array_from {A : Type} (s : list A) : list A := s.

(** [saveCaught] returns nothing; its effect is the storage afterwards. *)
Definition saveCaught (st : Storage) (set : list json) : Storage :=
  match setItem st LS_KEY (JSON_stringify (Array_from set)) with
  | Return st' => st'
  | Throw => st
  end.

Definition num (z : Z) : json := JNum (Integer z).

(** The updater handed to [setCaught], without its call of [saveCaught]. *)
Definition toggle (prev : list json) (id : Z) : list json :=
  let next := new_Set sameValueZero prev in
  if set_has sameValueZero next (num id) then set_delete sameValueZero next (num id)
  else set_add sameValueZero next (num id).

Record Persisted : Type := {
  caught : list json;
  storage : Storage
}.

(** [toggleCaught(id)]; [None] is [undefined], the value of [selected?.id]
    when nothing is selected. *)
Definition toggleCaught (a : Persisted) (id : option Z) : Persisted :=
  match id with
  | None => a
  | Some i =>
      if i =? 0 then a
      else
        let next := toggle (caught a) i in
        {| caught := next; storage := saveCaught (storage a) next |}
  end.

(** ** Display labels of versions *)

Definition is_title_sep (c : ascii) : bool :=
  Ascii.eqb c "-" || is_space c || Ascii.eqb c "_".

Definition capitalize (w : string) : string :=
  match w with
  | EmptyString => EmptyString
  | String c r => toUpperCase (String c EmptyString) ++ r
  end.

Definition titleCase (s : string) : string :=
  join " " (map capitalize (filter truthy (split_runs is_title_sep s))).

Definition VERSION_LABELS : obj string :=
  [ ("red", "Red"); ("blue", "Blue"); ("yellow", "Yellow"); ("gold", "Gold");
    ("silver", "Silver"); ("crystal", "Crystal"); ("ruby", "Ruby");
    ("sapphire", "Sapphire"); ("emerald", "Emerald"); ("firered", "FireRed");
    ("leafgreen", "LeafGreen"); ("diamond", "Diamond"); ("pearl", "Pearl");
    ("platinum", "Platinum"); ("heartgold", "HeartGold");
    ("soulsilver", "SoulSilver"); ("black", "Black"); ("white", "White");
    ("black-2", "Black 2"); ("white-2", "White 2"); ("x", "X"); ("y", "Y");
    ("omega-ruby", "Omega Ruby"); ("alpha-sapphire", "Alpha Sapphire");
    ("sun", "Sun"); ("moon", "Moon"); ("ultra-sun", "Ultra Sun");
    ("ultra-moon", "Ultra Moon"); ("lets-go-pikachu", "Let’s Go Pikachu");
    ("lets-go-eevee", "Let’s Go Eevee"); ("sword", "Sword"); ("shield", "Shield");
    ("brilliant-diamond", "Brilliant Diamond"); ("shining-pearl", "Shining Pearl");
    ("legends-arceus", "Legends: Arceus"); ("scarlet", "Scarlet");
    ("violet", "Violet") ].

(** [VERSION_LABELS[v] || titleCase(v)].  The function is applied to own
    keys of [byVersion] only, and those are never names inherited from
    [Object.prototype] (see [add_location]); for such a name JavaScript would
    find a function, which is not a label. *)
Definition versionLabel (v : string) : string :=
  match obj_own VERSION_LABELS v with
  | Some l => if truthy l then l else titleCase v
  | None => titleCase v
  end.

(** ** Encounter normalizer *)

(** A row of the encounter response: [location_area?.name] and, when
    present, the [version?.name] of each of its [version_details];
    [None] is [undefined]. *)
Record EncounterRow : Type := {
  location_area : option string;
  version_details : option (list (option string))
}.

Record EncounterMap : Type := {
  versions : list string;
  byVersion : obj (list string)
}.

Definition empty_map : EncounterMap := {| versions := []; byVersion := [] |}.

(** A name that passes the test [if (!v || !loc) continue]. *)
Definition present (o : option string) : option string :=
  match o with
  | Some s => if truthy s then Some s else None
  | None => None
  end.

Definition or_empty {A : Type} (o : option (list A)) : list A :=
  match o with
  | Some l => l
  | None => []
  end.

(** [if (!byVersion[v]) byVersion[v] = new Set(); byVersion[v].add(loc)].
    On a fresh object an inherited name reads as a function: nothing is
    created and calling its missing [add] is a [TypeError]. *)
Definition add_location (byV : obj (list string)) (v loc : string)
  : result (obj (list string)) :=
  match obj_get byV v with
  | Own s => Return (obj_set byV v (set_add String.eqb s loc))
  | Inherited => Throw
  | Undefined => Return (obj_set byV v (set_add String.eqb [] loc))
  end.

Fixpoint add_details (byV : obj (list string)) (loc : option string)
  (vds : list (option string)) : result (obj (list string)) :=
  match vds with
  | [] => Return byV
  | vd :: rest =>
      match present vd, present loc with
      | Some v, Some l => (byV' <- add_location byV v l ;; add_details byV' loc rest)
      | _, _ => add_details byV loc rest
      end
  end.

Fixpoint add_rows (byV : obj (list string)) (rows : list EncounterRow)
  : result (obj (list string)) :=
  match rows with
  | [] => Return byV
  | row :: rest =>
      (byV' <- add_details byV (location_area row) (or_empty (version_details row)) ;;
       add_rows byV' rest)
  end.

(** The rows flattened into the (version, location) pairs that the two
    loops add, in the order in which they add them. *)
Definition row_pairs (row : EncounterRow) : list (string * string) :=
  match present (location_area row) with
  | Some l =>
      flat_map (fun vd => match present vd with Some v => [(v, l)] | None => [] end)
        (or_empty (version_details row))
  | None => []
  end.

Definition pairs (rows : list EncounterRow) : list (string * string) :=
  flat_map row_pairs rows.

(** The locations recorded for a version. *)
Definition locations (o : obj (list string)) (v : string) : list string :=
  or_empty (obj_own o v).

Section Locale.
(** [a.localeCompare(b)], which follows the collation of the host's
    locale: [Lt] for a negative result, [Eq] for zero, [Gt] for a positive
    one. *)
Variable localeCompare : string -> string -> comparison.

Definition compare_labels (a b : string) : comparison :=
  localeCompare (versionLabel a) (versionLabel b).

Definition normalizeEncounterData (encArr : option (list EncounterRow))
  : result EncounterMap :=
  byV <- add_rows [] (or_empty encArr) ;;
  let versions := array_sort compare_labels (Object_keys byV) in
  let normalized :=
    fold_left
      (fun o v => obj_set o v (default_sort (Array_from (or_empty (obj_own byV v)))))
      versions [] in
  Return {| versions := versions; byVersion := normalized |}.
End Locale.

(** ** Description selector *)

Record FlavorEntry : Type := {
  flavor_text : string;
  language : option string;   (* [e.language?.name] *)
  version : option string     (* [e.version?.name] *)
}.

Record Species : Type := {
  flavor_text_entries : option (list FlavorEntry)
}.

Definition name_is (o : option string) (n : string) : bool :=
  match o with
  | Some s => String.eqb s n
  | None => false
  end.

Definition preferred : list string :=
  [ "scarlet"; "violet"; "sword"; "shield"; "legends-arceus";
    "brilliant-diamond"; "shining-pearl" ].

(** [text.replace(/\s+/g, " ").trim()]. *)
Definition clean (text : string) : string := trim (collapse_spaces text).

(** The loop [for (const p of preferred)]. *)
Fixpoint first_hit (en : list FlavorEntry) (ps : list string) : option FlavorEntry :=
  match ps with
  | [] => None
  | p :: rest =>
      match find (fun e => name_is (version e) p) en with
      | Some hit => Some hit
      | None => first_hit en rest
      end
  end.

Definition bestEnglishFlavor (species : option Species) : string :=
  let entries :=
    match species with
    | Some sp => or_empty (flavor_text_entries sp)
    | None => []
    end in
  let en := filter (fun e => name_is (language e) "en") entries in
  match en with
  | [] => EmptyString
  | _ =>
      match first_hit en preferred with
      | Some hit => clean (flavor_text hit)
      | None =>
          match nth_error en (List.length en - 1) with
          | Some e => clean (flavor_text e)
          | None => EmptyString
          end
      end
  end.

(** ** List view *)

(** An item as [ListView] receives it; the sprite address plays no part in
    the filter. *)
Record Entry : Type := {
  entry_id : Z;
  entry_name : string;
  entry_sprite : string
}.

Inductive Mode : Type := All | Missing | Caught.

Definition matches_query (query : string) (p : Entry) : bool :=
  if negb (truthy query) then true
  else includes (entry_name p) query || includes (decimal (entry_id p)) query.

Definition matches_mode (mode : Mode) (caughtSet : list json) (p : Entry) : bool :=
  let isCaught := set_has sameValueZero caughtSet (num (entry_id p)) in
  match mode with
  | All => true
  | Caught => isCaught
  | Missing => negb isCaught
  end.

(** The memoised value [filtered] of [ListView]. *)
Definition filtered (items : list Entry) (q : string) (mode : Mode)
  (caughtSet : list json) : list Entry :=
  let query := toLowerCase (trim q) in
  filter (matches_mode mode caughtSet) (filter (matches_query query) items).

(** ** [DexSidePanel]: the effect keyed on [pokemon.id]

    Each run of the effect owns a flag [alive] that its clean-up clears, and
    an asynchronous function that waits for the species first and for the
    encounters next.  The clean-up of a run and the next run happen when the
    panel is rendered with another [pokemon.id]; the clean-up alone happens
    when the panel is unmounted, as [App] does to the panel of the previous
    selection, which it keys on [selected.id]. *)

Inductive Phase : Type := AwaitSpecies | AwaitEncounters | Finished.

Record Run : Type := {
  run_id : Z;          (* [pokemon.id] captured by the closure *)
  alive : bool;
  phase : Phase
}.

Record Panel : Type := {
  pokemon_id : Z;                    (* the prop [pokemon.id] *)
  species : option Species;
  enc : option EncounterMap;
  encLoading : bool;
  selectedVersion : option string;
  error : option string;
  runs : list Run;                   (* every run of the effect, oldest first *)
  enc_source : option Z              (* ghost: whose fetch the value of [enc] answers *)
}.

Inductive PanelEvent : Type :=
| Render (id : Z)
| Unmount
| SpeciesSettled (k : nat) (r : result Species)
| EncountersSettled (k : nat) (r : result (option (list EncounterRow))).

Definition kill (r : Run) : Run :=
  {| run_id := run_id r; alive := false; phase := phase r |}.

Definition move (r : Run) (ph : Phase) : Run :=
  {| run_id := run_id r; alive := alive r; phase := ph |}.

(** The clean-up of the latest run. *)
Fixpoint cleanup_last (rs : list Run) : list Run :=
  match rs with
  | [] => []
  | [r] => [kill r]
  | r :: rs' => r :: cleanup_last rs'
  end.

Fixpoint replace_nth {A : Type} (l : list A) (k : nat) (x : A) : list A :=
  match l, k with
  | [], _ => []
  | _ :: l', O => x :: l'
  | y :: l', S k' => y :: replace_nth l' k' x
  end.

(** The panel after its first render and the first run of the effect, which
    stops at its first [await]. *)
Definition mount (id : Z) : Panel :=
  {| pokemon_id := id; species := None; enc := None; encLoading := false;
     selectedVersion := None; error := None;
     runs := [{| run_id := id; alive := true; phase := AwaitSpecies |}];
     enc_source := None |}.

(** [norm.versions[0] || null]. *)
Definition first_version (m : EncounterMap) : option string :=
  match versions m with
  | v :: _ => if truthy v then Some v else None
  | [] => None
  end.

Definition with_runs (p : Panel) (rs : list Run) : Panel :=
  {| pokemon_id := pokemon_id p; species := species p; enc := enc p;
     encLoading := encLoading p; selectedVersion := selectedVersion p;
     error := error p; runs := rs; enc_source := enc_source p |}.

Section PanelSteps.
Variable localeCompare : string -> string -> comparison.

(** The first [try] of the asynchronous function, after its [await]. *)
Definition species_settled (p : Panel) (k : nat) (run : Run) (r : result Species)
  : Panel :=
  if alive run then
    {| pokemon_id := pokemon_id p;
       species := match r with Return sp => Some sp | Throw => species p end;
       enc := enc p;
       encLoading := true;
       selectedVersion := selectedVersion p;
       error := match r with
                | Return _ => error p
                | Throw => Some "Couldn’t load Dex flavor text."
                end;
       runs := replace_nth (runs p) k (move run AwaitEncounters);
       enc_source := enc_source p |}
  else with_runs p (replace_nth (runs p) k (move run Finished)).

(** The value given to [setEnc]: the normalised answer, or the empty map
    of the [catch] when the fetch or the normalisation throws. *)
Definition enc_value (r : result (option (list EncounterRow))) : result EncounterMap :=
  raw <- r ;; normalizeEncounterData localeCompare raw.

(** The second [try], after its [await]. *)
Definition encounters_settled (p : Panel) (k : nat) (run : Run)
  (r : result (option (list EncounterRow))) : Panel :=
  let rs := replace_nth (runs p) k (move run Finished) in
  if alive run then
    match enc_value r with
    | Return norm =>
        {| pokemon_id := pokemon_id p; species := species p;
           enc := Some norm; encLoading := false;
           selectedVersion := first_version norm; error := error p;
           runs := rs; enc_source := Some (run_id run) |}
    | Throw =>
        {| pokemon_id := pokemon_id p; species := species p;
           enc := Some empty_map; encLoading := false;
           selectedVersion := selectedVersion p; error := error p;
           runs := rs; enc_source := Some (run_id run) |}
    end
  else with_runs p rs.

Definition panel_step (p : Panel) (ev : PanelEvent) : Panel :=
  match ev with
  | Render id =>
      if id =? pokemon_id p then p
      else
        {| pokemon_id := id; species := None; enc := None;
           encLoading := encLoading p; selectedVersion := None; error := None;
           runs := (cleanup_last (runs p)
                    ++ [{| run_id := id; alive := true; phase := AwaitSpecies |}])%list;
           enc_source := None |}
  | Unmount => with_runs p (cleanup_last (runs p))
  | SpeciesSettled k r =>
      match nth_error (runs p) k with
      | Some run =>
          match phase run with
          | AwaitSpecies => species_settled p k run r
          | _ => p
          end
      | None => p
      end
  | EncountersSettled k r =>
      match nth_error (runs p) k with
      | Some run =>
          match phase run with
          | AwaitEncounters => encounters_settled p k run r
          | _ => p
          end
      | None => p
      end
  end.

Definition panel_run (p : Panel) (evs : list PanelEvent) : Panel :=
  fold_left panel_step evs p.
End PanelSteps.

(** ** [App]: the catalog store and the effect that fetches details *)

Record Pokemon : Type := {
  poke_id : Z;
  poke_name : string;
  types : option (list string);
  height : option Z;
  weight : option Z
}.

(** The answer of [fetchPokemon]; [None] is a key the answer lacks. *)
Record Full : Type := {
  full_id : option Z;
  full_name : option string;
  full_types : option (list string);
  full_height : option Z;
  full_weight : option Z
}.

Definition override {A : Type} (new : option A) (old : A) : A :=
  match new with
  | Some x => x
  | None => old
  end.

Definition override_opt {A : Type} (new old : option A) : option A :=
  match new with
  | Some x => Some x
  | None => old
  end.

(** [{ ...stub, ...full }]. *)
Definition merge (stub : Pokemon) (f : Full) : Pokemon :=
  {| poke_id := override (full_id f) (poke_id stub);
     poke_name := override (full_name f) (poke_name stub);
     types := override_opt (full_types f) (types stub);
     height := override_opt (full_height f) (height stub);
     weight := override_opt (full_weight f) (weight stub) |}.

Record Fetch : Type := {
  fetch_index : nat;      (* [selectedIndex] captured by the closure *)
  fetch_cur : Pokemon;    (* [cur] *)
  fetch_alive : bool;
  fetch_pending : bool
}.

Record App : Type := {
  items : list Pokemon;
  loading : bool;
  selectedIndex : nat;
  fetches : list Fetch    (* the runs of the effect that reached [fetchPokemon] *)
}.

Inductive AppEvent : Type :=
| ListSettled (r : result (list string))
| Select (i : nat)
| DetailSettled (k : nat) (r : result Full).

Definition initial : App :=
  {| items := []; loading := true; selectedIndex := 0%nat; fetches := [] |}.

Fixpoint stubs_from (id : Z) (names : list string) : list Pokemon :=
  match names with
  | [] => []
  | n :: rest =>
      {| poke_id := id; poke_name := n; types := None; height := None; weight := None |}
      :: stubs_from (id + 1) rest
  end.

Definition stop (f : Fetch) : Fetch :=
  {| fetch_index := fetch_index f; fetch_cur := fetch_cur f;
     fetch_alive := false; fetch_pending := fetch_pending f |}.

Definition settle (f : Fetch) : Fetch :=
  {| fetch_index := fetch_index f; fetch_cur := fetch_cur f;
     fetch_alive := fetch_alive f; fetch_pending := false |}.

Fixpoint stop_last (fs : list Fetch) : list Fetch :=
  match fs with
  | [] => []
  | [f] => [stop f]
  | f :: fs' => f :: stop_last fs'
  end.

Definition has_types (p : Pokemon) : bool :=
  match types p with
  | Some _ => true
  | None => false
  end.

(** The effect with dependencies [[items, selectedIndex]]: the clean-up of
    the previous run, then the new run. *)
Definition detail_effect (its : list Pokemon) (sel : nat) (fs : list Fetch) : list Fetch :=
  let fs' := stop_last fs in
  match its with
  | [] => fs'
  | _ =>
      match nth_error its sel with
      | Some cur =>
          if has_types cur then fs'
          else (fs' ++ [{| fetch_index := sel; fetch_cur := cur;
                           fetch_alive := true; fetch_pending := true |}])%list
      | None => fs'
      end
  end.

(** The updater handed to [setItems]. *)
Definition enrich (prev : list Pokemon) (idx : nat) (f : Full) : list Pokemon :=
  match nth_error prev idx with
  | Some stub => replace_nth prev idx (merge stub f)
  | None => prev
  end.

Definition app_step (a : App) (ev : AppEvent) : App :=
  match ev with
  | ListSettled r =>
      if loading a then
        let its := match r with Return names => stubs_from 1 names | Throw => [] end in
        let sel := match r with Return _ => 0%nat | Throw => selectedIndex a end in
        {| items := its; loading := false; selectedIndex := sel;
           fetches := detail_effect its sel (fetches a) |}
      else a
  | Select i =>
      if Nat.eqb i (selectedIndex a) then a
      else
        {| items := items a; loading := loading a; selectedIndex := i;
           fetches := detail_effect (items a) i (fetches a) |}
  | DetailSettled k r =>
      match nth_error (fetches a) k with
      | Some f =>
          if fetch_pending f then
            let fs := replace_nth (fetches a) k (settle f) in
            match r with
            | Return detail =>
                if fetch_alive f then
                  let its := enrich (items a) (fetch_index f) detail in
                  {| items := its; loading := loading a;
                     selectedIndex := selectedIndex a;
                     fetches := detail_effect its (selectedIndex a) fs |}
                else
                  {| items := items a; loading := loading a;
                     selectedIndex := selectedIndex a; fetches := fs |}
            | Throw =>
                {| items := items a; loading := loading a;
                   selectedIndex := selectedIndex a; fetches := fs |}
            end
          else a
      | None => a
      end
  end.

Definition app_run (a : App) (evs : list AppEvent) : App :=
  fold_left app_step evs a.

(** ** The vocabulary of the statements *)

Local Open Scope list_scope.

Definition MAX_SAFE_INTEGER : Z := 2 ^ 53 - 1.

Definition safe_positive (n : Z) : Prop := 0 < n <= MAX_SAFE_INTEGER.

(** What follows an element in the text of an array. *)
Definition delimited (rest : string) : Prop :=
  exists c r, rest = String c r /\ (c = ","%char \/ c = "]"%char).

(** A parser of values that uses up some of its input. *)
Definition consuming (value : string -> option (json * string)) : Prop :=
  forall s v r, value s = Some (v, r) -> (String.length r < String.length s)%nat.

(** One step of [parse_value], on a text without leading white space. *)
Definition value_at (c : ascii) (r : string) (f : nat) : option (json * string) :=
  let t := String c r in
  if Ascii.eqb c "n" then literal "null" JNull t
  else if Ascii.eqb c "t" then literal "true" (JBool true) t
  else if Ascii.eqb c "f" then literal "false" (JBool false) t
  else if Ascii.eqb c dquote then
    match parse_chars r with
    | Some (str, r') => Some (JStr str, r')
    | None => None
    end
  else if Ascii.eqb c "[" then
    match skip_ws r with
    | String "]" r' => Some (JArr [], r')
    | _ =>
        match parse_elems (parse_value f) f [] r with
        | Some (l, r') => Some (JArr l, r')
        | None => None
        end
    end
  else if Ascii.eqb c "{" then
    match skip_ws r with
    | String "}" r' => Some (JObj [], r')
    | _ =>
        match parse_members (parse_value f) f [] r with
        | Some (o, r') => Some (JObj o, r')
        | None => None
        end
    end
  else
    match parse_number t with
    | Some (x, r') => Some (JNum x, r')
    | None => None
    end.

Definition stail (s : string) : string :=
  match s with
  | EmptyString => EmptyString
  | String _ r => r
  end.

Definition starts_with (c : ascii) (s : string) : bool :=
  match s with
  | EmptyString => false
  | String d _ => Ascii.eqb d c
  end.

(** Two parsers of values that agree on the texts shorter than [n]. *)
Definition agree (n : nat) (p q : string -> option (json * string)) : Prop :=
  forall s, (String.length s < n)%nat -> p s = q s.

Definition storage0 : Storage := {| stored := []; denied := false; full := false |}.

Definition holding (text : string) : Storage :=
  {| stored := [(LS_KEY, text)]; denied := false; full := false |}.

(** An object, a number, a string, a boolean and [null]. *)
Definition not_arrays : list (string * json) :=
  [ (String "{" (String dquote (String "a" (String dquote ":1}"))),
     JObj [("a", num 1)]);
    ("42", num 42);
    (String dquote (String "x" (String dquote EmptyString)), JStr "x");
    ("true", JBool true);
    ("null", JNull) ].

Definition keys {V : Type} (o : obj V) : list string := map fst o.

(** The object under construction: distinct keys, none of them inherited
    from [Object.prototype], each with a set. *)
Definition good (o : obj (list string)) : Prop :=
  NoDup (keys o)
  /\ (forall k, In k (keys o) -> inherited k = false)
  /\ (forall k s, obj_own o k = Some s -> NoDup s).

Fixpoint add_pairs (o : obj (list string)) (ps : list (string * string))
  : result (obj (list string)) :=
  match ps with
  | [] => Return o
  | (v, l) :: rest => (o' <- add_location o v l ;; add_pairs o' rest)
  end.

Definition throwing (ps : list (string * string)) : bool :=
  existsb (fun p => inherited (fst p)) ps.

(** What [normalizeEncounterData] returns, given the object that the loops
    built. *)
Definition result_of (localeCompare : string -> string -> comparison)
  (o : obj (list string)) : EncounterMap :=
  let versions := array_sort (compare_labels localeCompare) (Object_keys o) in
  {| versions := versions;
     byVersion := map (fun v => (v, default_sort (locations o v))) versions |}.

(** A comparator under which distinct versions of the rows never tie. *)
Definition no_ties (localeCompare : string -> string -> comparison)
  (rows : list EncounterRow) : Prop :=
  forall v v' l l', In (v, l) (pairs rows) -> In (v', l') (pairs rows) ->
    localeCompare (versionLabel v) (versionLabel v') = Eq -> v = v'.

(** Equal up to the order of [versions]. *)
Definition same_groups (r r' : result EncounterMap) : Prop :=
  match r, r' with
  | Return m, Return m' =>
      Permutation (versions m) (versions m')
      /\ forall v, obj_own (byVersion m) v = obj_own (byVersion m') v
  | Throw, Throw => True
  | _, _ => False
  end.

Definition row (loc : string) (vs : list string) : EncounterRow :=
  {| location_area := Some loc; version_details := Some (map Some vs) |}.

Definition sample_rows : list EncounterRow :=
  [ row "route-2" ["red"; "blue"]; row "route-1" ["red"]; row "route-2" ["red"] ].

(** The claim C1 as it is stated, for a given [localeCompare]. *)
Definition order_independent (localeCompare : string -> string -> comparison) : Prop :=
  forall rows rows', Permutation rows rows' ->
    normalizeEncounterData localeCompare (Some rows')
    = normalizeEncounterData localeCompare (Some rows).

(** The words of a text: its maximal runs of characters that are not white
    space. *)
Definition words (s : string) : list string := filter truthy (split_runs is_space s).

Fixpoint words_from (s : string) (cur : string) : list string :=
  match s with
  | EmptyString => if truthy cur then [cur] else []
  | String c r =>
      if is_space c then
        if truthy cur then cur :: words_from r EmptyString else words_from r EmptyString
      else words_from r (cur ++ String c EmptyString)
  end.

(** A piece of a word: not empty, no white space. *)
Fixpoint spaceless (s : string) : Prop :=
  match s with
  | EmptyString => True
  | String c r => is_space c = false /\ spaceless r
  end.

Definition wordlike (s : string) : Prop := s <> EmptyString /\ spaceless s.

(** The English candidates of a species, in the order of the answer. *)
Definition english (species : option Species) : list FlavorEntry :=
  filter (fun e => name_is (language e) "en")
    match species with
    | Some sp => or_empty (flavor_text_entries sp)
    | None => []
    end.

Definition entry (text lang ver : string) : FlavorEntry :=
  {| flavor_text := text; language := Some lang; version := Some ver |}.

Definition two_versions : option Species :=
  Some {| flavor_text_entries :=
            Some [ entry "A  red   text. " "en" "red";
                   entry " Une entrée. " "fr" "scarlet";
                   entry " A scarlet   text. " "en" "scarlet" ] |}.

Definition no_preferred : option Species :=
  Some {| flavor_text_entries :=
            Some [ entry "A red text." "en" "red"; entry "A  blue text. " "en" "blue" ] |}.

(** [q] occurs in [s]. *)
Definition contains (s q : string) : Prop :=
  exists a b, s = (a ++ q ++ b)%string.

(** What the mode asks of an item. *)
Definition mode_allows (mode : Mode) (caughtSet : list json) (p : Entry) : Prop :=
  match mode with
  | All => True
  | Missing => ~ In (num (entry_id p)) caughtSet
  | Caught => In (num (entry_id p)) caughtSet
  end.

(** What the query, trimmed and in lower case, asks of an item. *)
Definition query_allows (query : string) (p : Entry) : Prop :=
  query = EmptyString
  \/ contains (entry_name p) query
  \/ contains (decimal (entry_id p)) query.

Definition item (i : Z) (n : string) : Entry :=
  {| entry_id := i; entry_name := n; entry_sprite := EmptyString |}.

(** The filter as C7 words it: a query that is not empty is matched against
    the name without regard to case, and against the decimal index. *)
Definition claimed_query (q : string) (p : Entry) : bool :=
  if negb (truthy q) then true
  else includes (toLowerCase (entry_name p)) (toLowerCase q)
       || includes (decimal (entry_id p)) q.

Definition claimed_filter (items : list Entry) (q : string) (mode : Mode)
  (caughtSet : list json) : list Entry :=
  filter (fun p => claimed_query q p && matches_mode mode caughtSet p) items.

(** What holds of the panel at all times: a run that is alive is the latest
    one and was started for the species on display; the encounter map on
    display answers a fetch for that species. *)
Definition panel_inv (p : Panel) : Prop :=
  (forall k run, nth_error (runs p) k = Some run -> alive run = true ->
     run_id run = pokemon_id p /\ S k = List.length (runs p))
  /\ (forall j, enc_source p = Some j -> j = pokemon_id p)
  /\ (enc_source p = None <-> enc p = None).

Definition ivysaur_species : Species := {| flavor_text_entries := Some [] |}.

Definition ivysaur_rows : option (list EncounterRow) := Some [row "route-2" ["red"]].

(** The scenario of the specification, seen from the panel: it shows
    species 2, whose species fetch succeeds; the detail of species 2 arrives
    and the panel is rendered again; the user selects species 1; then the
    encounters fetched for species 2 arrive. *)
Definition scenario : list PanelEvent :=
  [ SpeciesSettled 0 (Return ivysaur_species); Render 2; Render 1 ].

(** A fetch that is alive is the latest one, was issued for the selected
    position, and holds the record found there. *)
Definition fetches_inv (its : list Pokemon) (sel : nat) (fs : list Fetch) : Prop :=
  forall k f, nth_error fs k = Some f -> fetch_alive f = true ->
    S k = List.length fs /\ fetch_index f = sel
    /\ nth_error its sel = Some (fetch_cur f).

Definition app_inv (a : App) : Prop :=
  fetches_inv (items a) (selectedIndex a) (fetches a).

Definition grass : Full :=
  {| full_id := Some 1; full_name := Some "bulbasaur"; full_types := Some ["grass"; "poison"];
     full_height := Some 7; full_weight := Some 69 |}.

(** Three records are loaded, which issues the fetch for the first; the
    user then selects the second. *)
Definition moved_on : list AppEvent :=
  [ ListSettled (Return ["bulbasaur"; "ivysaur"; "venusaur"]); Select 1 ].

Definition first_fetch : Fetch :=
  {| fetch_index := 0;
     fetch_cur := {| poke_id := 1; poke_name := "bulbasaur"; types := None;
                     height := None; weight := None |};
     fetch_alive := false; fetch_pending := true |}.

(** The claim C9 as it is stated: what a pending fetch brings is merged into
    the record at the position it was issued for, also after the selection
    has moved elsewhere. *)
Definition stale_applied : Prop :=
  forall evs k f detail stub,
    let a := app_run initial evs in
    nth_error (fetches a) k = Some f -> fetch_pending f = true ->
    fetch_index f <> selectedIndex a ->
    nth_error (items a) (fetch_index f) = Some stub ->
    nth_error (items (app_step a (DetailSettled k (Return detail)))) (fetch_index f)
    = Some (merge stub detail).

(** ** [App]: the selection and its handlers *)

(** [const clamp = (n, a, b) => Math.max(a, Math.min(b, n))]. *)
Definition clamp (n a b : Z) : Z := Z.max a (Z.min b n).

(** The state [view], ["dex"] or ["list"]. *)
Inductive View : Type := DexView | ListingView.

(** [arr.findIndex(f)]: the first position whose element satisfies [f], and
    [-1] when there is none. *)
Fixpoint findIndex_from {A : Type} (f : A -> bool) (l : list A) (i : Z) : Z :=
  match l with
  | [] => -1
  | x :: rest => if f x then i else findIndex_from f rest (i + 1)
  end.

Definition findIndex {A : Type} (f : A -> bool) (l : list A) : Z :=
  findIndex_from f l 0.

(** The states of [App] that the handlers of the selection read and write;
    [app] holds [items], [loading] and [selectedIndex] with the effect that
    follows them. *)
Record Root : Type := {
  app : App;
  view : View
}.

(** [setSelectedIndex(i)] and the effects that follow.  Every caller passes a
    number that is not negative: a position of [items.map], the value of
    [clamp] with the lower bound [0], or an [idx >= 0]. *)
Definition setSelectedIndex (a : App) (i : Z) : App :=
  app_step a (Select (Z.to_nat i)).

(** The buttons [Prev] and [Next]:
    [setSelectedIndex((i) => clamp(i + d, 0, items.length - 1))] with [d]
    being [-1] and [1]. *)
Definition step_selection (a : App) (d : Z) : App :=
  setSelectedIndex a
    (clamp (Z.of_nat (selectedIndex a) + d) 0 (Z.of_nat (List.length (items a)) - 1)).

Definition jumpToId (r : Root) (id : Z) : Root :=
  let idx := findIndex (fun p => poke_id p =? id) (items (app r)) in
  if idx >=? 0 then {| app := setSelectedIndex (app r) idx; view := DexView |}
  else r.

(** What happens to [App] after its first render: clicks and settled
    requests.  The carousel is rendered when the list is loaded and not
    empty, with one button for each position of [items]. *)
Inductive Action : Type :=
| Prev
| Next
| Pick (idx : nat)
| Jump (id : Z)
| SetView (v : View)
| Listed (r : result (list string))
| Detailed (k : nat) (r : result Full).

Definition with_app (r : Root) (a : App) : Root := {| app := a; view := view r |}.

Definition act (r : Root) (x : Action) : Root :=
  match x with
  | Prev => with_app r (step_selection (app r) (-1))
  | Next => with_app r (step_selection (app r) 1)
  | Pick idx =>
      if loading (app r) then r
      else if (idx <? List.length (items (app r)))%nat
           then with_app r (setSelectedIndex (app r) (Z.of_nat idx))
           else r
  | Jump id => jumpToId r id
  | SetView v => {| app := app r; view := v |}
  | Listed res => with_app r (app_step (app r) (ListSettled res))
  | Detailed k res => with_app r (app_step (app r) (DetailSettled k res))
  end.

Definition root0 : Root := {| app := initial; view := DexView |}.

Definition session (xs : list Action) : Root := fold_left act xs root0.

(** [const selected = items[selectedIndex]]. *)
Definition selected (a : App) : option Pokemon := nth_error (items a) (selectedIndex a).

(** Nothing is held while the list is loading, and the selected position is
    a position of [items], or [0] when there is none. *)
Definition selection_inv (a : App) : Prop :=
  (loading a = true -> items a = [])
  /\ (selectedIndex a < Nat.max 1 (List.length (items a)))%nat.

(** The record that [list.results.map] builds at position [k]. *)
Definition stub (k : nat) (n : string) : Pokemon :=
  {| poke_id := Z.of_nat k + 1; poke_name := n; types := None; height := None;
     weight := None |}.

(** The answers of [fetchPokemon(cur.id)] in a sequence of actions carry
    the identifier that was asked for. *)
Fixpoint faithful (r : Root) (xs : list Action) : Prop :=
  match xs with
  | [] => True
  | x :: rest =>
      match x with
      | Detailed k (Return d) =>
          forall f, nth_error (fetches (app r)) k = Some f ->
                    full_id d = Some (poke_id (fetch_cur f))
      | _ => True
      end
      /\ faithful (act r x) rest
  end.

Definition ids_inv (a : App) : Prop :=
  (forall k p, nth_error (items a) k = Some p -> poke_id p = Z.of_nat k + 1)
  /\ Forall (fun f => poke_id (fetch_cur f) = Z.of_nat (fetch_index f) + 1) (fetches a).

Definition bulbasaur_answer : Full :=
  {| full_id := Some 1; full_name := Some "bulbasaur";
     full_types := Some ["grass"; "poison"]; full_height := Some 7;
     full_weight := Some 69 |}.

(** ** [DexSidePanel]: the version buttons and the locations on display *)

(** A click on the button of the version [v]: [setSelectedVersion(v)].  The
    buttons are those of [enc.versions.map]. *)
Definition choose_version (p : Panel) (v : string) : Panel :=
  match enc p with
  | Some m =>
      if existsb (String.eqb v) (versions m) then
        {| pokemon_id := pokemon_id p; species := species p; enc := enc p;
           encLoading := encLoading p; selectedVersion := Some v; error := error p;
           runs := runs p; enc_source := enc_source p |}
      else p
  | None => p
  end.

Inductive PanelAction : Type :=
| Happens (ev : PanelEvent)
| Choose (v : string).

Definition panel_act (localeCompare : string -> string -> comparison) (p : Panel)
  (x : PanelAction) : Panel :=
  match x with
  | Happens ev => panel_step localeCompare p ev
  | Choose v => choose_version p v
  end.

Definition panel_session (localeCompare : string -> string -> comparison) (id : Z)
  (xs : list PanelAction) : Panel :=
  fold_left (panel_act localeCompare) xs (mount id).

(** [const locations = selectedVersion ? enc?.byVersion?.[selectedVersion] || [] : []]:
    the list of the version, the empty list when there is none, and
    [Inherited] for a name that reads as a function of [Object.prototype]. *)
Definition shown_locations (p : Panel) : property (list string) :=
  match selectedVersion p with
  | Some v =>
      if truthy v then
        match enc p with
        | Some m =>
            match obj_get (byVersion m) v with
            | Undefined => Own []
            | found => found
            end
        | None => Own []
        end
      else Own []
  | None => Own []
  end.

(** While the run of the effect in force waits for an answer, nothing of
    the encounters is on display; what is on display afterwards is the empty
    map or a value of the normalizer, and the selected version is one of its
    versions. *)
Definition display_inv (localeCompare : string -> string -> comparison) (p : Panel)
  : Prop :=
  (forall k run, nth_error (runs p) k = Some run -> alive run = true ->
     phase run <> Finished ->
     enc p = None /\ selectedVersion p = None
     /\ (phase run = AwaitSpecies -> species p = None /\ error p = None))
  /\ (forall m, enc p = Some m ->
        m = empty_map \/ exists raw, normalizeEncounterData localeCompare raw = Return m)
  /\ (forall v, selectedVersion p = Some v ->
        exists m, enc p = Some m /\ In v (versions m)).

(** ** [App]: the counters of the header *)

Definition DEX_MAX : Z := 1025.

(** The memoised value [progress] without its field [pct], which is
    computed in floating point. *)
Record Progress : Type := {
  total : Z;
  caughtCount : Z;
  missingCount : Z
}.

Definition progress (its : list Pokemon) (caughtSet : list json) : Progress :=
  let total := if Z.of_nat (List.length its) =? 0 then DEX_MAX
               else Z.of_nat (List.length its) in
  let caughtCount := Z.of_nat (List.length caughtSet) in
  {| total := total; caughtCount := caughtCount;
     missingCount := Z.max 0 (total - caughtCount) |}.

(** [toggleCaught] called for each identifier of a list in turn. *)
Definition toggles (a : Persisted) (ids : list Z) : Persisted :=
  fold_left (fun b i => toggleCaught b (Some i)) ids a.

(** A storage that accepts reads and writes. *)
Definition working (st : Storage) : Prop := denied st = false /\ full st = false.

(** ** Display names of location areas *)

(** [s.replace(re, '')] for a regular expression [re] that ends in [$]:
    [ending s] is what is left of [s] when a suffix of [s] matches, the
    leftmost such suffix being the one removed. *)
Definition without (ending : string -> option string) (s : string) : string :=
  match ending s with
  | Some kept => kept
  | None => s
  end.

(** [/-area$/]. *)
Fixpoint area_ending (s : string) : option string :=
  if String.eqb s "-area" then Some EmptyString
  else match s with
       | EmptyString => None
       | String c r => option_map (String c) (area_ending r)
       end.

(** [/-\d+$/]: a hyphen and one digit at least, up to the end. *)
Fixpoint number_ending (s : string) : option string :=
  match s with
  | EmptyString => None
  | String c r =>
      if Ascii.eqb c "-" && truthy r && all_digits r then Some EmptyString
      else option_map (String c) (number_ending r)
  end.

Definition prettyLocationArea (name : string) : string :=
  titleCase (without number_ending (without area_ending name)).

(** [String(id).padStart(4, "0")], the number shown after [#]. *)
Definition padded (id : Z) : string :=
  (zeros (4 - String.length (decimal id)) ++ decimal id)%string.

(** The pieces of a string: its maximal runs of characters that are not
    separators. *)
Definition pieces (sep : ascii -> bool) (s : string) : list string :=
  filter truthy (split_runs sep s).

Fixpoint pieces_from (sep : ascii -> bool) (s : string) (cur : string) : list string :=
  match s with
  | EmptyString => if truthy cur then [cur] else []
  | String c r =>
      if sep c then
        if truthy cur then cur :: pieces_from sep r EmptyString
        else pieces_from sep r EmptyString
      else pieces_from sep r (cur ++ String c EmptyString)
  end.

Fixpoint free_of (sep : ascii -> bool) (s : string) : Prop :=
  match s with
  | EmptyString => True
  | String c r => sep c = false /\ free_of sep r
  end.

(** A piece: not empty, and without a separator. *)
Definition piece (sep : ascii -> bool) (w : string) : Prop :=
  w <> EmptyString /\ free_of sep w.

Fixpoint last_char (s : string) : option ascii :=
  match s with
  | EmptyString => None
  | String c r => match last_char r with
                  | Some d => Some d
                  | None => Some c
                  end
  end.

(** ** The vocabulary of the amended statements *)

(** The claim C8 as it is stated, for a given [localeCompare] and given
    rows: a map is produced; the list of a version holds exactly the
    locations paired with it, each once, in increasing code unit order; and
    [versions] is in the lexicographic order, by code units, of the display
    labels. *)
Definition claimed_groups (localeCompare : string -> string -> comparison)
  (rows : list EncounterRow) : Prop :=
  exists m, normalizeEncounterData localeCompare (Some rows) = Return m
    /\ (forall v l, In l (locations (byVersion m) v) <-> In (v, l) (pairs rows))
    /\ (forall v, StronglySorted (fun a b => String.compare a b = Lt)
                    (locations (byVersion m) v))
    /\ StronglySorted
         (fun a b => String.compare (versionLabel a) (versionLabel b) <> Gt)
         (versions m).

(** A comparator that looks at the letters before their case, as the
    collations behind [localeCompare] do. *)
Definition caseless (a b : string) : comparison :=
  String.compare (toLowerCase a) (toLowerCase b).

(** Rows with a version that [VERSION_LABELS] holds, ["firered"], labelled
    [FireRed], and one that it does not hold, ["firera"], labelled [Firera]
    by [titleCase]. *)
Definition label_rows : list EncounterRow :=
  [ row "route-2" ["firera"; "firered"]; row "route-1" ["firered"];
    row "route-2" ["firered"] ].


(** * Properties *)

Unset Implicit Arguments.

(** ** Sets *)

Section JsSetFacts.
Variable A : Type.
Variable same : A -> A -> bool.
Hypothesis same_sym : forall x y, same x y = same y x.

Lemma set_has_app (s t : list A) (x : A) :
  set_has same (s ++ t) x = set_has same s x || set_has same t x.
Proof. unfold set_has. apply existsb_app. Qed.

Lemma set_has_false (s : list A) (x : A) :
  set_has same s x = false <-> forall y, In y s -> same x y = false.
Proof.
  unfold set_has. induction s as [|z s IH]; simpl.
  - split; [intros _ y [] | reflexivity].
  - rewrite orb_false_iff, IH. split.
    + intros [Hz Hs] y [<- | Hy]; auto.
    + intros H. split; [apply H; now left | intros y Hy; apply H; now right].
Qed.

Lemma set_wf_snoc (s : list A) (x : A) :
  set_wf same s -> set_has same s x = false -> set_wf same (s ++ [x]).
Proof.
  induction s as [|y s IH]; simpl.
  - intros _ _. split; [reflexivity | exact I].
  - intros [Hy Hs] Hx. apply orb_false_iff in Hx as [Hxy Hx]. split.
    + rewrite set_has_app, Hy. simpl. now rewrite same_sym, Hxy.
    + now apply IH.
Qed.

Lemma fold_set_add (l acc : list A) :
  set_wf same (acc ++ l) -> fold_left (set_add same) l acc = acc ++ l.
Proof.
  revert acc. induction l as [|x l IH]; intros acc Hwf; simpl.
  - now rewrite app_nil_r.
  - assert (Hx : set_has same acc x = false).
    { clear IH. induction acc as [|y acc IHa]; simpl in *; [reflexivity|].
      destruct Hwf as [Hy Hwf]. rewrite (IHa Hwf), orb_false_r.
      rewrite same_sym. rewrite set_has_false in Hy. apply Hy.
      apply in_or_app. right. now left. }
    unfold set_add at 2. rewrite Hx.
    rewrite IH; rewrite <- app_assoc; simpl; auto.
Qed.

Lemma new_Set_wf (s : list A) : set_wf same s -> new_Set same s = s.
Proof. intros H. unfold new_Set. now rewrite fold_set_add. Qed.

Lemma set_wf_add (s : list A) (x : A) :
  set_wf same s -> set_wf same (set_add same s x).
Proof.
  intros H. unfold set_add. destruct (set_has same s x) eqn:E; auto.
  now apply set_wf_snoc.
Qed.

Lemma in_set_delete (s : list A) (x y : A) :
  In y (set_delete same s x) -> In y s.
Proof.
  induction s as [|z s IH]; simpl; auto.
  destruct (same x z); simpl; intuition.
Qed.

Lemma set_wf_delete (s : list A) (x : A) :
  set_wf same s -> set_wf same (set_delete same s x).
Proof.
  induction s as [|z s IH]; simpl; auto.
  intros [Hz Hs]. destruct (same x z); simpl; auto. split; auto.
  rewrite set_has_false in *. intros y Hy. apply Hz.
  now apply in_set_delete in Hy.
Qed.

Section AtElement.
Variable x : A.
Hypothesis same_refl : same x x = true.
Hypothesis same_eq : forall y, same x y = true -> y = x.

Lemma set_has_delete_same (s : list A) :
  set_wf same s -> set_has same (set_delete same s x) x = false.
Proof.
  induction s as [|z s IH]; simpl; auto.
  intros [Hz Hs]. destruct (same x z) eqn:E.
  - apply same_eq in E. now subst z.
  - simpl. now rewrite E, IH.
Qed.

Lemma set_has_delete_other (s : list A) (z : A) :
  z <> x -> set_has same (set_delete same s x) z = set_has same s z.
Proof.
  intros Hzx. induction s as [|y s IH]; simpl; auto.
  destruct (same x y) eqn:E.
  - apply same_eq in E. subst y.
    destruct (same z x) eqn:E'; auto.
    rewrite same_sym in E'. apply same_eq in E'. congruence.
  - simpl. now rewrite IH.
Qed.

Lemma set_has_add_same (s : list A) : set_has same (set_add same s x) x = true.
Proof.
  unfold set_add. destruct (set_has same s x) eqn:E; auto.
  rewrite set_has_app, E. simpl. now rewrite same_refl.
Qed.

Lemma set_has_add_other (s : list A) (z : A) :
  z <> x -> set_has same (set_add same s x) z = set_has same s z.
Proof.
  intros Hzx. unfold set_add. destruct (set_has same s x); auto.
  rewrite set_has_app. simpl.
  destruct (same z x) eqn:E; [|now rewrite !orb_false_r].
  rewrite same_sym in E. apply same_eq in E. congruence.
Qed.

Lemma set_delete_perm (s : list A) :
  set_has same s x = true -> Permutation s (x :: set_delete same s x).
Proof.
  induction s as [|y s IH]; simpl; [discriminate|].
  destruct (same x y) eqn:E.
  - apply same_eq in E. now subst y.
  - simpl. intros H. rewrite perm_swap. now constructor; apply IH.
Qed.

Lemma set_delete_snoc (s : list A) :
  set_has same s x = false -> set_delete same (s ++ [x]) x = s.
Proof.
  induction s as [|y s IH]; simpl.
  - now rewrite same_refl.
  - intros H. apply orb_false_iff in H as [E H]. now rewrite E, IH.
Qed.
End AtElement.
End JsSetFacts.

Lemma number_eqb_eq (x y : number) : number_eqb x y = true <-> x = y.
Proof.
  destruct x, y; simpl; try (split; [discriminate | congruence]).
  - rewrite Z.eqb_eq. split; congruence.
  - rewrite andb_true_iff, !Z.eqb_eq. split; [intros []|intros [=]]; now subst.
Qed.

Lemma sameValueZero_sym (a b : json) : sameValueZero a b = sameValueZero b a.
Proof.
  destruct a, b; simpl; auto.
  - now destruct b, b0.
  - destruct (number_eqb x x0) eqn:E.
    + apply number_eqb_eq in E. subst. symmetry. now apply number_eqb_eq.
    + destruct (number_eqb x0 x) eqn:E'; auto.
      apply number_eqb_eq in E'. subst.
      assert (number_eqb x x = true) by now apply number_eqb_eq. congruence.
  - apply String.eqb_sym.
Qed.

Lemma same_num_eq (i : Z) (y : json) : sameValueZero (num i) y = true -> y = num i.
Proof.
  destruct y; simpl; try discriminate.
  destruct x; try discriminate. rewrite Z.eqb_eq. now intros ->.
Qed.

Lemma same_num_refl (i : Z) : sameValueZero (num i) (num i) = true.
Proof. simpl. apply Z.eqb_refl. Qed.

Lemma new_Set_json (s : list json) :
  set_wf sameValueZero s -> new_Set sameValueZero s = s.
Proof. apply new_Set_wf, sameValueZero_sym. Qed.

Lemma toggle_wf (s : list json) (i : Z) :
  set_wf sameValueZero s -> set_wf sameValueZero (toggle s i).
Proof.
  intros H. unfold toggle. rewrite (new_Set_json _ H).
  destruct set_has.
  - now apply set_wf_delete.
  - now apply set_wf_add; [apply sameValueZero_sym|].
Qed.

Lemma toggle_has_same (s : list json) (i : Z) :
  set_wf sameValueZero s ->
  set_has sameValueZero (toggle s i) (num i) = negb (set_has sameValueZero s (num i)).
Proof.
  intros H. unfold toggle. rewrite (new_Set_json _ H).
  destruct (set_has sameValueZero s (num i)) eqn:E; simpl.
  - apply set_has_delete_same; auto. apply same_num_eq.
  - apply set_has_add_same. apply same_num_refl.
Qed.

Lemma toggle_has_other (s : list json) (i : Z) (x : json) :
  set_wf sameValueZero s -> x <> num i ->
  set_has sameValueZero (toggle s i) x = set_has sameValueZero s x.
Proof.
  intros H Hx. unfold toggle. rewrite (new_Set_json _ H).
  destruct (set_has sameValueZero s (num i)) eqn:E.
  - apply set_has_delete_other; auto using sameValueZero_sym, same_num_eq.
  - apply set_has_add_other; auto using sameValueZero_sym, same_num_eq.
Qed.

Lemma toggle_twice (s : list json) (i : Z) :
  set_wf sameValueZero s -> Permutation (toggle (toggle s i) i) s.
Proof.
  intros H. pose proof (toggle_has_same s i H) as Hin.
  pose proof (toggle_wf s i H) as Hwf.
  unfold toggle at 1. rewrite (new_Set_json _ Hwf), Hin.
  unfold toggle. rewrite (new_Set_json _ H).
  destruct (set_has sameValueZero s (num i)) eqn:E; simpl.
  - unfold set_add.
    rewrite (set_has_delete_same _ sameValueZero (num i) (same_num_eq i) _ H).
    rewrite (set_delete_perm _ sameValueZero (num i) (same_num_eq i) _ E) at 2.
    symmetry. apply Permutation_cons_append.
  - unfold set_add. rewrite E.
    now rewrite (set_delete_snoc _ sameValueZero (num i) (same_num_refl i) _ E).
Qed.

(** ** Strings *)

Lemma sapp_assoc (a b c : string) : ((a ++ b) ++ c = a ++ (b ++ c))%string.
Proof. induction a as [|x a IH]; simpl; [reflexivity | now rewrite IH]. Qed.

Lemma sapp_nil_r (a : string) : (a ++ EmptyString)%string = a.
Proof. induction a as [|x a IH]; simpl; [reflexivity | now rewrite IH]. Qed.

Lemma slength_app (a b : string) :
  String.length (a ++ b)%string = (String.length a + String.length b)%nat.
Proof. induction a as [|x a IH]; simpl; [reflexivity | now rewrite IH]. Qed.

(** ** JSON: an array of positive safe integers is read back *)

Lemma span_digits_uint (d : uint) (rest : string) :
  delimited rest ->
  span_digits (NilEmpty.string_of_uint d ++ rest)%string
  = (NilEmpty.string_of_uint d, rest).
Proof.
  intros (c & r & -> & Hc).
  induction d; simpl; try (rewrite IHd; reflexivity).
  now destruct Hc as [-> | ->].
Qed.

Lemma to_uint_head (p : positive) (d : uint) : Pos.to_uint p <> D0 d.
Proof.
  intros E.
  pose proof (DecimalPos.Unsigned.to_of (Pos.to_uint p)) as H.
  rewrite DecimalPos.Unsigned.of_to in H. simpl in H.
  rewrite E in H. rewrite DecimalFacts.unorm_D0 in H.
  destruct (uint_eq_dec d Nil) as [-> | Hd].
  - apply (DecimalPos.Unsigned.to_uint_nonzero p). exact E.
  - pose proof (DecimalFacts.nb_digits_unorm d Hd) as Hn.
    rewrite <- H in Hn. simpl in Hn. lia.
Qed.

Lemma decimal_pos (p : positive) :
  decimal (Zpos p) = NilEmpty.string_of_uint (Pos.to_uint p).
Proof. reflexivity. Qed.

Lemma digits_value_uint (p : positive) :
  digits_value (NilEmpty.string_of_uint (Pos.to_uint p)) = Zpos p.
Proof.
  unfold digits_value. rewrite NilEmpty.usu. unfold Z.of_uint.
  now rewrite DecimalPos.Unsigned.of_to.
Qed.

Lemma parse_fraction_delimited (rest : string) :
  delimited rest -> parse_fraction rest = Some (EmptyString, rest).
Proof. intros (c & r & -> & [-> | ->]); reflexivity. Qed.

Lemma parse_exponent_delimited (rest : string) :
  delimited rest -> parse_exponent rest = Some (0, rest).
Proof. intros (c & r & -> & [-> | ->]); reflexivity. Qed.

Lemma parse_number_decimal (p : positive) (rest : string) :
  delimited rest ->
  parse_number (decimal (Zpos p) ++ rest)%string = Some (Integer (Zpos p), rest).
Proof.
  intros Hr. rewrite decimal_pos.
  pose proof (span_digits_uint (Pos.to_uint p) rest Hr) as Hspan.
  pose proof (digits_value_uint p) as Hval.
  pose proof (to_uint_head p) as Hhead.
  pose proof (DecimalPos.Unsigned.to_uint_nonnil p) as Hnil.
  assert (Hgo : forall c s,
             NilEmpty.string_of_uint (Pos.to_uint p) = String c s ->
             is_digit c = true -> Ascii.eqb c "0" = false -> Ascii.eqb c "-" = false ->
             parse_number (String c (s ++ rest)) = Some (Integer (Zpos p), rest)).
  { intros c s E Hd H0 Hm. rewrite E in Hspan.
    change (String c s ++ rest)%string with (String c (s ++ rest)%string) in Hspan.
    unfold parse_number.
    assert (Hs : match String c (s ++ rest)%string with
                 | String "-" r => (true, r)
                 | _ => (false, String c (s ++ rest)%string)
                 end = (false, String c (s ++ rest)%string)).
    { destruct c as [[] [] [] [] [] [] [] []]; try reflexivity; discriminate. }
    rewrite Hs. rewrite Hd, H0. rewrite Hspan.
    rewrite (parse_fraction_delimited rest Hr), (parse_exponent_delimited rest Hr).
    rewrite sapp_nil_r, <- E, Hval.
    unfold make_number. simpl. do 3 f_equal. lia. }
  destruct (Pos.to_uint p) as [| d | d | d | d | d | d | d | d | d | d ] eqn:E;
    try (simpl; apply Hgo; reflexivity).
  - now elim Hnil.
  - now elim (Hhead d).
Qed.

Lemma parse_value_digit (f : nat) (c : ascii) (s : string) :
  is_digit c = true ->
  parse_value (S f) (String c s)
  = match parse_number (String c s) with
    | Some (x, r) => Some (JNum x, r)
    | None => None
    end.
Proof.
  intros H.
  destruct c as [[] [] [] [] [] [] [] []]; try discriminate H; reflexivity.
Qed.

Lemma decimal_head (p : positive) :
  exists c s, decimal (Zpos p) = String c s /\ is_digit c = true.
Proof.
  rewrite decimal_pos.
  pose proof (DecimalPos.Unsigned.to_uint_nonnil p) as Hnil.
  destruct (Pos.to_uint p); try (now elim Hnil); simpl; eauto.
Qed.

Lemma parse_value_decimal (f : nat) (p : positive) (rest : string) :
  delimited rest ->
  parse_value (S f) (decimal (Zpos p) ++ rest)%string = Some (num (Zpos p), rest).
Proof.
  intros Hr. pose proof (parse_number_decimal p rest Hr) as Hn.
  destruct (decimal_head p) as (c & s & E & Hd). rewrite E in *.
  change (String c s ++ rest)%string with (String c (s ++ rest)%string) in *.
  rewrite (parse_value_digit f c _ Hd), Hn. reflexivity.
Qed.

Lemma stringify_num (n : Z) : safe_positive n -> stringify (num n) = decimal n.
Proof.
  intros [Hpos Hmax]. unfold MAX_SAFE_INTEGER in Hmax.
  change (stringify (num n)) with (number_to_string (Integer n)).
  unfold number_to_string.
  destruct (Z.ltb_spec (Z.abs n) (10 ^ 21)) as [_ | Hbig]; [| lia].
  unfold sign_of. destruct (Z.ltb_spec n 0); [lia|].
  rewrite Z.abs_eq by lia. reflexivity.
Qed.

Lemma parse_elems_decimals (f : nat) (ids : list Z) :
  Forall safe_positive ids -> ids <> [] ->
  forall (fuel : nat) (acc : list json) (tail : string),
    (List.length ids <= fuel)%nat ->
    parse_elems (parse_value (S f)) fuel acc
      (join "," (map stringify (map num ids)) ++ String "]" tail)%string
    = Some (acc ++ map num ids, tail).
Proof.
  induction 1 as [|n ids Hn Hids IH]; [congruence|]. intros _ fuel acc tail Hfuel.
  destruct fuel as [|fuel]; [simpl in Hfuel; lia|].
  assert (Hp : exists p, n = Zpos p).
  { destruct Hn as [Hn _]. destruct n; try lia. eauto. }
  destruct Hp as [p ->].
  destruct ids as [|m ids].
  - change (join "," (map stringify (map num [Z.pos p])))
      with (stringify (num (Z.pos p))).
    rewrite (stringify_num _ Hn).
    cbn [parse_elems].
    rewrite parse_value_decimal by (exists "]"%char, tail; auto). reflexivity.
  - change (join "," (map stringify (map num (Z.pos p :: m :: ids))))
      with (stringify (num (Zpos p)) ++ "," ++ join "," (map stringify (map num (m :: ids))))%string.
    rewrite (stringify_num _ Hn), !sapp_assoc. cbn [parse_elems].
    rewrite parse_value_decimal by (eexists _, _; split; [reflexivity | auto]).
    match goal with
    | |- context [("," ++ ?x)%string] =>
        change ("," ++ x)%string with (String "," x);
        change (skip_ws (String "," x)) with (String "," x)
    end.
    cbv beta iota.
    change (Ascii.eqb "," ",") with true. cbv iota.
    rewrite IH; [| discriminate | simpl in *; lia].
    now rewrite <- app_assoc.
Qed.

Lemma join_length (sep : string) (l : list string) :
  Forall (fun t => truthy t = true) l ->
  (List.length l <= String.length (join sep l))%nat.
Proof.
  induction 1 as [|t l Ht Hl IH]; [simpl; lia|].
  assert (Hlen : (1 <= String.length t)%nat) by (destruct t; [discriminate | simpl; lia]).
  destruct l as [|u l].
  - simpl. lia.
  - change (join sep (t :: u :: l)) with (t ++ sep ++ join sep (u :: l))%string.
    rewrite !slength_app. change (List.length (t :: u :: l)) with (S (List.length (u :: l))).
    lia.
Qed.

Lemma stringify_num_truthy (ids : list Z) :
  Forall safe_positive ids ->
  Forall (fun t => truthy t = true) (map stringify (map num ids)).
Proof.
  induction 1 as [|n ids Hn Hids IH]; simpl; constructor; auto.
  change (truthy (stringify (num n)) = true). rewrite (stringify_num _ Hn).
  destruct Hn as [Hn _]. destruct n; try lia.
  destruct (decimal_head p) as (c & s & -> & _). reflexivity.
Qed.

Lemma body_head (n : Z) (ids : list Z) :
  Forall safe_positive (n :: ids) ->
  exists c s, join "," (map stringify (map num (n :: ids))) = String c s
              /\ is_digit c = true.
Proof.
  intros Hids. inversion Hids as [|? ? Hn _]; subst.
  pose proof (stringify_num _ Hn) as E. destruct Hn as [Hn _].
  destruct n as [|p|p]; try lia.
  destruct (decimal_head p) as (c & s & Ec & Hd).
  change (map stringify (map num (Z.pos p :: ids)))
    with (stringify (num (Z.pos p)) :: map stringify (map num ids)).
  destruct (map stringify (map num ids)) as [|t ts].
  - change (join "," [stringify (num (Z.pos p))]) with (stringify (num (Z.pos p))).
    rewrite E, Ec. eauto.
  - change (join "," (stringify (num (Z.pos p)) :: t :: ts))
      with (stringify (num (Z.pos p)) ++ "," ++ join "," (t :: ts))%string.
    rewrite E, Ec. simpl. eauto.
Qed.

Lemma digit_not_ws (c : ascii) (s : string) :
  is_digit c = true -> skip_ws (String c s) = String c s.
Proof.
  intros Hd. destruct c as [[] [] [] [] [] [] [] []]; try discriminate Hd; reflexivity.
Qed.

Lemma parse_value_array (f : nat) (c : ascii) (s : string) (l : list json) (rest : string) :
  is_digit c = true ->
  parse_elems (parse_value f) f [] (String c s) = Some (l, rest) ->
  parse_value (S f) (String "[" (String c s)) = Some (JArr l, rest).
Proof.
  intros Hd Hp.
  change (parse_value (S f) (String "[" (String c s)))
    with (match skip_ws (String c s) with
          | String "]" r' => Some (JArr [], r')
          | _ =>
              match parse_elems (parse_value f) f [] (String c s) with
              | Some (l, r') => Some (JArr l, r')
              | None => None
              end
          end).
  rewrite (digit_not_ws c s Hd), Hp.
  destruct c as [[] [] [] [] [] [] [] []]; try discriminate Hd; reflexivity.
Qed.

Lemma parse_stringify_ids (ids : list Z) :
  Forall safe_positive ids ->
  JSON_parse (JSON_stringify (map num ids)) = Return (JArr (map num ids)).
Proof.
  intros Hids. unfold JSON_stringify, JSON_parse.
  change (stringify (JArr (map num ids)))
    with (String "[" (join "," (map stringify (map num ids)) ++ "]"))%string.
  destruct ids as [|n ids]; [reflexivity|].
  set (body := join "," (map stringify (map num (n :: ids)))).
  assert (Hlen : (List.length (n :: ids) <= String.length body)%nat).
  { unfold body.
    replace (List.length (n :: ids))
      with (List.length (map stringify (map num (n :: ids))))
      by (now rewrite !length_map).
    apply join_length, stringify_num_truthy, Hids. }
  destruct (body_head n ids Hids) as (c & s & Ebody & Hd). fold body in Ebody.
  change (String.length (String "[" (body ++ "]")))
    with (S (String.length (body ++ "]")%string)).
  set (f := String.length (body ++ "]")%string).
  assert (Hfuel : (List.length (n :: ids) <= S f)%nat).
  { unfold f. rewrite slength_app. lia. }
  pose proof (parse_elems_decimals f (n :: ids) Hids ltac:(discriminate)
                (S f) [] EmptyString Hfuel) as Hparse.
  fold body in Hparse.
  change (String "]" EmptyString) with "]"%string in Hparse.
  rewrite Ebody in Hparse |- *.
  change (String c s ++ "]")%string with (String c (s ++ "]")%string) in *.
  rewrite (parse_value_array (S f) c _ _ _ Hd Hparse). reflexivity.
Qed.

(** ** JSON: the parser uses up its input, and the length of the text is fuel enough *)

Lemma skip_ws_le (s : string) : (String.length (skip_ws s) <= String.length s)%nat.
Proof.
  induction s as [|c s IH]; simpl; [lia|]. destruct (json_ws c); simpl; lia.
Qed.

Lemma skip_ws_tail (s : string) (c : ascii) (r : string) :
  skip_ws s = String c r -> (String.length r < String.length s)%nat.
Proof.
  intros E. pose proof (skip_ws_le s) as H. rewrite E in H. simpl in H. lia.
Qed.

Lemma span_digits_le (s : string) :
  (String.length (snd (span_digits s)) <= String.length s)%nat.
Proof.
  induction s as [|c s IH]; simpl; [lia|].
  destruct (is_digit c); simpl; [| lia].
  destruct (span_digits s); simpl in *. lia.
Qed.

Lemma parse_fraction_le (s fp t : string) :
  parse_fraction s = Some (fp, t) -> (String.length t <= String.length s)%nat.
Proof.
  unfold parse_fraction.
  assert (Hdot : forall r, (let (fp0, t0) := span_digits r in
                            if truthy fp0 then Some (fp0, t0) else None) = Some (fp, t) ->
                           (String.length t <= S (String.length r))%nat).
  { intros r. pose proof (span_digits_le r) as H. destruct (span_digits r) as [fp0 t0].
    destruct (truthy fp0); [| discriminate]. intros [= <- <-]. simpl in H. lia. }
  destruct s as [|[[] [] [] [] [] [] [] []] r]; try (intros [= <- <-]; simpl; lia).
  apply Hdot.
Qed.

Lemma exponent_sign_le (r : string) (b : bool) (r1 : string) :
  match r with
  | String "-" r' => (true, r')
  | String "+" r' => (false, r')
  | _ => (false, r)
  end = (b, r1) -> (String.length r1 <= String.length r)%nat.
Proof.
  destruct r as [|[[] [] [] [] [] [] [] []] r']; intros [= <- <-]; simpl; lia.
Qed.

Lemma number_sign_le (s : string) (b : bool) (s1 : string) :
  match s with
  | String "-" r => (true, r)
  | _ => (false, s)
  end = (b, s1) -> (String.length s1 <= String.length s)%nat.
Proof.
  destruct s as [|[[] [] [] [] [] [] [] []] r]; intros [= <- <-]; simpl; lia.
Qed.

Lemma parse_exponent_le (s : string) (x : Z) (t : string) :
  parse_exponent s = Some (x, t) -> (String.length t <= String.length s)%nat.
Proof.
  unfold parse_exponent. destruct s as [|c r]; [intros [= <- <-]; lia|].
  destruct (Ascii.eqb c "e" || Ascii.eqb c "E"); [| intros [= <- <-]; lia].
  destruct (match r with
            | String "-" r' => (true, r')
            | String "+" r' => (false, r')
            | _ => (false, r)
            end) as [b r1] eqn:E.
  apply exponent_sign_le in E. pose proof (span_digits_le r1) as H.
  destruct (span_digits r1) as [ds t0]. destruct (truthy ds); [| discriminate].
  intros [= <- <-]. simpl in *. lia.
Qed.

Lemma integer_part_le (c : ascii) (r ip s2 : string) :
  is_digit c = true ->
  (if Ascii.eqb c "0" then (String c EmptyString, r)
   else span_digits (String c r)) = (ip, s2) ->
  (String.length s2 <= String.length r)%nat.
Proof.
  intros Hd. destruct (Ascii.eqb c "0"); [intros [= <- <-]; lia|].
  simpl. rewrite Hd. pose proof (span_digits_le r) as H.
  destruct (span_digits r) as [d t0]. intros [= <- <-]. exact H.
Qed.

Lemma parse_number_shorter (s : string) (x : number) (t : string) :
  parse_number s = Some (x, t) -> (String.length t < String.length s)%nat.
Proof.
  unfold parse_number.
  destruct (match s with
            | String "-" r => (true, r)
            | _ => (false, s)
            end) as [b s1] eqn:E.
  apply number_sign_le in E. destruct s1 as [|c r]; [discriminate|].
  destruct (is_digit c) eqn:Hd; [| discriminate].
  destruct (if Ascii.eqb c "0" then (String c EmptyString, r)
            else span_digits (String c r)) as [ip s2] eqn:Eip.
  apply integer_part_le in Eip; [| exact Hd].
  destruct (parse_fraction s2) as [[fp s3]|] eqn:Ef; [| discriminate].
  apply parse_fraction_le in Ef.
  destruct (parse_exponent s3) as [[e s4]|] eqn:Ee; [| discriminate].
  apply parse_exponent_le in Ee. intros [= <- <-]. simpl in *. lia.
Qed.

Lemma prepend_some (p : string) (o : option (string * string)) (x r : string) :
  prepend p o = Some (x, r) -> exists x', o = Some (x', r).
Proof. destruct o as [[x' r']|]; simpl; [| discriminate]. intros [= <- <-]. eauto. Qed.

Lemma parse_chars_shorter (n : nat) :
  forall s x r, (String.length s <= n)%nat -> parse_chars s = Some (x, r) ->
                (String.length r < String.length s)%nat.
Proof.
  induction n as [|n IH]; intros s x r Hn; destruct s as [|c s]; try discriminate;
    simpl in Hn; [lia|].
  cbn [parse_chars].
  destruct (Ascii.eqb c dquote); [intros [= <- <-]; simpl; lia|].
  destruct (Ascii.eqb c backslash).
  - destruct s as [|e s]; [discriminate|].
    destruct (Ascii.eqb e "u").
    + destruct s as [|h1 [|h2 [|h3 [|h4 t]]]]; try discriminate.
      destruct (hex4 h1 h2 h3 h4); [| discriminate].
      intros H. apply prepend_some in H as (x' & H).
      apply IH in H; simpl in *; lia.
    + destruct (simple_escape e); [| discriminate].
      intros H. apply prepend_some in H as (x' & H).
      apply IH in H; simpl in *; lia.
  - destruct (code c <? 32)%N; [discriminate|].
    intros H. apply prepend_some in H as (x' & H).
    apply IH in H; simpl in *; lia.
Qed.

Lemma strip_prefix_length (p s t : string) :
  strip_prefix p s = Some t ->
  (String.length t + String.length p = String.length s)%nat.
Proof.
  revert s. induction p as [|a p IH]; intros s; simpl.
  - intros [= <-]. lia.
  - destruct s as [|b s]; [discriminate|]. destruct (Ascii.eqb a b); [| discriminate].
    intros H. apply IH in H. simpl. lia.
Qed.

Lemma literal_shorter (lit : string) (v v' : json) (s r : string) :
  truthy lit = true -> literal lit v s = Some (v', r) ->
  (String.length r < String.length s)%nat.
Proof.
  unfold literal. intros Hl. destruct (strip_prefix lit s) as [t|] eqn:E; [| discriminate].
  intros [= _ <-]. apply strip_prefix_length in E. destruct lit; [discriminate|].
  simpl in E. lia.
Qed.

Lemma parse_elems_shorter (value : string -> option (json * string)) :
  consuming value ->
  forall fuel acc s l r, parse_elems value fuel acc s = Some (l, r) ->
                         (String.length r < String.length s)%nat.
Proof.
  intros Hv. induction fuel as [|fuel IH]; intros acc s l r; [discriminate|].
  cbn [parse_elems]. destruct (value s) as [[v r1]|] eqn:E; [| discriminate].
  apply Hv in E. destruct (skip_ws r1) as [|c r2] eqn:Ews; [discriminate|].
  apply skip_ws_tail in Ews.
  destruct (Ascii.eqb c ","); [intros H; apply IH in H; lia|].
  destruct (Ascii.eqb c "]"); [| discriminate]. intros [= _ <-]. lia.
Qed.

Lemma parse_members_shorter (value : string -> option (json * string)) :
  consuming value ->
  forall fuel acc s o r, parse_members value fuel acc s = Some (o, r) ->
                         (String.length r < String.length s)%nat.
Proof.
  intros Hv. induction fuel as [|fuel IH]; intros acc s o r; [discriminate|].
  cbn [parse_members]. destruct (skip_ws s) as [|q r0] eqn:E0; [discriminate|].
  apply skip_ws_tail in E0. destruct (Ascii.eqb q dquote); [| discriminate].
  destruct (parse_chars r0) as [[k r1]|] eqn:Ek; [| discriminate].
  apply (parse_chars_shorter (String.length r0)) in Ek; [| lia].
  destruct (skip_ws r1) as [|c r2] eqn:E1; [discriminate|].
  apply skip_ws_tail in E1. destruct (Ascii.eqb c ":"); [| discriminate].
  destruct (value r2) as [[v r3]|] eqn:Ev; [| discriminate].
  apply Hv in Ev. destruct (skip_ws r3) as [|d r4] eqn:E3; [discriminate|].
  apply skip_ws_tail in E3.
  destruct (Ascii.eqb d ","); [intros H; apply IH in H; lia|].
  destruct (Ascii.eqb d "}"); [| discriminate]. intros [= _ <-]. lia.
Qed.

Lemma parse_value_S (f : nat) (s : string) :
  parse_value (S f) s
  = match skip_ws s with
    | EmptyString => None
    | String c r => value_at c r f
    end.
Proof. reflexivity. Qed.

Lemma match_bracket {A : Type} (s : string) (f : string -> A) (y : A) :
  match s with
  | String "]" r' => f r'
  | _ => y
  end = if starts_with "]" s then f (stail s) else y.
Proof. destruct s as [|[[] [] [] [] [] [] [] []] r]; reflexivity. Qed.

Lemma match_brace {A : Type} (s : string) (f : string -> A) (y : A) :
  match s with
  | String "}" r' => f r'
  | _ => y
  end = if starts_with "}" s then f (stail s) else y.
Proof. destruct s as [|[[] [] [] [] [] [] [] []] r]; reflexivity. Qed.

Lemma stail_skip_ws (r : string) :
  truthy (skip_ws r) = true ->
  (String.length (stail (skip_ws r)) < String.length r)%nat.
Proof.
  destruct (skip_ws r) as [|c t] eqn:E; [discriminate|]. intros _.
  apply skip_ws_tail in E. exact E.
Qed.

Lemma value_at_shorter (c : ascii) (r : string) (f : nat) :
  consuming (parse_value f) ->
  forall v t, value_at c r f = Some (v, t) ->
              (String.length t < String.length (String c r))%nat.
Proof.
  intros Hf v t. unfold value_at.
  destruct (Ascii.eqb c "n"); [now apply literal_shorter|].
  destruct (Ascii.eqb c "t"); [now apply literal_shorter|].
  destruct (Ascii.eqb c "f"); [now apply literal_shorter|].
  destruct (Ascii.eqb c dquote).
  { destruct (parse_chars r) as [[str r']|] eqn:E; [| discriminate].
    intros [= _ <-]. apply (parse_chars_shorter (String.length r)) in E; simpl; lia. }
  destruct (Ascii.eqb c "[").
  { rewrite match_bracket. destruct (starts_with "]" (skip_ws r)) eqn:Eb.
    - intros [= _ <-]. assert (H : truthy (skip_ws r) = true)
        by (destruct (skip_ws r); [discriminate | reflexivity]).
      apply stail_skip_ws in H. simpl. lia.
    - destruct (parse_elems (parse_value f) f [] r) as [[l r']|] eqn:E; [| discriminate].
      intros [= _ <-]. apply (parse_elems_shorter _ Hf) in E. simpl. lia. }
  destruct (Ascii.eqb c "{").
  { rewrite match_brace. destruct (starts_with "}" (skip_ws r)) eqn:Eb.
    - intros [= _ <-]. assert (H : truthy (skip_ws r) = true)
        by (destruct (skip_ws r); [discriminate | reflexivity]).
      apply stail_skip_ws in H. simpl. lia.
    - destruct (parse_members (parse_value f) f [] r) as [[o r']|] eqn:E; [| discriminate].
      intros [= _ <-]. apply (parse_members_shorter _ Hf) in E. simpl. lia. }
  destruct (parse_number (String c r)) as [[x r']|] eqn:E; [| discriminate].
  intros [= _ <-]. now apply parse_number_shorter in E.
Qed.

Lemma parse_value_shorter (f : nat) : consuming (parse_value f).
Proof.
  induction f as [|f IH]; intros s v t; [discriminate|].
  rewrite parse_value_S. destruct (skip_ws s) as [|c r] eqn:E; [discriminate|].
  intros H. apply (value_at_shorter c r f IH) in H.
  pose proof (skip_ws_le s) as Hle. rewrite E in Hle. lia.
Qed.

Lemma parse_elems_agree (p q : string -> option (json * string)) :
  consuming p ->
  forall fuel fuel' acc s,
    agree (S (String.length s)) p q ->
    (String.length s < fuel)%nat -> (String.length s < fuel')%nat ->
    parse_elems p fuel acc s = parse_elems q fuel' acc s.
Proof.
  intros Hp. induction fuel as [|fuel IH]; intros fuel' acc s Hpq Hf Hf'; [lia|].
  destruct fuel' as [|fuel']; [lia|]. cbn [parse_elems].
  rewrite <- (Hpq s) by lia.
  destruct (p s) as [[v r1]|] eqn:E; [| reflexivity].
  apply Hp in E. destruct (skip_ws r1) as [|c r2] eqn:Ews; [reflexivity|].
  apply skip_ws_tail in Ews.
  destruct (Ascii.eqb c ","); [| reflexivity].
  apply IH; try lia. intros s' Hs'. apply Hpq. lia.
Qed.

Lemma parse_members_agree (p q : string -> option (json * string)) :
  consuming p ->
  forall fuel fuel' acc s,
    agree (S (String.length s)) p q ->
    (String.length s < fuel)%nat -> (String.length s < fuel')%nat ->
    parse_members p fuel acc s = parse_members q fuel' acc s.
Proof.
  intros Hp. induction fuel as [|fuel IH]; intros fuel' acc s Hpq Hf Hf'; [lia|].
  destruct fuel' as [|fuel']; [lia|]. cbn [parse_members].
  destruct (skip_ws s) as [|k0 r0] eqn:E0; [reflexivity|].
  apply skip_ws_tail in E0. destruct (Ascii.eqb k0 dquote); [| reflexivity].
  destruct (parse_chars r0) as [[k r1]|] eqn:Ek; [| reflexivity].
  apply (parse_chars_shorter (String.length r0)) in Ek; [| lia].
  destruct (skip_ws r1) as [|c r2] eqn:E1; [reflexivity|].
  apply skip_ws_tail in E1. destruct (Ascii.eqb c ":"); [| reflexivity].
  rewrite <- (Hpq r2) by lia.
  destruct (p r2) as [[v r3]|] eqn:Ev; [| reflexivity].
  apply Hp in Ev. destruct (skip_ws r3) as [|d r4] eqn:E3; [reflexivity|].
  apply skip_ws_tail in E3.
  destruct (Ascii.eqb d ","); [| reflexivity].
  apply IH; try lia. intros s' Hs'. apply Hpq. lia.
Qed.

(** Any fuel above the length of the text gives the same result. *)
Lemma parse_value_fuel (n : nat) :
  forall s f f', (String.length s <= n)%nat ->
                 (String.length s < f)%nat -> (String.length s < f')%nat ->
                 parse_value f s = parse_value f' s.
Proof.
  induction n as [|n IH]; intros s f f' Hn Hf Hf';
    (destruct f as [|f]; [lia|]); (destruct f' as [|f']; [lia|]);
    rewrite !parse_value_S; destruct (skip_ws s) as [|c r] eqn:E; try reflexivity.
  - pose proof (skip_ws_le s) as Hle. rewrite E in Hle. simpl in Hle. lia.
  - pose proof (skip_ws_le s) as Hle. rewrite E in Hle. simpl in Hle.
    assert (Hagree : agree (S (String.length r)) (parse_value f) (parse_value f')).
    { intros s' Hs'. apply IH; lia. }
    unfold value_at.
    rewrite (parse_elems_agree _ _ (parse_value_shorter f) f f' [] r Hagree) by lia.
    rewrite (parse_members_agree _ _ (parse_value_shorter f) f f' [] r Hagree) by lia.
    reflexivity.
Qed.

(** [JSON_parse] gives the parser all the fuel it can use. *)
Lemma JSON_parse_fuel (text : string) (f : nat) :
  (String.length text < f)%nat ->
  parse_value f text = parse_value (S (String.length text)) text.
Proof.
  intros H. apply (parse_value_fuel (String.length text)); lia.
Qed.

(** ** Persisted selection set *)

Lemma obj_own_set {V : Type} (o : obj V) (k : string) (v : V) :
  obj_own (obj_set o k v) k = Some v.
Proof.
  induction o as [|[k' v'] o IH]; simpl.
  - now rewrite String.eqb_refl.
  - destruct (String.eqb k k') eqn:E; simpl; rewrite E; auto.
Qed.

Lemma set_has_nums (ids : list Z) (n : Z) :
  set_has sameValueZero (map num ids) (num n) = false <-> ~ In n ids.
Proof.
  unfold set_has. induction ids as [|m ids IH]; simpl.
  - intuition.
  - rewrite orb_false_iff, IH, Z.eqb_neq. intuition.
Qed.

Lemma set_wf_nums (ids : list Z) : NoDup ids -> set_wf sameValueZero (map num ids).
Proof.
  induction 1 as [|n ids Hn Hids IH]; simpl; auto.
  split; auto. now apply set_has_nums.
Qed.

Lemma stringify_array_truthy (l : list json) : truthy (JSON_stringify l) = true.
Proof. reflexivity. Qed.

Lemma json_eq_num (x : json) (i : Z) : x = num i \/ x <> num i.
Proof.
  destruct x as [| | [z | m e] | | |]; try (right; discriminate).
  destruct (Z.eq_dec z i) as [-> | Hz]; [now left | right].
  unfold num. congruence.
Qed.

(** C3: the updater of [toggleCaught] flips the membership of the index and
    of nothing else, leaves a set behind, and applied twice gives back the
    same set (the same elements, each once); [toggleCaught] called with an
    index other than zero puts the result of the updater, which depends on
    the old set and the index alone, in place of the old set. *)
Theorem toggleCaught_flips (a : Persisted) (i : Z) :
  set_wf sameValueZero (caught a) ->
  let s' := toggle (caught a) i in
  set_wf sameValueZero s'
  /\ set_has sameValueZero s' (num i) = negb (set_has sameValueZero (caught a) (num i))
  /\ (forall x, x <> num i ->
        set_has sameValueZero s' x = set_has sameValueZero (caught a) x)
  /\ Permutation (toggle s' i) (caught a)
  /\ (forall x, set_has sameValueZero (toggle s' i) x = set_has sameValueZero (caught a) x)
  /\ (i <> 0 ->
      caught (toggleCaught a (Some i)) = s'
      /\ caught (toggleCaught (toggleCaught a (Some i)) (Some i)) = toggle s' i).
Proof.
  intros Hwf. cbv zeta.
  pose proof (toggle_wf _ i Hwf) as Hwf'.
  split; [exact Hwf' | split; [now apply toggle_has_same | split; [| split; [| split]]]].
  - intros x Hx. now apply toggle_has_other.
  - now apply toggle_twice.
  - intros x. destruct (json_eq_num x i) as [-> | Hx].
    + rewrite toggle_has_same, toggle_has_same by assumption. apply negb_involutive.
    + rewrite !toggle_has_other by assumption. reflexivity.
  - intros Hi.
    assert (E : forall b, caught (toggleCaught b (Some i)) = toggle (caught b) i).
    { intros b. unfold toggleCaught. apply Z.eqb_neq in Hi. now rewrite Hi. }
    now rewrite !E.
Qed.

Lemma toggleCaught_flips_witness :
  let a := {| caught := [num 3; num 25]; storage := storage0 |} in
  set_wf sameValueZero (caught a) /\ 25 <> 0 /\
  caught (toggleCaught a (Some 25)) = [num 3]
  /\ caught (toggleCaught (toggleCaught a (Some 25)) (Some 25)) = [num 3; num 25]
  /\ Permutation (toggle (toggle (caught a) 25) 25) (caught a).
Proof.
  intros a.
  assert (Hwf : set_wf sameValueZero (caught a)) by (simpl; auto).
  assert (Hi : 25 <> 0) by lia.
  destruct (toggleCaught_flips a 25 Hwf) as (_ & _ & _ & Hperm & _ & Hcall).
  destruct (Hcall Hi) as [H1 H2].
  exact (conj Hwf (conj Hi (conj H1 (conj H2 Hperm)))).
Defined.

(** C4: after [saveCaught] has written a set of positive safe integers,
    [loadCaught] returns that set, with its elements in the same order. *)
Theorem load_after_save (st st' : Storage) (ids : list Z) :
  NoDup ids -> Forall safe_positive ids ->
  setItem st LS_KEY (JSON_stringify (Array_from (map num ids))) = Return st' ->
  saveCaught st (map num ids) = st' /\ loadCaught st' = Return (map num ids).
Proof.
  intros Hnd Hids Hset. unfold saveCaught. rewrite Hset. split; [reflexivity|].
  unfold setItem in Hset. destruct (denied st || full st) eqn:E; [discriminate|].
  apply orb_false_iff in E as [Hd _]. injection Hset as <-.
  unfold loadCaught, getItem. simpl. rewrite Hd. simpl.
  rewrite obj_own_set. unfold Array_from.
  rewrite stringify_array_truthy. simpl negb. cbv iota.
  rewrite (parse_stringify_ids ids Hids). simpl.
  now rewrite (new_Set_json _ (set_wf_nums ids Hnd)).
Qed.

Lemma load_after_save_witness :
  let st' := {| stored := [(LS_KEY, "[3,1,1025]")]; denied := false; full := false |} in
  NoDup [3; 1; 1025] /\ Forall safe_positive [3; 1; 1025] /\
  setItem storage0 LS_KEY (JSON_stringify (Array_from (map num [3; 1; 1025]))) = Return st' /\
  saveCaught storage0 (map num [3; 1; 1025]) = st' /\
  loadCaught st' = Return (map num [3; 1; 1025]).
Proof.
  intros st'.
  assert (Hnd : NoDup [3; 1; 1025]).
  { repeat constructor; simpl; intuition congruence. }
  assert (Hs : Forall safe_positive [3; 1; 1025]).
  { repeat constructor; unfold MAX_SAFE_INTEGER; simpl; lia. }
  assert (Hw : setItem storage0 LS_KEY (JSON_stringify (Array_from (map num [3; 1; 1025])))
               = Return st') by reflexivity.
  exact (conj Hnd (conj Hs (conj Hw (load_after_save storage0 st' [3; 1; 1025] Hnd Hs Hw)))).
Defined.

(** C5: [loadCaught] never throws, and it returns the empty set when the
    storage refuses the read, when the key is absent and when the stored text
    is not JSON. *)
Theorem loadCaught_fails_soft (st : Storage) :
  (exists s, loadCaught st = Return s)
  /\ (getItem st LS_KEY = Throw -> loadCaught st = Return [])
  /\ (getItem st LS_KEY = Return None -> loadCaught st = Return [])
  /\ (forall text, getItem st LS_KEY = Return (Some text) ->
        JSON_parse text = Throw -> loadCaught st = Return []).
Proof.
  unfold loadCaught. repeat split.
  - destruct (getItem st LS_KEY) as [[text|]|]; simpl; eauto.
    destruct (truthy text); simpl; eauto.
    destruct (JSON_parse text); simpl; eauto.
  - now intros ->.
  - now intros ->.
  - intros text -> Hp. simpl. rewrite Hp. now destruct (truthy text).
Qed.

Lemma loadCaught_fails_soft_witness :
  let refused := {| stored := [(LS_KEY, "[1]")]; denied := true; full := false |} in
  let corrupt := {| stored := [(LS_KEY, "[1,")]; denied := false; full := false |} in
  (getItem refused LS_KEY = Throw /\ loadCaught refused = Return [])
  /\ (getItem storage0 LS_KEY = Return None /\ loadCaught storage0 = Return [])
  /\ (getItem corrupt LS_KEY = Return (Some "[1,") /\ JSON_parse "[1," = Throw
      /\ loadCaught corrupt = Return []).
Proof.
  intros refused corrupt.
  assert (H1 : getItem refused LS_KEY = Throw) by reflexivity.
  assert (H2 : getItem storage0 LS_KEY = Return None) by reflexivity.
  assert (H3 : getItem corrupt LS_KEY = Return (Some "[1,")) by reflexivity.
  assert (H4 : JSON_parse "[1," = Throw) by reflexivity.
  split; [|split].
  - exact (conj H1 (proj1 (proj2 (loadCaught_fails_soft refused)) H1)).
  - exact (conj H2 (proj1 (proj2 (proj2 (loadCaught_fails_soft storage0))) H2)).
  - exact (conj H3 (conj H4
             (proj2 (proj2 (proj2 (loadCaught_fails_soft corrupt))) "[1," H3 H4))).
Defined.

(** C10: when the stored text is JSON for something that is not an array,
    [loadCaught] returns the empty set. *)
Theorem loadCaught_not_array (st : Storage) (text : string) (v : json) :
  getItem st LS_KEY = Return (Some text) ->
  JSON_parse text = Return v -> isArray v = false ->
  loadCaught st = Return [].
Proof.
  intros Hg Hp Hv. unfold loadCaught. rewrite Hg. simpl. rewrite Hp. simpl.
  rewrite Hv. now destruct (truthy text).
Qed.

Lemma loadCaught_not_array_witness :
  Forall (fun tv =>
            getItem (holding (fst tv)) LS_KEY = Return (Some (fst tv))
            /\ JSON_parse (fst tv) = Return (snd tv) /\ isArray (snd tv) = false
            /\ loadCaught (holding (fst tv)) = Return [])
         not_arrays.
Proof.
  repeat (apply Forall_cons;
          [ cbv beta; unfold fst, snd;
            match goal with
            | |- _ /\ _ /\ _ /\ loadCaught (holding ?t) = _ =>
                exact (conj eq_refl (conj eq_refl (conj eq_refl
                         (loadCaught_not_array (holding t) t _ eq_refl eq_refl eq_refl))))
            end
          | ]).
  apply Forall_nil.
Defined.

(** ** Sorting *)

Section SortFacts.
Variable A : Type.
Variable cmp : A -> A -> comparison.

Lemma sort_insert_perm (x : A) (l : list A) :
  Permutation (sort_insert cmp x l) (x :: l).
Proof.
  induction l as [|y l IH]; simpl; auto.
  destruct (cmp x y); auto.
  rewrite IH. apply perm_swap.
Qed.

Lemma array_sort_perm (l : list A) : Permutation (array_sort cmp l) l.
Proof.
  induction l as [|x l IH]; simpl; auto.
  rewrite sort_insert_perm. now constructor.
Qed.

Hypothesis cmp_consistent : consistent cmp.

Lemma le_by_total (a b : A) : cmp a b = Gt -> le_by cmp b a.
Proof.
  destruct cmp_consistent as [Hopp _]. unfold le_by.
  intros H. rewrite Hopp, H. discriminate.
Qed.

Lemma sort_insert_sorted (x : A) (l : list A) :
  StronglySorted (le_by cmp) l -> StronglySorted (le_by cmp) (sort_insert cmp x l).
Proof.
  destruct cmp_consistent as [_ Htrans].
  induction 1 as [|y l Hl IH Hy]; simpl.
  - repeat constructor.
  - destruct (cmp x y) eqn:E.
    + constructor; [now constructor|]. constructor.
      * unfold le_by. rewrite E. discriminate.
      * eapply Forall_impl; [|exact Hy]. intros z Hz.
        apply Htrans with y; auto. unfold le_by. rewrite E. discriminate.
    + constructor; [now constructor|]. constructor.
      * unfold le_by. rewrite E. discriminate.
      * eapply Forall_impl; [|exact Hy]. intros z Hz.
        apply Htrans with y; auto. unfold le_by. rewrite E. discriminate.
    + constructor; auto.
      apply (Permutation_Forall (x := x :: l)).
      * symmetry. apply sort_insert_perm.
      * constructor; auto. now apply le_by_total.
Qed.

Lemma array_sort_sorted (l : list A) : StronglySorted (le_by cmp) (array_sort cmp l).
Proof.
  induction l as [|x l IH]; simpl; [constructor | now apply sort_insert_sorted].
Qed.

(** Two sorted arrangements of the same elements are equal when no two
    distinct elements are tied. *)
Lemma sorted_unique (l l' : list A) :
  (forall a b, In a l -> In b l -> le_by cmp a b -> le_by cmp b a -> a = b) ->
  Permutation l l' ->
  StronglySorted (le_by cmp) l -> StronglySorted (le_by cmp) l' -> l = l'.
Proof.
  revert l'. induction l as [|x l IH]; intros l' Hanti Hp Hs Hs'.
  - apply Permutation_nil in Hp. now subst.
  - destruct l' as [|y l'].
    { symmetry in Hp. now apply Permutation_nil in Hp. }
    assert (Hxy : x = y).
    { inversion Hs as [|? ? _ Hx]; subst. inversion Hs' as [|? ? _ Hy]; subst.
      assert (Hin : In y (x :: l)).
      { apply (Permutation_in (l := y :: l')); [now symmetry | now left]. }
      assert (Hin' : In x (y :: l')).
      { apply (Permutation_in (l := x :: l)); [assumption | now left]. }
      destruct Hin as [E | Hin]; [assumption|].
      destruct Hin' as [E | Hin']; [now symmetry|].
      rewrite Forall_forall in Hx, Hy.
      apply Hanti; [now left | now right | now apply Hx | now apply Hy]. }
    subst y. f_equal. apply IH.
    + intros a b Ha Hb. apply Hanti; now right.
    + now apply Permutation_cons_inv in Hp.
    + now inversion Hs.
    + now inversion Hs'.
Qed.
End SortFacts.

(** The default order of [sort] on strings is a consistent comparator. *)

Lemma ascii_compare_N (a b : ascii) :
  Ascii.compare a b = N.compare (N_of_ascii a) (N_of_ascii b).
Proof. reflexivity. Qed.

Lemma string_compare_trans (a b c : string) :
  le_by String.compare a b -> le_by String.compare b c -> le_by String.compare a c.
Proof.
  unfold le_by. revert b c.
  induction a as [|x a IH]; intros [|y b] [|z c]; simpl; try congruence.
  rewrite !ascii_compare_N.
  destruct (N.compare_spec (N_of_ascii x) (N_of_ascii y)) as [E | L | G];
    destruct (N.compare_spec (N_of_ascii y) (N_of_ascii z)) as [E' | L' | G'];
    destruct (N.compare_spec (N_of_ascii x) (N_of_ascii z)) as [E'' | L'' | G''];
    try congruence; try lia; intros; eauto.
Qed.

Lemma string_compare_consistent : consistent String.compare.
Proof.
  split; [apply String.compare_antisym | apply string_compare_trans].
Qed.

Lemma string_le_antisym (a b : string) :
  le_by String.compare a b -> le_by String.compare b a -> a = b.
Proof.
  unfold le_by. intros H1 H2. apply String.leb_antisym; unfold String.leb.
  - now destruct (String.compare a b).
  - now destruct (String.compare b a).
Qed.

Lemma default_sort_perm (l : list string) : Permutation (default_sort l) l.
Proof. apply array_sort_perm. Qed.

Lemma default_sort_sorted (l : list string) :
  StronglySorted (le_by String.compare) (default_sort l).
Proof. apply array_sort_sorted, string_compare_consistent. Qed.

(** Sets with the same elements are sorted into the same array. *)
Lemma default_sort_ext (l l' : list string) :
  NoDup l -> NoDup l' -> (forall x, In x l <-> In x l') ->
  default_sort l = default_sort l'.
Proof.
  intros Hl Hl' Hin. apply sorted_unique with (cmp := String.compare).
  - intros a b _ _. apply string_le_antisym.
  - rewrite !default_sort_perm. now apply NoDup_Permutation.
  - apply default_sort_sorted.
  - apply default_sort_sorted.
Qed.

(** ** Objects *)

Lemma obj_own_None {V : Type} (o : obj V) (k : string) :
  obj_own o k = None <-> ~ In k (keys o).
Proof.
  unfold keys. induction o as [|[k' v] o IH]; simpl; [intuition|].
  destruct (String.eqb_spec k k') as [-> | Hk].
  - split; [discriminate | intros H; elim H; now left].
  - rewrite IH. intuition.
Qed.

Lemma obj_own_Some {V : Type} (o : obj V) (k : string) (v : V) :
  obj_own o k = Some v -> In k (keys o).
Proof.
  intros H. destruct (in_dec string_dec k (keys o)) as [Hin | Hn]; auto.
  apply obj_own_None in Hn. congruence.
Qed.

Lemma obj_own_set_other {V : Type} (o : obj V) (k k' : string) (v : V) :
  k' <> k -> obj_own (obj_set o k v) k' = obj_own o k'.
Proof.
  intros Hk. induction o as [|[k0 v0] o IH]; simpl.
  - destruct (String.eqb_spec k' k); congruence.
  - destruct (String.eqb_spec k k0) as [-> | Hk0]; simpl.
    + destruct (String.eqb_spec k' k0); [congruence | reflexivity].
    + now rewrite IH.
Qed.

Lemma keys_set_in {V : Type} (o : obj V) (k : string) (v : V) :
  In k (keys o) -> keys (obj_set o k v) = keys o.
Proof.
  unfold keys. induction o as [|[k0 v0] o IH]; simpl; [intuition|].
  destruct (String.eqb_spec k k0) as [-> | Hk0]; simpl; [reflexivity|].
  intros [E | Hin]; [congruence|]. now rewrite IH.
Qed.

Lemma obj_set_new {V : Type} (o : obj V) (k : string) (v : V) :
  ~ In k (keys o) -> obj_set o k v = o ++ [(k, v)].
Proof.
  unfold keys. induction o as [|[k0 v0] o IH]; simpl; [reflexivity|].
  intros Hn. destruct (String.eqb_spec k k0) as [-> | Hk0]; [intuition|].
  rewrite IH; intuition.
Qed.

Lemma keys_set {V : Type} (o : obj V) (k : string) (v : V) (x : string) :
  In x (keys (obj_set o k v)) <-> In x (keys o) \/ x = k.
Proof.
  destruct (in_dec string_dec k (keys o)) as [Hin | Hn].
  - rewrite keys_set_in by assumption. split; [auto | intros [H | ->]; auto].
  - rewrite obj_set_new by assumption. unfold keys. rewrite map_app, in_app_iff.
    simpl. intuition.
Qed.

Lemma keys_set_nodup {V : Type} (o : obj V) (k : string) (v : V) :
  NoDup (keys o) -> NoDup (keys (obj_set o k v)).
Proof.
  intros H. destruct (in_dec string_dec k (keys o)) as [Hin | Hn].
  - now rewrite keys_set_in.
  - rewrite obj_set_new by assumption. unfold keys. rewrite map_app. simpl.
    apply NoDup_app; auto.
    + repeat constructor. intros [].
    + intros x Hx [<- | []]. contradiction.
Qed.

(** ** Sets of strings *)

Lemma set_has_string (s : list string) (x : string) :
  set_has String.eqb s x = true <-> In x s.
Proof.
  unfold set_has. rewrite existsb_exists. split.
  - intros (y & Hy & E). apply String.eqb_eq in E. now subst.
  - intros H. exists x. split; auto. apply String.eqb_refl.
Qed.

Lemma set_add_string_in (s : list string) (l x : string) :
  In x (set_add String.eqb s l) <-> In x s \/ x = l.
Proof.
  unfold set_add. destruct (set_has String.eqb s l) eqn:E.
  - apply set_has_string in E. split; [auto | intros [H | ->]; auto].
  - rewrite in_app_iff. simpl. intuition.
Qed.

Lemma set_add_string_nodup (s : list string) (l : string) :
  NoDup s -> NoDup (set_add String.eqb s l).
Proof.
  intros H. unfold set_add. destruct (set_has String.eqb s l) eqn:E; auto.
  apply NoDup_app; auto.
  - repeat constructor. intros [].
  - intros x Hx [<- | []]. apply set_has_string in Hx. congruence.
Qed.

(** ** Encounter normalizer *)

Lemma good_empty : good [].
Proof. repeat split; simpl; try constructor; try contradiction; discriminate. Qed.

Lemma add_location_throws (o : obj (list string)) (v l : string) :
  good o -> inherited v = true -> add_location o v l = Throw.
Proof.
  intros (_ & Hk & _) Hv. unfold add_location, obj_get.
  destruct (obj_own o v) eqn:E.
  - apply obj_own_Some in E. apply Hk in E. congruence.
  - now rewrite Hv.
Qed.

Lemma add_location_returns (o : obj (list string)) (v l : string) :
  good o -> inherited v = false ->
  exists o', add_location o v l = Return o'
             /\ good o'
             /\ (forall k, In k (keys o') <-> In k (keys o) \/ k = v)
             /\ (forall k x, In x (locations o' k)
                             <-> In x (locations o k) \/ (k = v /\ x = l)).
Proof.
  intros (Hnd & Hk & Hs) Hv. unfold add_location, obj_get. rewrite Hv.
  set (old := or_empty (obj_own o v)).
  exists (obj_set o v (set_add String.eqb old l)).
  assert (Hold : NoDup old).
  { unfold old. destruct (obj_own o v) eqn:E; simpl; [eauto | constructor]. }
  split; [| split; [| split]].
  - unfold old. now destruct (obj_own o v).
  - repeat split.
    + now apply keys_set_nodup.
    + intros k Hin. apply keys_set in Hin as [Hin | ->]; auto.
    + intros k s. destruct (string_dec k v) as [-> | Hkv].
      * rewrite obj_own_set. intros [= <-]. now apply set_add_string_nodup.
      * rewrite obj_own_set_other by assumption. apply Hs.
  - intros k. apply keys_set.
  - intros k x. unfold locations. destruct (string_dec k v) as [-> | Hkv].
    + rewrite obj_own_set. simpl. rewrite set_add_string_in. fold old. intuition.
    + rewrite obj_own_set_other by assumption. intuition.
Qed.

Lemma add_pairs_app (o : obj (list string)) (ps qs : list (string * string)) :
  add_pairs o (ps ++ qs) = (o' <- add_pairs o ps ;; add_pairs o' qs).
Proof.
  revert o. induction ps as [|[v l] ps IH]; intros o; simpl; auto.
  destruct (add_location o v l); simpl; auto.
Qed.

Lemma add_details_pairs (o : obj (list string)) (loc : option string)
  (vds : list (option string)) :
  add_details o loc vds
  = add_pairs o
      (match present loc with
       | Some l =>
           flat_map (fun vd => match present vd with Some v => [(v, l)] | None => [] end) vds
       | None => []
       end).
Proof.
  revert o. induction vds as [|vd vds IH]; intros o; simpl.
  - now destruct (present loc).
  - destruct (present vd) as [v|], (present loc) as [l|]; simpl; auto.
    destruct (add_location o v l); simpl; auto.
Qed.

Lemma add_rows_pairs (o : obj (list string)) (rows : list EncounterRow) :
  add_rows o rows = add_pairs o (pairs rows).
Proof.
  revert o. induction rows as [|row rows IH]; intros o; simpl; auto.
  unfold pairs in *. simpl. rewrite add_pairs_app, add_details_pairs.
  fold (row_pairs row). destruct (add_pairs o (row_pairs row)); simpl; auto.
Qed.

Lemma add_pairs_throws (o : obj (list string)) (ps : list (string * string)) :
  good o -> (exists v l, In (v, l) ps /\ inherited v = true) ->
  add_pairs o ps = Throw.
Proof.
  revert o. induction ps as [|[v l] ps IH]; intros o Ho (v' & l' & Hin & Hv).
  - destruct Hin.
  - simpl. destruct (inherited v) eqn:E.
    + now rewrite add_location_throws.
    + destruct (add_location_returns o v l Ho E) as (o' & -> & Ho' & _).
      simpl. apply IH; auto. destruct Hin as [[= -> ->] | Hin]; [congruence|].
      eauto.
Qed.

Lemma add_pairs_returns (o : obj (list string)) (ps : list (string * string)) :
  good o -> (forall v l, In (v, l) ps -> inherited v = false) ->
  exists o', add_pairs o ps = Return o'
             /\ good o'
             /\ (forall k, In k (keys o')
                           <-> In k (keys o) \/ exists l, In (k, l) ps)
             /\ (forall k x, In x (locations o' k)
                             <-> In x (locations o k) \/ In (k, x) ps).
Proof.
  revert o. induction ps as [|[v l] ps IH]; intros o Ho Hps.
  - exists o. simpl. split; [reflexivity|]. split; [assumption|].
    split; intros; (split; [now left|]).
    + intros [H | (l & [])]; auto.
    + intros [H | []]; auto.
  - simpl.
    destruct (add_location_returns o v l Ho) as (o1 & -> & Ho1 & Hk1 & Hl1).
    { apply (Hps v l). now left. }
    destruct (IH o1 Ho1) as (o' & E & Ho' & Hk & Hl).
    { intros v' l' Hin. apply (Hps v' l'). now right. }
    exists o'. simpl. split; [assumption|]. split; [assumption|]. split.
    + intros k. rewrite Hk, Hk1. split.
      * intros [[H | ->] | (x & H)]; eauto.
      * intros [H | (x & [[= -> ->] | H])]; eauto.
    + intros k x. rewrite Hl, Hl1. split.
      * intros [[H | [-> ->]] | H]; auto.
      * intros [H | [[= -> ->] | H]]; auto.
Qed.

Lemma throwing_true (ps : list (string * string)) :
  throwing ps = true <-> exists v l, In (v, l) ps /\ inherited v = true.
Proof.
  unfold throwing. rewrite existsb_exists. split.
  - intros ([v l] & Hin & H). eauto.
  - intros (v & l & Hin & H). now exists (v, l).
Qed.

Lemma throwing_false (ps : list (string * string)) :
  throwing ps = false <-> forall v l, In (v, l) ps -> inherited v = false.
Proof.
  unfold throwing. split.
  - intros H v l Hin. destruct (inherited v) eqn:E; auto.
    assert (existsb (fun p => inherited (fst p)) ps = true)
      by (apply existsb_exists; now exists (v, l)).
    congruence.
  - intros H. destruct (existsb _ ps) eqn:E; auto.
    apply existsb_exists in E as ([v l] & Hin & Hv). simpl in Hv.
    rewrite (H v l Hin) in Hv. discriminate.
Qed.

(** ** [Object.keys] *)

Lemma filter_partition {A : Type} (f : A -> bool) (l : list A) :
  Permutation (filter f l ++ filter (fun x => negb (f x)) l) l.
Proof.
  induction l as [|x l IH]; simpl; auto.
  destruct (f x); simpl.
  - now constructor.
  - rewrite <- Permutation_middle. now constructor.
Qed.

Lemma Object_keys_perm {V : Type} (o : obj V) : Permutation (Object_keys o) (keys o).
Proof.
  unfold Object_keys, keys. rewrite array_sort_perm. apply filter_partition.
Qed.

(** The loop that fills [normalized]. *)
Lemma fold_obj_set {V : Type} (f : string -> V) (vs : list string) (acc : obj V) :
  NoDup vs -> (forall v, In v vs -> ~ In v (keys acc)) ->
  fold_left (fun o v => obj_set o v (f v)) vs acc
  = acc ++ map (fun v => (v, f v)) vs.
Proof.
  revert acc. induction vs as [|v vs IH]; intros acc Hnd Hacc; simpl.
  - now rewrite app_nil_r.
  - inversion Hnd as [|? ? Hv Hvs]; subst.
    rewrite obj_set_new by (apply Hacc; now left).
    rewrite IH; auto.
    + now rewrite <- app_assoc.
    + intros x Hx. unfold keys. rewrite map_app, in_app_iff. simpl.
      intros [H | [<- | []]]; [|contradiction].
      apply (Hacc x); [now right | assumption].
Qed.

Lemma obj_own_map {V : Type} (f : string -> V) (vs : list string) (k : string) :
  obj_own (map (fun v => (v, f v)) vs) k
  = if in_dec string_dec k vs then Some (f k) else None.
Proof.
  induction vs as [|v vs IH]; simpl; auto.
  destruct (String.eqb_spec k v) as [-> | Hk].
  - destruct (string_dec v v); [reflexivity | congruence].
  - rewrite IH. destruct (string_dec v k); [congruence|].
    now destruct (in_dec string_dec k vs).
Qed.

Lemma sorted_strict (l : list string) :
  NoDup l -> StronglySorted (le_by String.compare) l ->
  StronglySorted (fun a b => String.compare a b = Lt) l.
Proof.
  induction 2 as [|x l Hl IH Hx]; constructor.
  - apply IH. now inversion H.
  - inversion H as [|? ? Hnx _]; subst. rewrite Forall_forall in *.
    intros y Hy. specialize (Hx y Hy). unfold le_by in Hx.
    destruct (String.compare x y) eqn:E; try congruence.
    apply String.compare_eq_iff in E. congruence.
Qed.

Lemma locations_nodup (o : obj (list string)) (v : string) :
  good o -> NoDup (locations o v).
Proof.
  intros (_ & _ & H). unfold locations.
  destruct (obj_own o v) eqn:E; simpl; [eauto | constructor].
Qed.

Lemma throwing_perm (ps qs : list (string * string)) :
  Permutation ps qs -> throwing ps = throwing qs.
Proof.
  intros Hp. destruct (throwing qs) eqn:E.
  - apply throwing_true in E as (v & l & Hin & Hv). apply throwing_true.
    exists v, l. split; auto. apply (Permutation_in (l := qs)); [now symmetry | auto].
  - apply throwing_false. rewrite throwing_false in E. intros v l Hin.
    apply (E v l). now apply (Permutation_in (l := ps)).
Qed.

Section NormalizerFacts.
Variable localeCompare : string -> string -> comparison.

Lemma versions_perm (o : obj (list string)) :
  Permutation (versions (result_of localeCompare o)) (keys o).
Proof. simpl. rewrite array_sort_perm. apply Object_keys_perm. Qed.

Lemma normalize_throws (encArr : option (list EncounterRow)) :
  throwing (pairs (or_empty encArr)) = true -> normalizeEncounterData localeCompare encArr = Throw.
Proof.
  intros H. unfold normalizeEncounterData.
  rewrite add_rows_pairs, add_pairs_throws; auto using good_empty.
  now apply throwing_true.
Qed.

Lemma normalize_returns (encArr : option (list EncounterRow)) :
  throwing (pairs (or_empty encArr)) = false ->
  exists o, normalizeEncounterData localeCompare encArr = Return (result_of localeCompare o)
            /\ good o
            /\ (forall k, In k (keys o) <-> exists l, In (k, l) (pairs (or_empty encArr)))
            /\ (forall k x, In x (locations o k) <-> In (k, x) (pairs (or_empty encArr))).
Proof.
  intros H. rewrite throwing_false in H.
  destruct (add_pairs_returns [] (pairs (or_empty encArr)) good_empty H)
    as (o & E & Ho & Hk & Hl).
  exists o. split; [| split; [assumption | split]].
  - unfold normalizeEncounterData. rewrite add_rows_pairs, E. simpl.
    unfold result_of. f_equal. f_equal.
    rewrite fold_obj_set.
    + reflexivity.
    + apply (Permutation_NoDup (l := keys o)).
      * symmetry. apply (versions_perm o).
      * apply Ho.
    + intros v _ [].
  - intros k. rewrite Hk. simpl. tauto.
  - intros k x. rewrite Hl. unfold locations. simpl. tauto.
Qed.

Lemma result_own (o : obj (list string)) (v : string) :
  obj_own (byVersion (result_of localeCompare o)) v
  = if in_dec string_dec v (keys o) then Some (default_sort (locations o v)) else None.
Proof.
  unfold result_of. cbv zeta. simpl byVersion. rewrite obj_own_map.
  pose proof (versions_perm o) as Hp. simpl in Hp.
  destruct (in_dec string_dec v (array_sort _ _)) as [H | H],
           (in_dec string_dec v (keys o)) as [H' | H']; auto.
  - elim H'. now apply (Permutation_in (l := array_sort (compare_labels localeCompare)
                                                          (Object_keys o))).
  - elim H. apply (Permutation_in (l := keys o)); [now symmetry | assumption].
Qed.

Lemma compare_labels_consistent :
  consistent localeCompare -> consistent (compare_labels localeCompare).
Proof.
  intros [Hopp Htrans]. split; unfold compare_labels, le_by in *.
  - intros a b. apply Hopp.
  - intros a b c. apply Htrans.
Qed.
End NormalizerFacts.

Lemma obj_own_In {V : Type} (o : obj V) (k : string) (v : V) :
  obj_own o k = Some v -> In (k, v) o.
Proof.
  induction o as [|[k' v'] o IH]; simpl; [discriminate|].
  destruct (String.eqb k k') eqn:E.
  - apply String.eqb_eq in E. intros [= <-]. left. now subst.
  - intros H. right. now apply IH.
Qed.

Lemma curated_label (v l : string) :
  obj_own VERSION_LABELS v = Some l -> truthy l = true.
Proof.
  intros H. apply obj_own_In in H.
  assert (Hall : Forall (fun kl => truthy (snd kl) = true) VERSION_LABELS)
    by (repeat constructor).
  rewrite Forall_forall in Hall. apply (Hall (v, l) H).
Qed.

(** C8, amended: the display label of a version is the one that
    [VERSION_LABELS] gives it and, for a version that it does not hold,
    [titleCase] of its name.  [normalizeEncounterData] throws exactly when a
    pair names a version with a name inherited from [Object.prototype]; for
    rows that name no such version it returns a map.  The map it returns
    groups the (version, location) pairs of the rows by version: the keys
    of [byVersion] are the versions, each once; the list of a version holds
    exactly the locations paired with it, each once, in increasing code unit
    order; and [versions] is sorted by [localeCompare] on the display
    labels. *)
Theorem normalize_groups (localeCompare : string -> string -> comparison)
  (encArr : option (list EncounterRow)) :
  consistent localeCompare ->
  let ps := pairs (or_empty encArr) in
  (forall v, versionLabel v = match obj_own VERSION_LABELS v with
                             | Some l => l
                             | None => titleCase v
                             end)
  /\ (normalizeEncounterData localeCompare encArr = Throw
      <-> exists v l, In (v, l) ps /\ inherited v = true)
  /\ ((forall v l, In (v, l) ps -> inherited v = false) ->
      exists m, normalizeEncounterData localeCompare encArr = Return m)
  /\ forall m, normalizeEncounterData localeCompare encArr = Return m ->
       keys (byVersion m) = versions m
       /\ NoDup (versions m)
       /\ (forall v, In v (versions m) <-> exists l, In (v, l) ps)
       /\ (forall v l, In l (locations (byVersion m) v) <-> In (v, l) ps)
       /\ (forall v, StronglySorted (fun a b => String.compare a b = Lt)
                       (locations (byVersion m) v))
       /\ StronglySorted
            (fun a b => localeCompare (versionLabel a) (versionLabel b) <> Gt)
            (versions m).
Proof.
  intros Hc. cbv zeta. split.
  { intros v. unfold versionLabel.
    destruct (obj_own VERSION_LABELS v) as [l|] eqn:E; [| reflexivity].
    now rewrite (curated_label v l E). }
  destruct (throwing (pairs (or_empty encArr))) eqn:Ht.
  - pose proof (normalize_throws localeCompare encArr Ht) as E. split; [| split].
    + split; [intros _; now apply throwing_true | auto].
    + intros Hno. apply throwing_false in Hno. congruence.
    + intros m Hm. congruence.
  - destruct (normalize_returns localeCompare encArr Ht) as (o & E & Ho & Hk & Hl).
    split; [| split].
    + split; [congruence|]. intros H. apply throwing_true in H. congruence.
    + intros _. now exists (result_of localeCompare o).
    + intros m Hm. rewrite E in Hm. injection Hm as <-.
      pose proof (versions_perm localeCompare o) as Hp.
      assert (Hloc : forall v, locations (byVersion (result_of localeCompare o)) v
                               = if in_dec string_dec v (keys o)
                                 then default_sort (locations o v) else []).
      { intros v. unfold locations at 1. rewrite result_own.
        now destruct (in_dec string_dec v (keys o)). }
      split; [| split; [| split; [| split; [| split]]]].
      * unfold keys. simpl. rewrite map_map. simpl. apply map_id.
      * apply (Permutation_NoDup (l := keys o)); [now symmetry | apply Ho].
      * intros v. rewrite <- Hk. split; apply Permutation_in; [assumption | now symmetry].
      * intros v l. rewrite Hloc, <- Hl.
        destruct (in_dec string_dec v (keys o)) as [Hin | Hn].
        -- split; apply Permutation_in; [apply default_sort_perm |].
           symmetry. apply default_sort_perm.
        -- split; [intros [] |]. intros Hx. elim Hn. apply Hk.
           exists l. now apply Hl.
      * intros v. rewrite Hloc.
        destruct (in_dec string_dec v (keys o)); [| constructor].
        apply sorted_strict; [| apply default_sort_sorted].
        apply (Permutation_NoDup (l := locations o v)).
        -- symmetry. apply default_sort_perm.
        -- now apply locations_nodup.
      * apply (array_sort_sorted _ (compare_labels localeCompare)).
        now apply compare_labels_consistent.
Qed.

(** C1, amended: permuting the rows leaves the result the same up to the
    order of [versions], and leaves it identical when no two distinct
    versions of the rows have labels that compare equal. *)
Theorem normalize_permutation (localeCompare : string -> string -> comparison)
  (rows rows' : list EncounterRow) :
  consistent localeCompare -> Permutation rows rows' ->
  same_groups (normalizeEncounterData localeCompare (Some rows))
              (normalizeEncounterData localeCompare (Some rows'))
  /\ (no_ties localeCompare rows ->
      normalizeEncounterData localeCompare (Some rows')
      = normalizeEncounterData localeCompare (Some rows)).
Proof.
  intros Hc Hperm.
  assert (Hps : Permutation (pairs rows) (pairs rows'))
    by (unfold pairs; now apply Permutation_flat_map).
  pose proof (throwing_perm _ _ Hps) as Ht.
  destruct (throwing (pairs rows)) eqn:E.
  - rewrite (normalize_throws localeCompare (Some rows) E).
    rewrite (normalize_throws localeCompare (Some rows')) by now symmetry.
    simpl. auto.
  - symmetry in Ht.
    destruct (normalize_returns localeCompare (Some rows) E) as (o & -> & Ho & Hk & Hl).
    destruct (normalize_returns localeCompare (Some rows') Ht) as (o' & -> & Ho' & Hk' & Hl').
    simpl or_empty in *.
    assert (Hkeys : forall k, In k (keys o) <-> In k (keys o')).
    { intros k. rewrite Hk, Hk'. split; intros (l & H); exists l;
        [apply (Permutation_in _ Hps H) | apply (Permutation_in _ (Permutation_sym Hps) H)]. }
    assert (Hlocs : forall v, default_sort (locations o v) = default_sort (locations o' v)).
    { intros v. apply default_sort_ext; auto using locations_nodup.
      intros x. rewrite Hl, Hl'. split;
        [apply (Permutation_in _ Hps) | apply (Permutation_in _ (Permutation_sym Hps))]. }
    assert (Hkp : Permutation (keys o) (keys o')).
    { apply NoDup_Permutation; [apply Ho | apply Ho' | exact Hkeys]. }
    assert (Hvp : Permutation (versions (result_of localeCompare o))
                              (versions (result_of localeCompare o'))).
    { rewrite !versions_perm. exact Hkp. }
    split.
    + unfold same_groups. split; [exact Hvp|]. intros v. rewrite !result_own, Hlocs.
      destruct (in_dec string_dec v (keys o)) as [H | H],
               (in_dec string_dec v (keys o')) as [H' | H']; auto;
        apply Hkeys in H || apply Hkeys in H'; contradiction.
    + intros Hties. f_equal.
      assert (Hv : versions (result_of localeCompare o')
                   = versions (result_of localeCompare o)).
      { symmetry. apply sorted_unique with (cmp := compare_labels localeCompare).
        - intros a b Ha Hb Hab Hba.
          apply (Permutation_in _ (versions_perm localeCompare o)) in Ha, Hb.
          apply Hk in Ha as (l & Ha). apply Hk in Hb as (l' & Hb).
          apply (Hties a b l l' Ha Hb).
          destruct Hc as [Hopp _]. unfold le_by, compare_labels in Hab, Hba.
          rewrite Hopp in Hba.
          destruct (localeCompare (versionLabel a) (versionLabel b));
            simpl in *; congruence.
        - exact Hvp.
        - apply array_sort_sorted. now apply compare_labels_consistent.
        - apply array_sort_sorted. now apply compare_labels_consistent. }
      unfold result_of in *. cbv zeta in *. simpl versions in Hv. rewrite Hv.
      f_equal. apply map_ext. intros v. now rewrite Hlocs.
Qed.

Lemma normalize_groups_witness :
  consistent String.compare
  /\ versionLabel "firered" = "FireRed" /\ versionLabel "firera" = "Firera"
  /\ normalizeEncounterData String.compare (Some label_rows)
     = Return {| versions := ["firered"; "firera"];
                 byVersion := [("firered", ["route-1"; "route-2"]);
                               ("firera", ["route-2"])] |}
  /\ exists m, normalizeEncounterData String.compare (Some label_rows) = Return m
       /\ keys (byVersion m) = versions m
       /\ NoDup (versions m)
       /\ (forall v, In v (versions m) <-> exists l, In (v, l) (pairs label_rows))
       /\ (forall v l, In l (locations (byVersion m) v) <-> In (v, l) (pairs label_rows))
       /\ (forall v, StronglySorted (fun a b => String.compare a b = Lt)
                       (locations (byVersion m) v))
       /\ StronglySorted
            (fun a b => String.compare (versionLabel a) (versionLabel b) <> Gt)
            (versions m).
Proof.
  destruct (normalize_groups String.compare (Some label_rows) string_compare_consistent)
    as (Hlabel & _ & Hreturns & Hgroups).
  assert (Hno : forall v l, In (v, l) (pairs (or_empty (Some label_rows))) ->
                            inherited v = false).
  { simpl. intros v l H.
    repeat (destruct H as [H | H]; [injection H as <- <-; reflexivity|]).
    destruct H. }
  destruct (Hreturns Hno) as (m & E).
  split; [exact string_compare_consistent|].
  split; [exact (Hlabel "firered")|].
  split; [exact (Hlabel "firera")|].
  split; [reflexivity|].
  exists m. split; [exact E | exact (Hgroups m E)].
Defined.

Lemma caseless_consistent : consistent caseless.
Proof.
  destruct string_compare_consistent as [Hopp Htrans]. split; unfold caseless, le_by in *.
  - intros a b. apply Hopp.
  - intros a b c. apply Htrans.
Qed.

(** C8 fails: for a row whose version is named ["constructor"] the function
    throws, whatever [localeCompare] is, and no map is produced; and under a
    comparator that looks at the letters before their case, [Firera] comes
    before [FireRed], which is not the lexicographic order of the labels:
    there the upper case [R] comes before the lower case [r]. *)
Lemma normalize_not_as_claimed :
  (forall localeCompare, ~ claimed_groups localeCompare [row "route-1" ["constructor"]])
  /\ consistent caseless
  /\ normalizeEncounterData caseless
       (Some [row "route-1" ["firered"]; row "route-1" ["firera"]])
     = Return {| versions := ["firera"; "firered"];
                 byVersion := [("firera", ["route-1"]); ("firered", ["route-1"])] |}
  /\ ~ claimed_groups caseless [row "route-1" ["firered"]; row "route-1" ["firera"]].
Proof.
  split; [| split; [exact caseless_consistent | split; [reflexivity|]]].
  - intros lc (m & E & _).
    rewrite (normalize_throws lc (Some [row "route-1" ["constructor"]]) eq_refl) in E.
    discriminate E.
  - intros (m & E & _ & _ & Hs). vm_compute in E. injection E as <-.
    inversion Hs as [|a l _ Hall]; subst. inversion Hall as [|b l' Hab _]; subst.
    apply Hab. reflexivity.
Qed.

Example normalize_sample :
  normalizeEncounterData String.compare (Some sample_rows)
  = Return {| versions := ["blue"; "red"];
              byVersion := [("blue", ["route-2"]); ("red", ["route-1"; "route-2"])] |}.
Proof. reflexivity. Qed.

Lemma sample_no_ties : no_ties String.compare sample_rows.
Proof.
  intros v v' l l' H H' E. simpl in H, H'.
  repeat match goal with
         | H : _ \/ _ |- _ => destruct H as [H | H]
         | H : False |- _ => destruct H
         | H : (_, _) = (_, _) |- _ => injection H as <- <-
         end; try reflexivity; vm_compute in E; discriminate E.
Qed.

Lemma normalize_permutation_witness :
  consistent String.compare /\ Permutation sample_rows (List.rev sample_rows) /\
  same_groups (normalizeEncounterData String.compare (Some sample_rows))
              (normalizeEncounterData String.compare (Some (List.rev sample_rows)))
  /\ (no_ties String.compare sample_rows ->
      normalizeEncounterData String.compare (Some (List.rev sample_rows))
      = normalizeEncounterData String.compare (Some sample_rows)).
Proof.
  exact (conj string_compare_consistent
           (conj (Permutation_rev sample_rows)
              (normalize_permutation String.compare sample_rows (List.rev sample_rows)
                 string_compare_consistent (Permutation_rev sample_rows)))).
Defined.

(** C1 fails: ["black-2"] and ["black_2"] have the same label, [Black 2];
    every [localeCompare] answers zero on equal strings, the sort is stable,
    and these two versions, neither of them an array index, come out in the
    order in which the rows named them. *)
Lemma normalize_order_dependent :
  ~ exists localeCompare,
      (forall s, localeCompare s s = Eq) /\ order_independent localeCompare.
Proof.
  intros (lc & Hrefl & H).
  specialize (H [row "route-4" ["black-2"]; row "route-4" ["black_2"]]
                [row "route-4" ["black_2"]; row "route-4" ["black-2"]]
                (perm_swap _ _ _)).
  vm_compute in H. rewrite (Hrefl "Black 2") in H. discriminate H.
Qed.

(** Sorted by label, not by raw name: with the code unit order standing
    for [localeCompare], [FireRed] comes before [Firea], while ["firea"]
    comes before ["firered"]. *)
Example sorted_by_label :
  normalizeEncounterData String.compare
    (Some [row "route-1" ["firea"]; row "route-1" ["firered"]])
  = Return {| versions := ["firered"; "firea"];
              byVersion := [("firered", ["route-1"]); ("firea", ["route-1"])] |}.
Proof. reflexivity. Qed.

Example labels_tie : versionLabel "black-2" = "Black 2" /\ versionLabel "black_2" = "Black 2".
Proof. split; reflexivity. Qed.

(** ** Description selector *)

Lemma split_words (s cur : string) (in_run : bool) :
  (in_run = true -> cur = EmptyString) ->
  filter truthy (split_from is_space s cur in_run) = words_from s cur.
Proof.
  revert cur in_run. induction s as [|c r IH]; intros cur in_run Hrun; simpl.
  - reflexivity.
  - destruct (is_space c).
    + destruct in_run.
      * rewrite (Hrun eq_refl). simpl. now apply IH.
      * simpl. rewrite (IH EmptyString true) by reflexivity. reflexivity.
    + apply IH. discriminate.
Qed.

Lemma words_words_from (s : string) : words s = words_from s EmptyString.
Proof. unfold words, split_runs. apply split_words. discriminate. Qed.

Lemma wordlike_snoc (cur : string) (c : ascii) :
  spaceless cur -> is_space c = false -> wordlike (cur ++ String c EmptyString).
Proof.
  intros Hs Hc. split.
  - destruct cur; discriminate.
  - induction cur as [|x cur IH]; simpl in *; intuition.
Qed.

Lemma wordlike_truthy (cur : string) : wordlike cur -> truthy cur = true.
Proof. intros [H _]. destruct cur; [congruence | reflexivity]. Qed.

Lemma trimEnd_cons (c : ascii) (s : string) :
  trimEnd s <> EmptyString -> trimEnd (String c s) = String c (trimEnd s).
Proof. simpl. destruct (trimEnd s); congruence. Qed.

Lemma trimEnd_nonspace (c : ascii) (s : string) :
  is_space c = false -> trimEnd (String c s) <> EmptyString.
Proof. simpl. intros ->. destruct (trimEnd s); discriminate. Qed.

Lemma trimEnd_app (pre x : string) :
  trimEnd x <> EmptyString -> trimEnd (pre ++ x) = (pre ++ trimEnd x)%string.
Proof.
  intros Hx. induction pre as [|c pre IH]; [reflexivity|].
  change (String c pre ++ x)%string with (String c (pre ++ x)%string).
  rewrite trimEnd_cons; rewrite IH; [reflexivity|].
  destruct pre; [assumption | discriminate].
Qed.

Lemma trimEnd_word (cur : string) : wordlike cur -> trimEnd cur = cur.
Proof.
  intros [Hne Hs]. induction cur as [|c cur IH]; [congruence|].
  destruct Hs as [Hc Hs]. destruct cur as [|d cur].
  - simpl. now rewrite Hc.
  - assert (E : trimEnd (String d cur) = String d cur) by (apply IH; [discriminate | assumption]).
    rewrite trimEnd_cons; rewrite E; [reflexivity | discriminate].
Qed.

Lemma trimEnd_word_space (cur : string) :
  wordlike cur -> trimEnd (cur ++ " ") = cur.
Proof.
  intros [Hne Hs]. induction cur as [|c cur IH]; [congruence|].
  destruct Hs as [Hc Hs]. destruct cur as [|d cur].
  - simpl. now rewrite Hc.
  - assert (E : trimEnd (String d cur ++ " ") = String d cur)
      by (apply IH; [discriminate | assumption]).
    change (String c (String d cur) ++ " ")%string
      with (String c (String d cur ++ " ")%string).
    rewrite trimEnd_cons; rewrite E; [reflexivity | discriminate].
Qed.

Lemma words_from_word (s cur : string) : wordlike cur -> words_from s cur <> [].
Proof.
  revert cur. induction s as [|c r IH]; intros cur Hw; simpl.
  - now rewrite (wordlike_truthy cur Hw).
  - destruct (is_space c) eqn:Hc.
    + now rewrite (wordlike_truthy cur Hw).
    + apply IH. apply wordlike_snoc; [apply Hw | assumption].
Qed.

Lemma join_cons (sep x : string) (l : list string) :
  l <> [] -> join sep (x :: l) = (x ++ sep ++ join sep l)%string.
Proof. destruct l; [congruence | reflexivity]. Qed.

Lemma collapse_from_space (c : ascii) (r : string) (b : bool) :
  is_space c = true ->
  collapse_from (String c r) b
  = if b then collapse_from r true else String " " (collapse_from r true).
Proof. intros H. simpl. now rewrite H. Qed.

Lemma collapse_from_char (c : ascii) (r : string) (b : bool) :
  is_space c = false -> collapse_from (String c r) b = String c (collapse_from r false).
Proof. intros H. simpl. now rewrite H. Qed.

Lemma words_from_space (c : ascii) (r cur : string) :
  is_space c = true ->
  words_from (String c r) cur
  = if truthy cur then cur :: words_from r EmptyString else words_from r EmptyString.
Proof. intros H. simpl. now rewrite H. Qed.

Lemma words_from_char (c : ascii) (r cur : string) :
  is_space c = false ->
  words_from (String c r) cur = words_from r (cur ++ String c EmptyString).
Proof. intros H. simpl. now rewrite H. Qed.

(** The two states of the collapsing scan, after a word piece [cur]. *)
Lemma collapse_words (s : string) :
  (forall cur, wordlike cur ->
     trimEnd (cur ++ collapse_from s false) = join " " (words_from s cur))
  /\ (forall cur, wordlike cur ->
        trimEnd (cur ++ " " ++ collapse_from s true)
        = join " " (cur :: words_from s EmptyString)).
Proof.
  induction s as [|c r [IHa IHb]]; split; intros cur Hw;
    pose proof (wordlike_truthy cur Hw) as Ht.
  - simpl. rewrite sapp_nil_r, Ht. simpl. now apply trimEnd_word.
  - simpl. now apply trimEnd_word_space.
  - destruct (is_space c) eqn:Hc.
    + rewrite collapse_from_space, words_from_space, Ht by assumption.
      apply IHb, Hw.
    + rewrite collapse_from_char, words_from_char by assumption.
      replace (cur ++ String c (collapse_from r false))%string
        with ((cur ++ String c EmptyString) ++ collapse_from r false)%string
        by (now rewrite sapp_assoc).
      apply IHa. apply wordlike_snoc; [apply Hw | assumption].
  - destruct (is_space c) eqn:Hc.
    + rewrite collapse_from_space, words_from_space by assumption.
      apply IHb, Hw.
    + rewrite collapse_from_char, words_from_char by assumption.
      assert (Hw1 : wordlike (String c EmptyString)).
      { split; [discriminate | simpl; auto]. }
      pose proof (IHa _ Hw1) as E.
      change (String c EmptyString ++ collapse_from r false)%string
        with (String c (collapse_from r false)) in E.
      replace (cur ++ " " ++ String c (collapse_from r false))%string
        with ((cur ++ " ") ++ String c (collapse_from r false))%string
        by (now rewrite sapp_assoc).
      rewrite trimEnd_app by (now apply trimEnd_nonspace).
      rewrite E, sapp_assoc.
      rewrite join_cons; [reflexivity|]. now apply words_from_word.
Qed.

Lemma trimStart_collapse (s : string) (b : bool) :
  trimStart (collapse_from s b) = collapse_from (trimStart s) false.
Proof.
  revert b. induction s as [|c r IH]; intros b; simpl; [reflexivity|].
  destruct (is_space c) eqn:Hc.
  - destruct b; simpl; apply IH.
  - simpl. now rewrite Hc.
Qed.

Lemma words_from_trimStart (s : string) :
  words_from s EmptyString = words_from (trimStart s) EmptyString.
Proof.
  induction s as [|c r IH]; simpl; [reflexivity|].
  destruct (is_space c) eqn:Hc; simpl; [assumption | now rewrite Hc].
Qed.

Lemma trimStart_head (s : string) (c : ascii) (r : string) :
  trimStart s = String c r -> is_space c = false.
Proof.
  induction s as [|d s IH]; simpl; [discriminate|].
  destruct (is_space d) eqn:Hd; auto. now intros [= <- _].
Qed.

(** [clean] keeps the words of a text and puts one space between them. *)
Lemma clean_words (text : string) : clean text = join " " (words text).
Proof.
  unfold clean, trim, collapse_spaces.
  rewrite trimStart_collapse, words_words_from, words_from_trimStart.
  destruct (trimStart text) as [|c r] eqn:E; [reflexivity|].
  pose proof (trimStart_head text c r E) as Hc.
  simpl. rewrite Hc.
  assert (Hw : wordlike (String c EmptyString)).
  { split; [discriminate | simpl; auto]. }
  exact (proj1 (collapse_words r) _ Hw).
Qed.

Lemma name_is_true (o : option string) (n : string) :
  name_is o n = true <-> o = Some n.
Proof.
  destruct o as [s|]; simpl; [| split; discriminate].
  rewrite String.eqb_eq. split; congruence.
Qed.

Lemma name_is_false (o : option string) (n : string) :
  name_is o n = false <-> o <> Some n.
Proof.
  rewrite <- name_is_true. destruct (name_is o n); split; congruence.
Qed.

Lemma find_absent {A : Type} (f : A -> bool) (l : list A) :
  (forall x, In x l -> f x = false) -> find f l = None.
Proof.
  induction l as [|x l IH]; simpl; auto.
  intros H. rewrite (H x) by now left. apply IH. intros y Hy. apply H. now right.
Qed.

Lemma find_first {A : Type} (f : A -> bool) (l1 l2 : list A) (x : A) :
  (forall y, In y l1 -> f y = false) -> f x = true ->
  find f (l1 ++ x :: l2) = Some x.
Proof.
  induction l1 as [|y l1 IH]; simpl; intros H Hx.
  - now rewrite Hx.
  - rewrite (H y) by now left. apply IH; auto.
Qed.

Lemma first_hit_skip (en : list FlavorEntry) (before rest : list string) :
  (forall q e, In q before -> In e en -> version e <> Some q) ->
  first_hit en (before ++ rest) = first_hit en rest.
Proof.
  induction before as [|q before IH]; simpl; intros H; auto.
  rewrite find_absent.
  - apply IH. intros q' e Hq. apply H. now right.
  - intros e He. apply name_is_false. apply H; auto.
Qed.

Lemma last_snoc {A : Type} (l : list A) (x : A) :
  nth_error (l ++ [x]) (List.length (l ++ [x]) - 1) = Some x.
Proof.
  rewrite length_app. simpl. replace (List.length l + 1 - 1)%nat with (List.length l) by lia.
  rewrite nth_error_app2 by lia. now rewrite Nat.sub_diag.
Qed.

(** C6: [bestEnglishFlavor] keeps the English candidates; with none it
    returns the empty string; otherwise it returns the cleaned text of the
    first English candidate of the first preferred version that any English
    candidate has, and, when no English candidate has a preferred version,
    the cleaned text of the last English candidate.  Cleaning leaves the
    words of the text with one space between them. *)
Theorem bestEnglishFlavor_selects (species : option Species) :
  let en := english species in
  (en = [] -> bestEnglishFlavor species = EmptyString)
  /\ (forall before p after e1 hit e2,
        preferred = before ++ p :: after ->
        (forall q e, In q before -> In e en -> version e <> Some q) ->
        en = e1 ++ hit :: e2 -> version hit = Some p ->
        (forall e, In e e1 -> version e <> Some p) ->
        bestEnglishFlavor species = clean (flavor_text hit))
  /\ (forall en' e,
        en = en' ++ [e] ->
        (forall q e', In q preferred -> In e' en -> version e' <> Some q) ->
        bestEnglishFlavor species = clean (flavor_text e))
  /\ (forall text, clean text = join " " (words text)).
Proof.
  cbv zeta. unfold bestEnglishFlavor. fold (english species).
  split; [| split; [| split]].
  - now intros ->.
  - intros before p after e1 hit e2 Hpref Hbefore Hen Hhit He1.
    assert (Hgo : first_hit (english species) preferred = Some hit).
    { rewrite Hpref, (first_hit_skip _ before (p :: after) Hbefore). simpl.
      rewrite Hen, find_first; auto.
      - intros y Hy. apply name_is_false. now apply He1.
      - now apply name_is_true. }
    rewrite Hgo, Hen. now destruct e1.
  - intros en' e Hen Hnone.
    assert (Hgo : first_hit (english species) preferred = None).
    { rewrite <- (app_nil_r preferred). now rewrite (first_hit_skip _ preferred [] Hnone). }
    rewrite Hgo, Hen, last_snoc. now destruct en'.
  - apply clean_words.
Qed.

Lemma bestEnglishFlavor_selects_witness :
  (preferred = [] ++ "scarlet" :: List.tl preferred
   /\ english two_versions
      = [entry "A  red   text. " "en" "red"] ++ entry " A scarlet   text. " "en" "scarlet" :: []
   /\ bestEnglishFlavor two_versions = clean " A scarlet   text. "
   /\ clean " A scarlet   text. " = "A scarlet text.")
  /\ (english no_preferred
      = [entry "A red text." "en" "red"] ++ [entry "A  blue text. " "en" "blue"]
      /\ bestEnglishFlavor no_preferred = clean "A  blue text. ").
Proof.
  assert (Hp : preferred = [] ++ "scarlet" :: List.tl preferred) by reflexivity.
  assert (He : english two_versions
               = [entry "A  red   text. " "en" "red"]
                 ++ entry " A scarlet   text. " "en" "scarlet" :: []) by reflexivity.
  assert (Hl : english no_preferred
               = [entry "A red text." "en" "red"] ++ [entry "A  blue text. " "en" "blue"])
    by reflexivity.
  split.
  - split; [exact Hp | split; [exact He | split; [| reflexivity]]].
    refine (proj1 (proj2 (bestEnglishFlavor_selects two_versions))
              [] "scarlet" (List.tl preferred) _ _ [] Hp _ He eq_refl _).
    + intros q e [].
    + intros e [<- | []]. discriminate.
  - split; [exact Hl|].
    refine (proj1 (proj2 (proj2 (bestEnglishFlavor_selects no_preferred))) _ _ Hl _).
    intros q e' Hq He'. simpl in He'.
    destruct He' as [<- | [<- | []]]; simpl in Hq;
      repeat (destruct Hq as [<- | Hq]; [discriminate|]); destruct Hq.
Defined.

(** ** List view *)

Lemma prefix_spec (q s : string) : prefix q s = true <-> exists b, s = (q ++ b)%string.
Proof.
  revert s. induction q as [|c q IH]; intros s.
  - split; [intros _; now exists s | intros _; now destruct s].
  - destruct s as [|d s]; cbn [prefix append].
    + split; [discriminate | intros (b & [=])].
    + destruct (ascii_dec c d) as [E | Hcd].
      * subst d. rewrite IH. split; intros (b & E); exists b; congruence.
      * split; [discriminate | intros (b & [=]); congruence].
Qed.

Lemma includes_spec (s q : string) : includes s q = true <-> contains s q.
Proof.
  unfold contains. split.
  - induction s as [|c s IH]; cbn [includes]; rewrite orb_true_iff.
    + intros [H | H]; [| discriminate]. apply prefix_spec in H as (b & E).
      now exists EmptyString, b.
    + intros [H | H].
      * apply prefix_spec in H as (b & E). now exists EmptyString, b.
      * destruct (IH H) as (a & b & E). exists (String c a), b. simpl. now rewrite E.
  - intros (a & b & ->). induction a as [|c a IH].
    + assert (H : prefix q (q ++ b) = true) by (apply prefix_spec; eauto).
      change (EmptyString ++ q ++ b)%string with (q ++ b)%string.
      destruct (q ++ b)%string; cbn [includes]; rewrite H; reflexivity.
    + change (String c a ++ q ++ b)%string with (String c (a ++ q ++ b)%string).
      cbn [includes]. rewrite IH. apply orb_true_r.
Qed.

Lemma set_has_num (s : list json) (i : Z) :
  set_has sameValueZero s (num i) = true <-> In (num i) s.
Proof.
  unfold set_has. rewrite existsb_exists. split.
  - intros (y & Hy & E). apply same_num_eq in E. now subst.
  - intros H. exists (num i). split; auto. apply same_num_refl.
Qed.

Lemma matches_mode_spec (mode : Mode) (caughtSet : list json) (p : Entry) :
  matches_mode mode caughtSet p = true <-> mode_allows mode caughtSet p.
Proof.
  unfold matches_mode, mode_allows. destruct mode.
  - tauto.
  - rewrite negb_true_iff, <- set_has_num.
    destruct (set_has sameValueZero caughtSet (num (entry_id p))); split; congruence.
  - apply set_has_num.
Qed.

Lemma matches_query_spec (query : string) (p : Entry) :
  matches_query query p = true <-> query_allows query p.
Proof.
  unfold matches_query, query_allows. destruct query as [|c r]; simpl negb; cbv iota.
  - split; auto.
  - rewrite orb_true_iff, !includes_spec. split; [tauto|].
    intros [H | H]; [discriminate | assumption].
Qed.

(** C7, amended: the list view keeps, in their order, the items that pass
    the query and the mode, where the query is trimmed and put in lower case
    before it is looked for in the name as stored and in the decimal index. *)
Theorem filtered_keeps (items : list Entry) (q : string) (mode : Mode)
  (caughtSet : list json) :
  let query := toLowerCase (trim q) in
  filtered items q mode caughtSet
  = filter (fun p => matches_query query p && matches_mode mode caughtSet p) items
  /\ (forall p, matches_query query p && matches_mode mode caughtSet p = true
                <-> query_allows query p /\ mode_allows mode caughtSet p)
  /\ (forall p, In p (filtered items q mode caughtSet)
                <-> In p items /\ query_allows query p /\ mode_allows mode caughtSet p).
Proof.
  cbv zeta. set (query := toLowerCase (trim q)).
  assert (E : filtered items q mode caughtSet
              = filter (fun p => matches_query query p && matches_mode mode caughtSet p) items).
  { unfold filtered. fold query. induction items as [|p items IH]; simpl; auto.
    destruct (matches_query query p); simpl; [| assumption].
    destruct (matches_mode mode caughtSet p); simpl; now rewrite IH. }
  assert (P : forall p, matches_query query p && matches_mode mode caughtSet p = true
                        <-> query_allows query p /\ mode_allows mode caughtSet p).
  { intros p. now rewrite andb_true_iff, matches_query_spec, matches_mode_spec. }
  split; [exact E | split; [exact P|]].
  intros p. rewrite E, filter_In, P. tauto.
Qed.

(** The test of the specification: mode missing, empty query, 3 caught. *)
Example filtered_missing :
  filtered [item 1 "bulbasaur"; item 2 "ivysaur"; item 3 "venusaur"] EmptyString Missing [num 3]
  = [item 1 "bulbasaur"; item 2 "ivysaur"].
Proof. reflexivity. Qed.

(** The code and the filter as C7 words it, side by side: a name with a
    capital is compared as it is stored, and a query of white space counts as
    no query. *)
Example filtered_differs :
  filtered [item 25 "Pikachu"] "pika" All [] = []
  /\ claimed_filter [item 25 "Pikachu"] "pika" All [] = [item 25 "Pikachu"]
  /\ filtered [item 25 "pikachu"] " " All [] = [item 25 "pikachu"]
  /\ claimed_filter [item 25 "pikachu"] " " All [] = [].
Proof. repeat split. Qed.

(** C7 fails: for the query [" "] the code keeps the item named
    ["pikachu"], which neither contains a space nor has one in its index. *)
Lemma filtered_not_claimed :
  ~ (forall items q mode caughtSet,
       filtered items q mode caughtSet = claimed_filter items q mode caughtSet).
Proof.
  intros H. specialize (H [item 25 "pikachu"] " " All []). discriminate H.
Qed.

(** ** Lists updated in place *)

Lemma replace_nth_length {A : Type} (l : list A) (k : nat) (x : A) :
  List.length (replace_nth l k x) = List.length l.
Proof.
  revert k. induction l as [|y l IH]; intros [|k]; simpl; auto.
Qed.

Lemma replace_nth_same {A : Type} (l : list A) (k : nat) (x y : A) :
  nth_error l k = Some y -> nth_error (replace_nth l k x) k = Some x.
Proof.
  revert k. induction l as [|z l IH]; intros [|k]; simpl; try discriminate; auto.
Qed.

Lemma replace_nth_other {A : Type} (l : list A) (k k' : nat) (x : A) :
  k' <> k -> nth_error (replace_nth l k x) k' = nth_error l k'.
Proof.
  revert k k'. induction l as [|z l IH]; intros [|k] [|k'] H; simpl; auto.
  congruence.
Qed.

Lemma replace_nth_lookup {A : Type} (l : list A) (k k' : nat) (x y z : A) :
  nth_error l k = Some y -> nth_error (replace_nth l k x) k' = Some z ->
  (k' = k /\ z = x) \/ (k' <> k /\ nth_error l k' = Some z).
Proof.
  intros Hk H. destruct (Nat.eq_dec k' k) as [-> | Hne].
  - rewrite (replace_nth_same l k x y Hk) in H. left. split; congruence.
  - rewrite replace_nth_other in H by assumption. now right.
Qed.

(** ** [DexSidePanel] *)

Lemma cleanup_last_length (rs : list Run) :
  List.length (cleanup_last rs) = List.length rs.
Proof.
  induction rs as [|r [|r' rs] IH]; simpl in *; auto.
Qed.

Lemma cleanup_last_lookup (rs : list Run) (k : nat) (r' : Run) :
  nth_error (cleanup_last rs) k = Some r' ->
  exists r, nth_error rs k = Some r
            /\ ((S k = List.length rs /\ r' = kill r) \/ (S k <> List.length rs /\ r' = r)).
Proof.
  revert k. induction rs as [|r [|r2 rs] IH]; intros k H.
  - destruct k; discriminate.
  - destruct k as [|k]; simpl in H; [| destruct k; discriminate].
    injection H as <-. exists r. simpl. auto.
  - destruct k as [|k].
    + simpl in H. injection H as <-. exists r. split; [reflexivity|].
      right. split; [simpl; lia | reflexivity].
    + change (nth_error (cleanup_last (r2 :: rs)) k = Some r') in H.
      destruct (IH k H) as (r0 & Hr0 & Hcase). exists r0. split; [exact Hr0|].
      simpl List.length in *. destruct Hcase as [[E ->] | [E ->]]; [left | right];
        split; auto; lia.
Qed.

Lemma panel_inv_mount (id : Z) : panel_inv (mount id).
Proof.
  repeat split; simpl; try discriminate; auto.
  - destruct k as [|[|k]]; simpl in H; try discriminate. now injection H as <-.
  - destruct k as [|[|k]]; simpl in H; try discriminate. reflexivity.
Qed.

Lemma moved_runs (p : Panel) (k : nat) (run : Run) (ph : Phase) :
  nth_error (runs p) k = Some run ->
  (forall k' r, nth_error (runs p) k' = Some r -> alive r = true ->
     run_id r = pokemon_id p /\ S k' = List.length (runs p)) ->
  forall k' r, nth_error (replace_nth (runs p) k (move run ph)) k' = Some r ->
    alive r = true ->
    run_id r = pokemon_id p
    /\ S k' = List.length (replace_nth (runs p) k (move run ph)).
Proof.
  intros Hk Hinv k' r Hr Ha. rewrite replace_nth_length.
  destruct (replace_nth_lookup _ _ _ _ _ _ Hk Hr) as [[-> ->] | [Hne Hr']].
  - apply (Hinv k run Hk Ha).
  - apply (Hinv k' r Hr' Ha).
Qed.

Lemma panel_inv_step (lc : string -> string -> comparison) (p : Panel) (ev : PanelEvent) :
  panel_inv p -> panel_inv (panel_step lc p ev).
Proof.
  intros Hp. pose proof Hp as (Hruns & Hsrc & Henc).
  destruct ev as [id | | k r | k r]; simpl.
  - destruct (Z.eqb_spec id (pokemon_id p)) as [-> | Hid]; [exact Hp|].
    split; [| split]; simpl; try discriminate; [| tauto].
    intros k run Hk Ha. rewrite length_app, cleanup_last_length. simpl.
    destruct (Nat.lt_ge_cases k (List.length (cleanup_last (runs p)))) as [Hlt | Hge].
    + rewrite nth_error_app1 in Hk by assumption.
      destruct (cleanup_last_lookup _ _ _ Hk) as (r0 & Hr0 & [[E ->] | [E ->]]).
      * discriminate Ha.
      * destruct (Hruns k r0 Hr0 Ha) as [_ E']. congruence.
    + rewrite nth_error_app2 in Hk by assumption.
      destruct (k - List.length (cleanup_last (runs p)))%nat as [|[|n]] eqn:Ek;
        simpl in Hk; try discriminate.
      injection Hk as <-. simpl. rewrite cleanup_last_length in *. split; [reflexivity | lia].
  - split; [| split]; simpl; auto.
    intros k run Hk Ha. rewrite cleanup_last_length.
    destruct (cleanup_last_lookup _ _ _ Hk) as (r0 & Hr0 & [[E ->] | [E ->]]).
    + discriminate Ha.
    + apply (Hruns k r0 Hr0 Ha).
  - destruct (nth_error (runs p) k) as [run|] eqn:Hk; [| exact Hp].
    destruct (phase run); try exact Hp.
    unfold species_settled. destruct (alive run) eqn:Ha; simpl.
    + split; [| split]; simpl; auto. now apply moved_runs.
    + split; [| split]; simpl; auto. now apply moved_runs.
  - destruct (nth_error (runs p) k) as [run|] eqn:Hk; [| exact Hp].
    destruct (phase run); try exact Hp.
    unfold encounters_settled. destruct (alive run) eqn:Ha; simpl.
    + destruct (Hruns k run Hk Ha) as [Hid _].
      destruct (enc_value lc r); (split; [| split]); simpl;
        try (now apply moved_runs); try (intros j [= <-]; exact Hid);
        split; discriminate.
    + split; [| split]; simpl; auto. now apply moved_runs.
Qed.

Lemma panel_inv_run (lc : string -> string -> comparison) (evs : list PanelEvent)
  (p : Panel) :
  panel_inv p -> panel_inv (panel_run lc p evs).
Proof.
  revert p. induction evs as [|ev evs IH]; intros p Hp; simpl; auto.
  apply IH. now apply panel_inv_step.
Qed.

(** C2: in every run of the panel the encounter map on display, if any,
    answers a fetch made for the species on display; and when the encounters
    of a run started for another species arrive, the map, its source and the
    selected version stay as they are. *)
Theorem stale_encounters_discarded (localeCompare : string -> string -> comparison)
  (id0 : Z) (evs : list PanelEvent) :
  let p := panel_run localeCompare (mount id0) evs in
  (forall j, enc_source p = Some j -> j = pokemon_id p)
  /\ (enc_source p = None <-> enc p = None)
  /\ (forall k run r,
        nth_error (runs p) k = Some run -> run_id run <> pokemon_id p ->
        let p' := panel_step localeCompare p (EncountersSettled k r) in
        pokemon_id p' = pokemon_id p /\ enc p' = enc p
        /\ enc_source p' = enc_source p /\ selectedVersion p' = selectedVersion p).
Proof.
  cbv zeta.
  destruct (panel_inv_run localeCompare evs (mount id0) (panel_inv_mount id0))
    as (Hruns & Hsrc & Henc).
  split; [exact Hsrc | split; [exact Henc|]].
  intros k run r Hk Hid. simpl. rewrite Hk.
  destruct (phase run); auto.
  unfold encounters_settled. destruct (alive run) eqn:Ha; [| now simpl].
  destruct (Hruns k run Hk Ha) as [E _]. contradiction.
Qed.

Lemma stale_encounters_discarded_witness :
  let p := panel_run String.compare (mount 2) scenario in
  let late := {| run_id := 2; alive := false; phase := AwaitEncounters |} in
  nth_error (runs p) 0 = Some late /\ run_id late <> pokemon_id p /\
  let p' := panel_step String.compare p (EncountersSettled 0 (Return ivysaur_rows)) in
  pokemon_id p' = pokemon_id p /\ enc p' = enc p
  /\ enc_source p' = enc_source p /\ selectedVersion p' = selectedVersion p.
Proof.
  intros p late.
  assert (Hk : nth_error (runs p) 0 = Some late) by reflexivity.
  assert (Hid : run_id late <> pokemon_id p) by (simpl; lia).
  exact (conj Hk (conj Hid
           (proj2 (proj2 (stale_encounters_discarded String.compare 2 scenario))
              0%nat late (Return ivysaur_rows) Hk Hid))).
Defined.

(** The late answer for species 2 arrives after the answer for species 1:
    the map of species 1 stays on display. *)
Example late_answer_after :
  let p := panel_run String.compare (mount 2)
             (scenario ++ [ SpeciesSettled 1 Throw;
                            EncountersSettled 1 (Return (Some [row "route-1" ["blue"]]));
                            EncountersSettled 0 (Return ivysaur_rows) ]) in
  pokemon_id p = 1
  /\ enc p = Some {| versions := ["blue"]; byVersion := [("blue", ["route-1"])] |}
  /\ enc_source p = Some 1.
Proof. repeat split. Qed.

(** [App] unmounts the panel of species 2 and mounts a new one for species
    1: the late answer finds the old panel stopped, and the new panel has its
    own state. *)
Example late_answer_unmounted :
  let old := panel_run String.compare (mount 2)
               [ SpeciesSettled 0 (Return ivysaur_species); Unmount ] in
  panel_step String.compare old (EncountersSettled 0 (Return ivysaur_rows))
  = with_runs old [{| run_id := 2; alive := false; phase := Finished |}]
  /\ enc (panel_step String.compare old (EncountersSettled 0 (Return ivysaur_rows))) = None.
Proof. repeat split. Qed.

(** The late answer arrives first: nothing is displayed until the answer for
    species 1 arrives. *)
Example late_answer_before :
  let p := panel_run String.compare (mount 2)
             (scenario ++ [ EncountersSettled 0 (Return ivysaur_rows) ]) in
  pokemon_id p = 1 /\ enc p = None.
Proof. repeat split. Qed.

(** ** [App]: detail enrichment *)

Lemma stop_last_length (fs : list Fetch) :
  List.length (stop_last fs) = List.length fs.
Proof.
  induction fs as [|f [|f' fs] IH]; simpl in *; auto.
Qed.

Lemma stop_last_lookup (fs : list Fetch) (k : nat) (f' : Fetch) :
  nth_error (stop_last fs) k = Some f' ->
  exists f, nth_error fs k = Some f
            /\ ((S k = List.length fs /\ f' = stop f) \/ (S k <> List.length fs /\ f' = f)).
Proof.
  revert k. induction fs as [|f [|f2 fs] IH]; intros k H.
  - destruct k; discriminate.
  - destruct k as [|k]; simpl in H; [| destruct k; discriminate].
    injection H as <-. exists f. simpl. auto.
  - destruct k as [|k].
    + simpl in H. injection H as <-. exists f. split; [reflexivity|].
      right. split; [simpl; lia | reflexivity].
    + change (nth_error (stop_last (f2 :: fs)) k = Some f') in H.
      destruct (IH k H) as (f0 & Hf0 & Hcase). exists f0. split; [exact Hf0|].
      simpl List.length in *. destruct Hcase as [[E ->] | [E ->]]; [left | right];
        split; auto; lia.
Qed.

Lemma detail_effect_inv (its : list Pokemon) (sel : nat) (fs : list Fetch) :
  (forall k f, nth_error fs k = Some f -> fetch_alive f = true -> S k = List.length fs) ->
  fetches_inv its sel (detail_effect its sel fs).
Proof.
  intros Hlast.
  assert (Hdead : forall k f, nth_error (stop_last fs) k = Some f -> fetch_alive f = false).
  { intros k f Hk. destruct (stop_last_lookup _ _ _ Hk) as (f0 & Hf0 & [[E ->] | [E ->]]).
    - reflexivity.
    - destruct (fetch_alive f0) eqn:Ha; auto. specialize (Hlast k f0 Hf0 Ha). congruence. }
  assert (Hstop : fetches_inv its sel (stop_last fs)).
  { intros k f Hk Ha. rewrite (Hdead k f Hk) in Ha. discriminate. }
  unfold detail_effect. destruct its as [|p its]; [exact Hstop|].
  destruct (nth_error (p :: its) sel) as [cur|] eqn:Hcur; [| exact Hstop].
  destruct (has_types cur); [exact Hstop|].
  intros k f Hk Ha. rewrite length_app. simpl.
  destruct (Nat.lt_ge_cases k (List.length (stop_last fs))) as [Hlt | Hge].
  - rewrite nth_error_app1 in Hk by assumption. rewrite (Hdead k f Hk) in Ha. discriminate.
  - rewrite nth_error_app2 in Hk by assumption.
    destruct (k - List.length (stop_last fs))%nat as [|[|n]] eqn:Ek;
      simpl in Hk; try discriminate.
    injection Hk as <-. simpl. repeat split; auto. lia.
Qed.

Lemma app_inv_initial : app_inv initial.
Proof. intros k f Hk. destruct k; discriminate. Qed.

Lemma settled_last (fs : list Fetch) (k : nat) (f : Fetch) (its : list Pokemon) (sel : nat) :
  nth_error fs k = Some f -> fetches_inv its sel fs ->
  forall k' f', nth_error (replace_nth fs k (settle f)) k' = Some f' ->
    fetch_alive f' = true -> S k' = List.length (replace_nth fs k (settle f)).
Proof.
  intros Hk Hinv k' f' Hk' Ha. rewrite replace_nth_length.
  destruct (replace_nth_lookup _ _ _ _ _ _ Hk Hk') as [[-> ->] | [Hne Hf']].
  - apply (Hinv k f Hk Ha).
  - apply (Hinv k' f' Hf' Ha).
Qed.

Lemma app_inv_step (a : App) (ev : AppEvent) : app_inv a -> app_inv (app_step a ev).
Proof.
  intros Ha. unfold app_inv in *. destruct ev as [r | i | k r]; simpl.
  - destruct (loading a); [| exact Ha]. simpl.
    apply detail_effect_inv. intros k f Hk Hf. apply (Ha k f Hk Hf).
  - destruct (Nat.eqb i (selectedIndex a)); [exact Ha|]. simpl.
    apply detail_effect_inv. intros k f Hk Hf. apply (Ha k f Hk Hf).
  - destruct (nth_error (fetches a) k) as [f|] eqn:Hk; [| exact Ha].
    destruct (fetch_pending f); [| exact Ha].
    assert (Hkeep : fetches_inv (items a) (selectedIndex a)
                      (replace_nth (fetches a) k (settle f))).
    { intros k' f' Hk' Hf'. rewrite replace_nth_length.
      destruct (replace_nth_lookup _ _ _ _ _ _ Hk Hk') as [[-> ->] | [Hne Hf0]].
      - apply (Ha k f Hk Hf').
      - apply (Ha k' f' Hf0 Hf'). }
    destruct r as [detail|]; [| exact Hkeep].
    destruct (fetch_alive f); [| exact Hkeep]. simpl.
    apply detail_effect_inv. now apply settled_last with (its := items a) (sel := selectedIndex a).
Qed.

Lemma app_inv_run (evs : list AppEvent) (a : App) : app_inv a -> app_inv (app_run a evs).
Proof.
  revert a. induction evs as [|ev evs IH]; intros a Ha; simpl; auto.
  apply IH. now apply app_inv_step.
Qed.

(** C9, amended: a detail fetch issued for a record that is no longer the
    selected one has been stopped, and what it brings is dropped: the records
    stay as they are.  What a fetch that is still alive brings is merged into
    the selected record, where it was issued. *)
Theorem stale_detail_dropped (evs : list AppEvent) :
  let a := app_run initial evs in
  (forall k f, nth_error (fetches a) k = Some f ->
     fetch_index f <> selectedIndex a -> fetch_alive f = false)
  /\ (forall k f r, nth_error (fetches a) k = Some f -> fetch_alive f = false ->
        items (app_step a (DetailSettled k r)) = items a)
  /\ (forall k f detail,
        nth_error (fetches a) k = Some f ->
        fetch_pending f = true -> fetch_alive f = true ->
        fetch_index f = selectedIndex a
        /\ nth_error (items a) (selectedIndex a) = Some (fetch_cur f)
        /\ items (app_step a (DetailSettled k (Return detail)))
           = replace_nth (items a) (selectedIndex a) (merge (fetch_cur f) detail)).
Proof.
  cbv zeta. pose proof (app_inv_run evs initial app_inv_initial) as Hinv.
  set (a := app_run initial evs) in *. split; [| split].
  - intros k f Hk Hidx. destruct (fetch_alive f) eqn:Ha; auto.
    destruct (Hinv k f Hk Ha) as (_ & E & _). contradiction.
  - intros k f r Hk Ha. simpl. rewrite Hk, Ha.
    destruct (fetch_pending f); [| reflexivity]. now destruct r.
  - intros k f detail Hk Hp Ha.
    destruct (Hinv k f Hk Ha) as (_ & E & Hcur).
    split; [exact E | split; [exact Hcur|]].
    simpl. rewrite Hk, Hp, Ha. simpl. unfold enrich. rewrite E, Hcur. reflexivity.
Qed.

Lemma stale_detail_dropped_witness :
  let a := app_run initial moved_on in
  nth_error (fetches a) 0 = Some first_fetch
  /\ fetch_index first_fetch <> selectedIndex a
  /\ fetch_alive first_fetch = false
  /\ items (app_step a (DetailSettled 0 (Return grass))) = items a.
Proof.
  intros a.
  assert (Hk : nth_error (fetches a) 0 = Some first_fetch) by reflexivity.
  assert (Hi : fetch_index first_fetch <> selectedIndex a) by (simpl; lia).
  pose proof (stale_detail_dropped moved_on) as (Hdead & Hdrop & _).
  exact (conj Hk (conj Hi (conj (Hdead 0%nat first_fetch Hk Hi)
           (Hdrop 0%nat first_fetch (Return grass) Hk (Hdead 0%nat first_fetch Hk Hi))))).
Defined.

(** The answer that was dropped is asked for again when the user comes back
    to the record, which is still a stub. *)
Example fetched_again :
  map (fun f => (fetch_index f, fetch_alive f))
    (fetches (app_run initial
                (moved_on ++ [DetailSettled 0 (Return grass); Select 0])))
  = [(0%nat, false); (1%nat, false); (0%nat, true)].
Proof. reflexivity. Qed.

(** A fetch that is still alive when it settles enriches the selected
    record. *)
Example detail_applied :
  map types (items (app_run initial
                      [ ListSettled (Return ["bulbasaur"; "ivysaur"; "venusaur"]);
                        DetailSettled 0 (Return grass); Select 1 ]))
  = [Some ["grass"; "poison"]; None; None].
Proof. reflexivity. Qed.

(** C9 fails: the clean-up of the effect cleared [alive], and the function
    returns at [if (!alive) return] before [setItems]. *)
Lemma stale_detail_not_applied : ~ stale_applied.
Proof.
  intros H.
  specialize (H moved_on 0%nat first_fetch grass (fetch_cur first_fetch)
                eq_refl eq_refl ltac:(simpl; lia) eq_refl).
  discriminate H.
Qed.

(** ** The selection *)

Lemma select_index (a : App) (i : nat) :
  selectedIndex (app_step a (Select i)) = i /\ items (app_step a (Select i)) = items a.
Proof.
  cbn [app_step]. destruct (Nat.eqb i (selectedIndex a)) eqn:E.
  - apply Nat.eqb_eq in E. now split.
  - now split.
Qed.

Lemma step_selection_index (a : App) (d : Z) :
  Z.of_nat (selectedIndex (step_selection a d))
  = clamp (Z.of_nat (selectedIndex a) + d) 0 (Z.of_nat (List.length (items a)) - 1)
  /\ items (step_selection a d) = items a.
Proof.
  unfold step_selection, setSelectedIndex.
  destruct (select_index a (Z.to_nat
    (clamp (Z.of_nat (selectedIndex a) + d) 0 (Z.of_nat (List.length (items a)) - 1))))
    as [H1 H2].
  rewrite H1, H2. split; [|reflexivity]. unfold clamp. lia.
Qed.

(** X1.  With a record selected, [Next] selects the following record and
    [Prev] the one before; at the last record [Next] changes nothing and at
    the first [Prev] changes nothing: the selection does not wrap around.
    Neither button changes [items]. *)
Theorem step_selection_moves (a : App) :
  (selectedIndex a < List.length (items a))%nat ->
  selectedIndex (step_selection a 1)
  = (if (S (selectedIndex a) <? List.length (items a))%nat then S (selectedIndex a)
     else selectedIndex a)
  /\ selectedIndex (step_selection a (-1)) = Nat.pred (selectedIndex a)
  /\ items (step_selection a 1) = items a
  /\ items (step_selection a (-1)) = items a.
Proof.
  intros H.
  destruct (step_selection_index a 1) as [H1 H2].
  destruct (step_selection_index a (-1)) as [H3 H4].
  unfold clamp in *.
  split; [|split; [|split; assumption]].
  - destruct (Nat.ltb_spec (S (selectedIndex a)) (List.length (items a))); lia.
  - lia.
Qed.

Lemma step_selection_moves_witness :
  let a := app_step initial (ListSettled (Return ["bulbasaur"; "ivysaur"; "venusaur"])) in
  selectedIndex (step_selection a 1) = 1%nat
  /\ selectedIndex (step_selection (step_selection (step_selection a 1) 1) 1) = 2%nat
  /\ selectedIndex (step_selection a (-1)) = 0%nat.
Proof.
  cbv zeta.
  pose (a := app_step initial (ListSettled (Return ["bulbasaur"; "ivysaur"; "venusaur"]))).
  assert (H0 : (selectedIndex a < List.length (items a))%nat) by (vm_compute; lia).
  assert (H2 : (selectedIndex (step_selection (step_selection a 1) 1)
                < List.length (items (step_selection (step_selection a 1) 1)))%nat)
    by (vm_compute; lia).
  split; [|split].
  - exact (proj1 (step_selection_moves a H0)).
  - exact (proj1 (step_selection_moves _ H2)).
  - exact (proj1 (proj2 (step_selection_moves a H0))).
Defined.

Lemma findIndex_from_spec {A : Type} (f : A -> bool) (l : list A) (i : Z) :
  match find f l with
  | None => findIndex_from f l i = -1
  | Some x =>
      exists k, findIndex_from f l i = i + Z.of_nat k /\ nth_error l k = Some x
  end.
Proof.
  revert i. induction l as [|y l IH]; intros i; simpl.
  - reflexivity.
  - destruct (f y).
    + exists 0%nat. split; [lia | reflexivity].
    + specialize (IH (i + 1)). destruct (find f l) as [x|].
      * destruct IH as (k & E & Hk). exists (S k). split; [lia | exact Hk].
      * exact IH.
Qed.

(** X2.  [jumpToId(id)] changes nothing when no record has the identifier
    [id]; when one has, it shows the view ["dex"] and selects the first
    record with that identifier, leaving the records as they are. *)
Theorem jumpToId_first (r : Root) (id : Z) :
  match find (fun p => poke_id p =? id) (items (app r)) with
  | None => jumpToId r id = r
  | Some p =>
      view (jumpToId r id) = DexView
      /\ items (app (jumpToId r id)) = items (app r)
      /\ selected (app (jumpToId r id)) = Some p
      /\ poke_id p = id
  end.
Proof.
  unfold jumpToId, findIndex.
  pose proof (findIndex_from_spec (fun p => poke_id p =? id) (items (app r)) 0) as H.
  destruct (find (fun p => poke_id p =? id) (items (app r))) as [p|] eqn:Hf.
  - destruct H as (k & E & Hk). rewrite E.
    destruct (0 + Z.of_nat k >=? 0) eqn:Hge; [| lia].
    cbn [app view]. unfold setSelectedIndex, selected.
    destruct (select_index (app r) (Z.to_nat (0 + Z.of_nat k))) as [H1 H2].
    rewrite H1, H2. replace (Z.to_nat (0 + Z.of_nat k)) with k by lia.
    repeat split; auto.
    apply find_some in Hf. destruct Hf as [_ Hf]. now apply Z.eqb_eq in Hf.
  - rewrite H. reflexivity.
Qed.

Lemma enrich_length (prev : list Pokemon) (idx : nat) (f : Full) :
  List.length (enrich prev idx f) = List.length prev.
Proof.
  unfold enrich. destruct (nth_error prev idx); [apply replace_nth_length | reflexivity].
Qed.

Lemma app_step_length (a : App) (k : nat) (r : result Full) :
  List.length (items (app_step a (DetailSettled k r))) = List.length (items a)
  /\ selectedIndex (app_step a (DetailSettled k r)) = selectedIndex a
  /\ loading (app_step a (DetailSettled k r)) = loading a.
Proof.
  cbn [app_step]. destruct (nth_error (fetches a) k) as [f|]; [| auto].
  destruct (fetch_pending f); [| auto].
  destruct r as [d|]; [| auto].
  destruct (fetch_alive f); cbn [items selectedIndex loading]; auto using enrich_length.
Qed.

Lemma selection_inv_step (r : Root) (x : Action) :
  selection_inv (app r) -> selection_inv (app (act r x)).
Proof.
  intros Hinv. pose proof Hinv as (Hload & Hsel). unfold selection_inv.
  assert (Hset : forall i : nat,
             (i < List.length (items (app r)))%nat \/ (i = 0%nat /\ items (app r) = []) ->
             (loading (app_step (app r) (Select i)) = true ->
              items (app_step (app r) (Select i)) = [])
             /\ (selectedIndex (app_step (app r) (Select i))
                 < Nat.max 1 (List.length (items (app_step (app r) (Select i)))))%nat).
  { intros i Hi. destruct (select_index (app r) i) as [H1 H2]. rewrite H1, H2.
    split.
    - cbn [app_step]. destruct (Nat.eqb i (selectedIndex (app r))); auto.
    - destruct Hi as [Hi | [-> E]]; [lia | rewrite E; simpl; lia]. }
  destruct x as [ | | idx | id | v | res | k res]; cbn [act].
  - cbn [with_app app]. unfold step_selection, setSelectedIndex. apply Hset.
    unfold clamp. destruct (items (app r)) eqn:E; simpl List.length in *; [right | left].
    + split; [lia | reflexivity].
    + lia.
  - cbn [with_app app]. unfold step_selection, setSelectedIndex. apply Hset.
    unfold clamp. destruct (items (app r)) eqn:E; simpl List.length in *; [right | left].
    + split; [lia | reflexivity].
    + lia.
  - destruct (loading (app r)) eqn:El; [exact Hinv|].
    destruct (Nat.ltb_spec idx (List.length (items (app r)))); [| exact Hinv].
    cbn [with_app app]. unfold setSelectedIndex. rewrite Nat2Z.id. apply Hset. now left.
  - unfold jumpToId, findIndex.
    pose proof (findIndex_from_spec (fun p => poke_id p =? id) (items (app r)) 0) as H.
    destruct (find (fun p => poke_id p =? id) (items (app r))) as [p|].
    + destruct H as (k & E & Hk). rewrite E.
      destruct (0 + Z.of_nat k >=? 0); [| exact Hinv]. cbn [app].
      unfold setSelectedIndex. apply Hset. left.
      replace (Z.to_nat (0 + Z.of_nat k)) with k by lia.
      apply nth_error_Some. congruence.
    + rewrite H. exact Hinv.
  - exact Hinv.
  - cbn [with_app app app_step]. destruct (loading (app r)) eqn:El; [| exact Hinv].
    cbn [loading items selectedIndex]. split; [discriminate|].
    destruct res as [names|].
    + destruct names; simpl; lia.
    + rewrite (Hload eq_refl) in Hsel. simpl in *. lia.
  - cbn [with_app app]. destruct (app_step_length (app r) k res) as (H1 & H2 & H3).
    rewrite H1, H2, H3. split; [| exact Hsel].
    intros Hl. specialize (Hload Hl). rewrite Hload in H1.
    destruct (items (app_step (app r) (DetailSettled k res))); [reflexivity | discriminate].
Qed.

Lemma selection_inv_session (xs : list Action) (r : Root) :
  selection_inv (app r) -> selection_inv (app (fold_left act xs r)).
Proof.
  revert r. induction xs as [|x xs IH]; intros r H; simpl; auto.
  apply IH. now apply selection_inv_step.
Qed.

(** X3.  Whatever the user clicks and whatever the requests answer, the
    selected position is [0] while there are no records, and is the position
    of a record as soon as there are records: [selected] is then defined. *)
Theorem selection_in_range (xs : list Action) :
  let a := app (session xs) in
  (items a = [] -> selectedIndex a = 0%nat /\ selected a = None)
  /\ (items a <> [] ->
      (selectedIndex a < List.length (items a))%nat /\ exists p, selected a = Some p).
Proof.
  cbv zeta. unfold session.
  assert (H0 : selection_inv (app root0)) by (split; [reflexivity | simpl; lia]).
  pose proof (selection_inv_session xs root0 H0) as (_ & H).
  set (a := app (fold_left act xs root0)) in *. unfold selected. split.
  - intros E. rewrite E in *. simpl in H. split; [lia|]. now destruct (selectedIndex a).
  - intros E. assert (Hlt : (selectedIndex a < List.length (items a))%nat).
    { destruct (items a); [congruence | simpl in *; lia]. }
    split; [exact Hlt|].
    destruct (nth_error (items a) (selectedIndex a)) as [p|] eqn:Hn; [now exists p|].
    apply nth_error_None in Hn. lia.
Qed.

(** ** The records and their identifiers *)

Lemma stubs_from_nth (names : list string) (i : nat) (k : nat) :
  nth_error (stubs_from (Z.of_nat i + 1) names) k
  = option_map (stub (i + k)) (nth_error names k).
Proof.
  revert i k. induction names as [|n names IH]; intros i k.
  - now destruct k.
  - destruct k as [|k]; simpl.
    + unfold stub. now rewrite Nat.add_0_r.
    + replace (Z.of_nat i + 1 + 1) with (Z.of_nat (S i) + 1) by lia.
      rewrite IH. now replace (S i + k)%nat with (i + S k)%nat by lia.
Qed.

(** X4.  When the list request answers, the record at position [k] is named
    after the [k]-th result and is given the identifier [k + 1], with no
    detail yet; the first position is selected, and the detail of the first
    record, when there is one, is requested.  When the request fails, no
    record is held and nothing is requested. *)
Theorem list_settled (r : result (list string)) :
  let a := app_step initial (ListSettled r) in
  loading a = false
  /\ match r with
     | Return names =>
         (forall k, nth_error (items a) k = option_map (stub k) (nth_error names k))
         /\ selectedIndex a = 0%nat
         /\ fetches a = match names with
                        | [] => []
                        | n :: _ => [{| fetch_index := 0; fetch_cur := stub 0 n;
                                        fetch_alive := true; fetch_pending := true |}]
                        end
     | Throw => items a = [] /\ fetches a = []
     end.
Proof.
  cbv zeta. split; [reflexivity|]. destruct r as [names|].
  - split; [| split].
    + intros k. cbn [app_step initial loading items]. apply (stubs_from_nth names 0 k).
    + reflexivity.
    + destruct names; reflexivity.
  - split; reflexivity.
Qed.

Lemma stop_last_Forall (P : Fetch -> Prop) (fs : list Fetch) :
  (forall f, P f -> P (stop f)) -> Forall P fs -> Forall P (stop_last fs).
Proof.
  intros Hs. induction fs as [|f [|f' fs] IH]; intros H.
  - constructor.
  - inversion H; subst. constructor; auto.
  - inversion H; subst. change (Forall P (f :: stop_last (f' :: fs))). constructor; auto.
Qed.

Lemma replace_nth_Forall {A : Type} (P : A -> Prop) (l : list A) (k : nat) (x : A) :
  P x -> Forall P l -> Forall P (replace_nth l k x).
Proof.
  intros Hx. revert k. induction l as [|y l IH]; intros k H; [constructor|].
  inversion H; subst. destruct k; simpl; constructor; auto.
Qed.

Lemma detail_effect_Forall (P : Fetch -> Prop) (its : list Pokemon) (sel : nat)
  (fs : list Fetch) :
  (forall f, P f -> P (stop f)) ->
  (forall cur, nth_error its sel = Some cur -> has_types cur = false ->
     P {| fetch_index := sel; fetch_cur := cur; fetch_alive := true;
          fetch_pending := true |}) ->
  Forall P fs -> Forall P (detail_effect its sel fs).
Proof.
  intros Hs Hnew H. pose proof (stop_last_Forall P fs Hs H) as H'.
  unfold detail_effect. destruct its as [|p its]; [exact H'|].
  destruct (nth_error (p :: its) sel) as [cur|] eqn:Hc; [| exact H'].
  destruct (has_types cur) eqn:Ht; [exact H'|].
  apply Forall_app. split; [exact H'|]. constructor; [| constructor]. now apply Hnew.
Qed.

Lemma enrich_lookup (prev : list Pokemon) (idx k : nat) (d : Full) (p : Pokemon) :
  nth_error (enrich prev idx d) k = Some p ->
  (k = idx /\ exists s, nth_error prev idx = Some s /\ p = merge s d)
  \/ (nth_error prev k = Some p).
Proof.
  unfold enrich. destruct (nth_error prev idx) as [s|] eqn:Hs; [| auto].
  intros H. destruct (replace_nth_lookup _ _ _ _ _ _ Hs H) as [[-> ->] | [Hne Hp]].
  - left. split; [reflexivity|]. now exists s.
  - now right.
Qed.

Lemma ids_inv_step (r : Root) (x : Action) :
  match x with
  | Detailed k (Return d) =>
      forall f, nth_error (fetches (app r)) k = Some f ->
                full_id d = Some (poke_id (fetch_cur f))
  | _ => True
  end ->
  ids_inv (app r) -> ids_inv (app (act r x)).
Proof.
  intros Hx Hinv. pose proof Hinv as (Hid & Hfs).
  set (P := fun f => poke_id (fetch_cur f) = Z.of_nat (fetch_index f) + 1) in *.
  assert (Hstop : forall f, P f -> P (stop f)) by (intros f Hf; exact Hf).
  assert (Hset : forall i, ids_inv (app_step (app r) (Select i))).
  { intros i. cbn [app_step]. destruct (Nat.eqb i (selectedIndex (app r))); [exact Hinv|].
    split; cbn [items fetches]; [exact Hid|].
    apply detail_effect_Forall; [exact Hstop | | exact Hfs].
    intros cur Hc _. apply (Hid _ _ Hc). }
  destruct x as [ | | idx | id | v | res | k res]; cbn [act].
  - apply Hset.
  - apply Hset.
  - destruct (loading (app r)); [exact Hinv|].
    destruct (idx <? List.length (items (app r)))%nat; [apply Hset | exact Hinv].
  - unfold jumpToId. destruct (findIndex _ _ >=? 0); [apply Hset | exact Hinv].
  - exact Hinv.
  - cbn [with_app app app_step]. destruct (loading (app r)); [| exact Hinv].
    assert (Hits : forall k p,
               nth_error (match res with Return names => stubs_from 1 names | Throw => [] end) k
               = Some p -> poke_id p = Z.of_nat k + 1).
    { intros k p. destruct res as [names|]; [| now destruct k].
      change 1 with (Z.of_nat 0 + 1).
      rewrite (stubs_from_nth names 0 k). destruct (nth_error names k); [| discriminate].
      simpl. intros [= <-]. reflexivity. }
    split; cbn [items fetches]; [exact Hits|].
    apply detail_effect_Forall; [exact Hstop | | exact Hfs].
    intros cur Hc _. apply (Hits _ _ Hc).
  - cbn [with_app app app_step].
    destruct (nth_error (fetches (app r)) k) as [f|] eqn:Hk; [| exact Hinv].
    destruct (fetch_pending f); [| exact Hinv].
    assert (Hf : P f).
    { rewrite Forall_forall in Hfs. apply Hfs. eapply nth_error_In; eassumption. }
    assert (Hrep : Forall P (replace_nth (fetches (app r)) k (settle f))).
    { apply replace_nth_Forall; [exact Hf | exact Hfs]. }
    destruct res as [d|]; [| split; [exact Hid | exact Hrep]].
    destruct (fetch_alive f) eqn:Ha; [| split; [exact Hid | exact Hrep]].
    assert (Hits : forall j p, nth_error (enrich (items (app r)) (fetch_index f) d) j = Some p ->
                               poke_id p = Z.of_nat j + 1).
    { intros j p Hj. destruct (enrich_lookup _ _ _ _ _ Hj) as [[-> (s & Hs & ->)] | Hold].
      - simpl. rewrite (Hx f eq_refl). simpl. exact Hf.
      - apply (Hid _ _ Hold). }
    split; cbn [items fetches]; [exact Hits|].
    apply detail_effect_Forall; [exact Hstop | | exact Hrep].
    intros cur Hc _. apply (Hits _ _ Hc).
Qed.

Lemma ids_inv_session (xs : list Action) (r : Root) :
  faithful r xs -> ids_inv (app r) -> ids_inv (app (fold_left act xs r)).
Proof.
  revert r. induction xs as [|x xs IH]; intros r Hf H; [exact H|].
  destruct Hf as [Hx Hrest]. simpl. apply IH; [exact Hrest|].
  now apply ids_inv_step.
Qed.

Lemma jump_index (r : Root) (id : Z) (k : nat) :
  findIndex (fun q => poke_id q =? id) (items (app r)) = Z.of_nat k ->
  view (jumpToId r id) = DexView /\ selectedIndex (app (jumpToId r id)) = k.
Proof.
  intros E. unfold jumpToId. rewrite E.
  destruct (Z.of_nat k >=? 0) eqn:Hge; [| lia]. cbn [app view]. split; [reflexivity|].
  unfold setSelectedIndex. rewrite Nat2Z.id. apply select_index.
Qed.

(** X5.  As long as each detail answer carries the identifier it was asked
    for, the record at position [k] has the identifier [k + 1] throughout a
    session; so [jumpToId(k + 1)] selects position [k] and shows the view
    ["dex"], and [jumpToId] of a number that is not the identifier of a
    position changes nothing. *)
Theorem ids_are_positions (xs : list Action) :
  faithful root0 xs ->
  let r := session xs in
  (forall k p, nth_error (items (app r)) k = Some p -> poke_id p = Z.of_nat k + 1)
  /\ (forall k, (k < List.length (items (app r)))%nat ->
        view (jumpToId r (Z.of_nat k + 1)) = DexView
        /\ selectedIndex (app (jumpToId r (Z.of_nat k + 1))) = k)
  /\ (forall id, id <= 0 \/ Z.of_nat (List.length (items (app r))) < id ->
        jumpToId r id = r).
Proof.
  intros Hf. cbv zeta. unfold session.
  assert (H0 : ids_inv (app root0)).
  { split; [intros k p Hk; now destruct k | constructor]. }
  pose proof (ids_inv_session xs root0 Hf H0) as (Hid & _).
  set (r := fold_left act xs root0) in *. split; [exact Hid | split].
  - intros k Hk.
    pose proof (findIndex_from_spec (fun q => poke_id q =? Z.of_nat k + 1) (items (app r)) 0)
      as H.
    destruct (find (fun q => poke_id q =? Z.of_nat k + 1) (items (app r))) as [p|] eqn:Hfind.
    + destruct H as (j & E & Hj).
      apply find_some in Hfind. destruct Hfind as [_ Hp]. apply Z.eqb_eq in Hp.
      pose proof (Hid _ _ Hj) as Hpj. assert (j = k) by lia. subst j.
      apply (jump_index r _ k). unfold findIndex. rewrite E. lia.
    + destruct (nth_error (items (app r)) k) as [p|] eqn:Hp.
      * pose proof (find_none _ _ Hfind p (nth_error_In _ _ Hp)) as Hn. simpl in Hn.
        rewrite (Hid _ _ Hp), Z.eqb_refl in Hn. discriminate.
      * apply nth_error_None in Hp. lia.
  - intros id Hout. unfold jumpToId, findIndex.
    pose proof (findIndex_from_spec (fun q => poke_id q =? id) (items (app r)) 0) as H.
    destruct (find (fun q => poke_id q =? id) (items (app r))) as [p|] eqn:Hfind.
    + destruct H as (j & E & Hj).
      apply find_some in Hfind. destruct Hfind as [_ Hp]. apply Z.eqb_eq in Hp.
      pose proof (Hid _ _ Hj) as Hpj.
      assert (j < List.length (items (app r)))%nat by (apply nth_error_Some; congruence).
      lia.
    + rewrite H. reflexivity.
Qed.

Lemma ids_are_positions_witness :
  let r := session [Listed (Return ["bulbasaur"; "ivysaur"; "venusaur"]);
                    Detailed 0 (Return bulbasaur_answer); Next; SetView ListingView] in
  view (jumpToId r 3) = DexView /\ selectedIndex (app (jumpToId r 3)) = 2%nat.
Proof.
  cbv zeta.
  assert (Hf : faithful root0
                 [Listed (Return ["bulbasaur"; "ivysaur"; "venusaur"]);
                  Detailed 0 (Return bulbasaur_answer); Next; SetView ListingView]).
  { simpl. repeat split. intros f [= <-]. reflexivity. }
  destruct (ids_are_positions _ Hf) as (_ & H & _).
  apply (H 2%nat). vm_compute. lia.
Defined.

(** ** Detail requests *)

Lemma untyped_step (a : App) (ev : AppEvent) :
  Forall (fun f => has_types (fetch_cur f) = false) (fetches a) ->
  Forall (fun f => has_types (fetch_cur f) = false) (fetches (app_step a ev)).
Proof.
  intros H. set (P := fun f => has_types (fetch_cur f) = false) in *.
  assert (Hstop : forall f, P f -> P (stop f)) by (intros f Hf; exact Hf).
  assert (Heff : forall its sel fs, Forall P fs -> Forall P (detail_effect its sel fs)).
  { intros its sel fs Hfs. apply detail_effect_Forall; [exact Hstop | | exact Hfs].
    intros cur _ Ht. exact Ht. }
  destruct ev as [r | i | k r]; cbn [app_step].
  - destruct (loading a); [| exact H]. apply Heff, H.
  - destruct (Nat.eqb i (selectedIndex a)); [exact H|]. apply Heff, H.
  - destruct (nth_error (fetches a) k) as [f|] eqn:Hk; [| exact H].
    destruct (fetch_pending f); [| exact H].
    assert (Hrep : Forall P (replace_nth (fetches a) k (settle f))).
    { apply replace_nth_Forall; [| exact H].
      rewrite Forall_forall in H. apply (H f). eapply nth_error_In; eassumption. }
    destruct r as [d|]; [| exact Hrep].
    destruct (fetch_alive f); [| exact Hrep]. apply Heff, Hrep.
Qed.

Lemma untyped_run (evs : list AppEvent) (a : App) :
  Forall (fun f => has_types (fetch_cur f) = false) (fetches a) ->
  Forall (fun f => has_types (fetch_cur f) = false) (fetches (app_run a evs)).
Proof.
  revert a. induction evs as [|ev evs IH]; intros a H; [exact H|].
  simpl. apply IH. now apply untyped_step.
Qed.

Lemma stop_last_dead (fs : list Fetch) :
  (forall k f, nth_error fs k = Some f -> fetch_alive f = true -> S k = List.length fs) ->
  Forall (fun f => fetch_alive f = false) (stop_last fs).
Proof.
  intros Hlast. apply Forall_forall. intros f Hin.
  destruct (In_nth_error _ _ Hin) as (k & Hk).
  destruct (stop_last_lookup _ _ _ Hk) as (f0 & Hf0 & [[E ->] | [E ->]]).
  - reflexivity.
  - destruct (fetch_alive f0) eqn:Ha; auto. specialize (Hlast k f0 Hf0 Ha). congruence.
Qed.

(** X6.  When the answer of the detail request in force arrives: if it
    brings types, the selected record holds them afterwards and no request
    is left in force; if it brings none, the record still has no types and
    the same record is requested again. *)
Theorem detail_answer_settles (evs : list AppEvent) (k : nat) (f : Fetch) (d : Full) :
  let a := app_run initial evs in
  let a' := app_step a (DetailSettled k (Return d)) in
  nth_error (fetches a) k = Some f ->
  fetch_pending f = true -> fetch_alive f = true ->
  selectedIndex a' = selectedIndex a
  /\ nth_error (items a') (selectedIndex a) = Some (merge (fetch_cur f) d)
  /\ match full_types d with
     | Some ts =>
         types (merge (fetch_cur f) d) = Some ts
         /\ Forall (fun g => fetch_alive g = false) (fetches a')
     | None =>
         types (merge (fetch_cur f) d) = None
         /\ exists fs, fetches a'
                       = fs ++ [{| fetch_index := selectedIndex a;
                                   fetch_cur := merge (fetch_cur f) d;
                                   fetch_alive := true; fetch_pending := true |}]
     end.
Proof.
  cbv zeta. intros Hk Hp Ha.
  pose proof (app_inv_run evs initial app_inv_initial) as Hinv.
  assert (Hun : Forall (fun f => has_types (fetch_cur f) = false)
                  (fetches (app_run initial evs))).
  { apply untyped_run. constructor. }
  set (a := app_run initial evs) in *.
  destruct (Hinv k f Hk Ha) as (Hlast & Hidx & Hcur).
  assert (Hf : has_types (fetch_cur f) = false).
  { rewrite Forall_forall in Hun. apply (Hun f). eapply nth_error_In; eassumption. }
  assert (Hlook : nth_error (enrich (items a) (fetch_index f) d) (selectedIndex a)
                  = Some (merge (fetch_cur f) d)).
  { unfold enrich. rewrite Hidx, Hcur. now apply replace_nth_same with (y := fetch_cur f). }
  cbn [app_step]. rewrite Hk, Hp, Ha. cbn [items selectedIndex fetches].
  split; [reflexivity | split; [exact Hlook|]].
  unfold detail_effect.
  destruct (enrich (items a) (fetch_index f) d) as [|p its] eqn:Hen;
    [destruct (selectedIndex a); discriminate|].
  rewrite Hlook. unfold has_types at 1 2. cbn [merge types].
  unfold has_types in Hf. destruct (types (fetch_cur f)); [discriminate|].
  destruct (full_types d) as [ts|]; cbn [override_opt].
  - split; [reflexivity|]. apply stop_last_dead.
    now apply settled_last with (its := items a) (sel := selectedIndex a).
  - split; [reflexivity|]. eexists. reflexivity.
Qed.

Lemma detail_answer_settles_witness :
  let a := app_run initial [ListSettled (Return ["bulbasaur"; "ivysaur"])] in
  nth_error (items (app_step a (DetailSettled 0 (Return bulbasaur_answer)))) 0
  = Some (merge (stub 0 "bulbasaur") bulbasaur_answer)
  /\ Forall (fun g => fetch_alive g = false)
       (fetches (app_step a (DetailSettled 0 (Return bulbasaur_answer)))).
Proof.
  cbv zeta.
  pose proof (detail_answer_settles [ListSettled (Return ["bulbasaur"; "ivysaur"])] 0
                {| fetch_index := 0; fetch_cur := stub 0 "bulbasaur";
                   fetch_alive := true; fetch_pending := true |}
                bulbasaur_answer eq_refl eq_refl eq_refl) as (_ & H1 & _ & H2).
  split; [exact H1 | exact H2].
Defined.

(** ** More on the encounter normalizer *)

Lemma present_truthy (o : option string) (s : string) :
  present o = Some s -> truthy s = true.
Proof.
  destruct o as [t|]; simpl; [| discriminate].
  destruct (truthy t) eqn:E; [| discriminate]. now intros [= <-].
Qed.

Lemma pairs_present (rows : list EncounterRow) (v l : string) :
  In (v, l) (pairs rows) -> truthy v = true /\ truthy l = true.
Proof.
  unfold pairs. rewrite in_flat_map. intros (rw & _ & H). unfold row_pairs in H.
  destruct (present (location_area rw)) as [l0|] eqn:El; [| contradiction].
  rewrite in_flat_map in H. destruct H as (vd & _ & H).
  destruct (present vd) as [v0|] eqn:Ev; [| contradiction].
  destruct H as [[= <- <-] | []].
  split; eapply present_truthy; eassumption.
Qed.

Lemma truthy_nonempty (s : string) : truthy s = true -> s <> EmptyString.
Proof. now destruct s. Qed.

Lemma normalize_listed (lc : string -> string -> comparison)
  (raw : option (list EncounterRow)) (m : EncounterMap) :
  normalizeEncounterData lc raw = Return m ->
  (forall v, In v (versions m) <-> exists l, In (v, l) (pairs (or_empty raw)))
  /\ (forall v, In v (versions m) ->
        exists ls, obj_own (byVersion m) v = Some ls
                   /\ forall l, In l ls <-> In (v, l) (pairs (or_empty raw))).
Proof.
  intros E. destruct (throwing (pairs (or_empty raw))) eqn:Ht.
  - rewrite (normalize_throws lc raw Ht) in E. discriminate.
  - destruct (normalize_returns lc raw Ht) as (o & Eo & Hgood & Hkeys & Hloc).
    rewrite Eo in E. injection E as <-.
    assert (Hv : forall v, In v (versions (result_of lc o)) <-> In v (keys o)).
    { intros v. split; apply Permutation_in;
        [apply versions_perm | symmetry; apply versions_perm]. }
    split.
    + intros v. rewrite Hv. apply Hkeys.
    + intros v Hin. rewrite Hv in Hin. rewrite (result_own lc o v).
      destruct (in_dec string_dec v (keys o)) as [_ | Hn]; [| contradiction].
      eexists. split; [reflexivity|]. intros l. rewrite <- Hloc.
      split; apply Permutation_in;
        [apply default_sort_perm | symmetry; apply default_sort_perm].
Qed.

(** X7.  In what [normalizeEncounterData] returns, every listed version has
    a name that is not empty and is not inherited from [Object.prototype],
    and has a list of its own with at least one location and without an
    empty name. *)
Theorem normalize_never_empty (localeCompare : string -> string -> comparison)
  (encArr : option (list EncounterRow)) (m : EncounterMap) (v : string) :
  normalizeEncounterData localeCompare encArr = Return m ->
  In v (versions m) ->
  v <> EmptyString /\ inherited v = false
  /\ exists ls, obj_get (byVersion m) v = Own ls /\ ls <> []
                /\ forall l, In l ls -> l <> EmptyString.
Proof.
  intros E Hin. destruct (normalize_listed localeCompare encArr m E) as (Hv & Hl).
  destruct (proj1 (Hv v) Hin) as (l0 & Hl0).
  destruct (Hl v Hin) as (ls & Hown & Hls).
  split; [| split].
  - apply truthy_nonempty. apply (pairs_present _ _ _ Hl0).
  - destruct (throwing (pairs (or_empty encArr))) eqn:Ht.
    + rewrite (normalize_throws localeCompare encArr Ht) in E. discriminate.
    + rewrite throwing_false in Ht. apply (Ht v l0 Hl0).
  - exists ls. split; [| split].
    + unfold obj_get. now rewrite Hown.
    + intros ->. apply (proj2 (Hls l0) Hl0).
    + intros l Hl1. apply truthy_nonempty. apply Hls in Hl1.
      apply (pairs_present _ _ _ Hl1).
Qed.

Lemma normalize_never_empty_witness :
  "red" <> EmptyString /\ inherited "red" = false
  /\ exists ls, obj_get [("blue", ["route-2"]); ("red", ["route-1"; "route-2"])] "red" = Own ls
                /\ ls <> [] /\ forall l, In l ls -> l <> EmptyString.
Proof.
  apply (normalize_never_empty String.compare (Some sample_rows)
           {| versions := ["blue"; "red"];
              byVersion := [("blue", ["route-2"]); ("red", ["route-1"; "route-2"])] |}
           "red").
  - vm_compute. reflexivity.
  - simpl. auto.
Defined.

(** X8.  [normalizeEncounterData] returns the map without versions exactly
    when no row gives a pair of a version and a location, each with a name
    that is not empty: so for [undefined], for an empty array and for rows
    that lack the names. *)
Theorem normalize_nothing (localeCompare : string -> string -> comparison)
  (encArr : option (list EncounterRow)) :
  normalizeEncounterData localeCompare encArr = Return empty_map
  <-> pairs (or_empty encArr) = [].
Proof.
  split.
  - intros E. destruct (normalize_listed localeCompare encArr empty_map E) as (Hv & _).
    destruct (pairs (or_empty encArr)) as [|[v l] ps]; [reflexivity|].
    exfalso. apply (proj2 (Hv v)). exists l. now left.
  - intros E. unfold normalizeEncounterData. rewrite add_rows_pairs, E. reflexivity.
Qed.

(** ** [DexSidePanel]: what is on display *)

Lemma cleanup_last_dead (rs : list Run) (k : nat) (run : Run) :
  (forall j r, nth_error rs j = Some r -> alive r = true -> S j = List.length rs) ->
  nth_error (cleanup_last rs) k = Some run -> alive run = false.
Proof.
  intros Hlast Hk.
  destruct (cleanup_last_lookup _ _ _ Hk) as (r0 & Hr0 & [[E ->] | [E ->]]).
  - reflexivity.
  - destruct (alive r0) eqn:Ha; auto. specialize (Hlast k r0 Hr0 Ha). congruence.
Qed.

Lemma panel_inv_act (lc : string -> string -> comparison) (p : Panel) (x : PanelAction) :
  panel_inv p -> panel_inv (panel_act lc p x).
Proof.
  intros H. destruct x as [ev | v]; cbn [panel_act].
  - now apply panel_inv_step.
  - unfold choose_version. destruct (enc p) as [m|] eqn:Em; [| exact H].
    destruct (existsb (String.eqb v) (versions m)); [| exact H].
    unfold panel_inv in *. cbn [runs pokemon_id enc_source enc]. rewrite Em in H. exact H.
Qed.

Lemma first_version_in (m : EncounterMap) (v : string) :
  first_version m = Some v -> In v (versions m).
Proof.
  unfold first_version. destruct (versions m) as [|w ws]; [discriminate|].
  destruct (truthy w); [| discriminate]. intros [= <-]. now left.
Qed.

Lemma display_inv_act (lc : string -> string -> comparison) (p : Panel) (x : PanelAction) :
  panel_inv p -> display_inv lc p -> display_inv lc (panel_act lc p x).
Proof.
  intros (Hlast & _ & _) Hd. pose proof Hd as (D1 & D2 & D3).
  assert (Hone : forall k k' r r', nth_error (runs p) k = Some r -> alive r = true ->
                   nth_error (runs p) k' = Some r' -> alive r' = true -> k' = k).
  { intros k k' r r' Hk Ha Hk' Ha'.
    destruct (Hlast k r Hk Ha) as [_ E]. destruct (Hlast k' r' Hk' Ha') as [_ E']. lia. }
  destruct x as [[id | | k r | k r] | v]; cbn [panel_act panel_step].
  - (* Render *)
    destruct (id =? pokemon_id p); [exact Hd|].
    split; [| split]; cbn [runs enc selectedVersion species error].
    + intros; repeat split; reflexivity.
    + intros m [=].
    + intros v [=].
  - (* Unmount *)
    split; [| split]; cbn [with_runs runs enc selectedVersion species error]; auto.
    intros k run Hk Ha. exfalso.
    assert (Hdead : alive run = false).
    { apply (cleanup_last_dead (runs p) k run); [| exact Hk].
      intros j r0 Hj Hr0. apply (Hlast j r0 Hj Hr0). }
    congruence.
  - (* SpeciesSettled *)
    destruct (nth_error (runs p) k) as [run|] eqn:Hk; [| exact Hd].
    destruct (phase run) eqn:Hph; try exact Hd.
    unfold species_settled. destruct (alive run) eqn:Ha.
    + assert (Hrun : enc p = None /\ selectedVersion p = None).
      { destruct (D1 k run Hk Ha) as (E1 & E2 & _); [congruence | now split]. }
      split; [| split]; cbn [runs enc selectedVersion species error]; auto.
      intros k' run' Hk' Ha' Hph'.
      split; [apply Hrun | split; [apply Hrun|]].
      destruct (replace_nth_lookup _ _ _ _ _ _ Hk Hk') as [[-> ->] | [Hne Hold]].
      * cbn [move phase]. discriminate.
      * elim Hne. apply (Hone k k' run run' Hk Ha Hold Ha').
    + split; [| split]; cbn [with_runs runs enc selectedVersion species error]; auto.
      intros k' run' Hk' Ha' Hph'.
      destruct (replace_nth_lookup _ _ _ _ _ _ Hk Hk') as [[-> ->] | [Hne Hold]].
      * cbn [move alive] in Ha'. congruence.
      * apply (D1 k' run' Hold Ha' Hph').
  - (* EncountersSettled *)
    destruct (nth_error (runs p) k) as [run|] eqn:Hk; [| exact Hd].
    destruct (phase run) eqn:Hph; try exact Hd.
    unfold encounters_settled. destruct (alive run) eqn:Ha.
    + assert (Hrun : enc p = None /\ selectedVersion p = None).
      { destruct (D1 k run Hk Ha) as (E1 & E2 & _); [congruence | now split]. }
      assert (Hnone : forall k' run',
                 nth_error (replace_nth (runs p) k (move run Finished)) k' = Some run' ->
                 alive run' = true -> phase run' <> Finished -> False).
      { intros k' run' Hk' Ha' Hph'.
        destruct (replace_nth_lookup _ _ _ _ _ _ Hk Hk') as [[-> ->] | [Hne Hold]].
        - now apply Hph'.
        - apply Hne. apply (Hone k k' run run' Hk Ha Hold Ha'). }
      destruct (enc_value lc r) as [norm|] eqn:Ev;
        (split; [| split]); cbn [runs enc selectedVersion species error].
      * intros k' run' Hk' Ha' Hph'. elim (Hnone k' run' Hk' Ha' Hph').
      * intros m [= <-]. right. unfold enc_value in Ev. destruct r as [raw|]; [| discriminate].
        exists raw. exact Ev.
      * intros v Hv. exists norm. split; [reflexivity | now apply first_version_in].
      * intros k' run' Hk' Ha' Hph'. elim (Hnone k' run' Hk' Ha' Hph').
      * intros m [= <-]. now left.
      * intros v Hv. rewrite (proj2 Hrun) in Hv. discriminate.
    + split; [| split]; cbn [with_runs runs enc selectedVersion species error]; auto.
      intros k' run' Hk' Ha' Hph'.
      destruct (replace_nth_lookup _ _ _ _ _ _ Hk Hk') as [[-> ->] | [Hne Hold]].
      * cbn [move alive] in Ha'. congruence.
      * apply (D1 k' run' Hold Ha' Hph').
  - (* Choose *)
    unfold choose_version. destruct (enc p) as [m|] eqn:Em; [| exact Hd].
    destruct (existsb (String.eqb v) (versions m)) eqn:Ex; [| exact Hd].
    split; [| split]; cbn [runs enc selectedVersion species error].
    + intros k run Hk Ha Hph. destruct (D1 k run Hk Ha Hph) as (E & _). congruence.
    + intros m' Hm'. apply D2. congruence.
    + intros v' [= <-]. exists m. split; [reflexivity|].
      apply existsb_exists in Ex. destruct Ex as (w & Hw & E).
      apply String.eqb_eq in E. now subst.
Qed.

Lemma display_inv_session (lc : string -> string -> comparison) (xs : list PanelAction)
  (p : Panel) :
  panel_inv p -> display_inv lc p ->
  panel_inv (fold_left (panel_act lc) xs p)
  /\ display_inv lc (fold_left (panel_act lc) xs p).
Proof.
  revert p. induction xs as [|x xs IH]; intros p Hp Hd; [now split|].
  simpl. apply IH; [now apply panel_inv_act | now apply display_inv_act].
Qed.

Lemma display_inv_mount (lc : string -> string -> comparison) (id : Z) :
  display_inv lc (mount id).
Proof.
  split; [| split]; simpl.
  - intros; repeat split; reflexivity.
  - intros m [=].
  - intros v [=].
Qed.

(** X9.  While the run of the effect in force is waiting for an answer, the
    panel shows nothing of the encounters: no map, no selected version and
    no location; and until the species request has answered it shows no
    species and no error either.  What the previous species left is gone. *)
Theorem nothing_shown_while_waiting (localeCompare : string -> string -> comparison)
  (id : Z) (xs : list PanelAction) (k : nat) (run : Run) :
  let p := panel_session localeCompare id xs in
  nth_error (runs p) k = Some run -> alive run = true -> phase run <> Finished ->
  enc p = None /\ selectedVersion p = None /\ shown_locations p = Own []
  /\ (phase run = AwaitSpecies -> species p = None /\ error p = None).
Proof.
  cbv zeta. intros Hk Ha Hph.
  destruct (display_inv_session localeCompare xs (mount id) (panel_inv_mount id)
              (display_inv_mount localeCompare id)) as (_ & D1 & _).
  destruct (D1 k run Hk Ha Hph) as (E1 & E2 & E3).
  unfold panel_session. split; [exact E1 | split; [exact E2 | split; [| exact E3]]].
  unfold shown_locations. now rewrite E2.
Qed.

Lemma nothing_shown_while_waiting_witness :
  let p := panel_session String.compare 2
             [ Happens (SpeciesSettled 0 (Return ivysaur_species));
               Happens (EncountersSettled 0 (Return ivysaur_rows));
               Choose "red"; Happens (Render 1);
               Happens (SpeciesSettled 1 Throw) ] in
  enc p = None /\ selectedVersion p = None /\ shown_locations p = Own []
  /\ (AwaitEncounters = AwaitSpecies -> species p = None /\ error p = None).
Proof.
  cbv zeta.
  apply (nothing_shown_while_waiting String.compare 2 _ 1
           {| run_id := 1; alive := true; phase := AwaitEncounters |}).
  - reflexivity.
  - reflexivity.
  - discriminate.
Defined.

(** X10.  Whenever a version is selected in the panel, it is one of the
    versions of the map on display, and the list shown for it is its own
    list in that map and has at least one location: the panel never shows
    a selected version without locations. *)
Theorem selected_version_has_locations (localeCompare : string -> string -> comparison)
  (id : Z) (xs : list PanelAction) (v : string) :
  let p := panel_session localeCompare id xs in
  selectedVersion p = Some v ->
  exists m ls, enc p = Some m /\ In v (versions m)
               /\ shown_locations p = Own ls /\ ls <> [].
Proof.
  cbv zeta. intros Hv.
  destruct (display_inv_session localeCompare xs (mount id) (panel_inv_mount id)
              (display_inv_mount localeCompare id)) as (_ & _ & D2 & D3).
  fold (panel_session localeCompare id xs) in D2, D3.
  destruct (D3 v Hv) as (m & Em & Hin).
  destruct (D2 m Em) as [-> | (raw & Hraw)]; [contradiction|].
  destruct (normalize_listed localeCompare raw m Hraw) as (Hvs & Hls).
  destruct (proj1 (Hvs v) Hin) as (l0 & Hl0).
  destruct (Hls v Hin) as (ls & Hown & Hmem).
  exists m, ls. split; [exact Em | split; [exact Hin | split]].
  - unfold shown_locations. rewrite Hv, Em.
    rewrite (proj1 (pairs_present _ _ _ Hl0)). unfold obj_get. now rewrite Hown.
  - intros ->. apply (proj2 (Hmem l0) Hl0).
Qed.

Lemma selected_version_has_locations_witness :
  let p := panel_session String.compare 2
             [ Happens (SpeciesSettled 0 (Return ivysaur_species));
               Happens (EncountersSettled 0 (Return ivysaur_rows)) ] in
  exists m ls, enc p = Some m /\ In "red" (versions m)
               /\ shown_locations p = Own ls /\ ls <> [].
Proof.
  cbv zeta.
  apply (selected_version_has_locations String.compare 2 _ "red"). reflexivity.
Defined.

(** ** More on the persisted selection set *)

Lemma set_has_nums_true (ids : list Z) (n : Z) :
  set_has sameValueZero (map num ids) (num n) = true <-> In n ids.
Proof.
  destruct (set_has sameValueZero (map num ids) (num n)) eqn:E.
  - split; [intros _ | reflexivity].
    destruct (in_dec Z.eq_dec n ids) as [H | H]; [exact H|].
    apply set_has_nums in H. congruence.
  - apply set_has_nums in E. split; [discriminate | contradiction].
Qed.

Lemma wf_nums_nodup (ids : list Z) : set_wf sameValueZero (map num ids) -> NoDup ids.
Proof.
  induction ids as [|n ids IH]; simpl; [constructor|].
  intros [Hn Hs]. constructor; [now apply set_has_nums | now apply IH].
Qed.

Lemma new_Set_nums (ids acc : list Z) :
  NoDup acc ->
  exists out, fold_left (set_add sameValueZero) (map num ids) (map num acc) = map num out
              /\ NoDup out /\ forall n, In n out <-> In n acc \/ In n ids.
Proof.
  revert acc. induction ids as [|i ids IH]; intros acc Hacc.
  - exists acc. simpl. repeat split; auto. intros [H | []]. exact H.
  - cbn [map fold_left]. unfold set_add at 2.
    destruct (set_has sameValueZero (map num acc) (num i)) eqn:E.
    + apply set_has_nums_true in E. destruct (IH acc Hacc) as (out & Eo & Hnd & Hin).
      exists out. split; [exact Eo | split; [exact Hnd|]]. intros n. rewrite Hin.
      simpl. intuition congruence.
    + apply set_has_nums in E.
      assert (Hacc' : NoDup (acc ++ [i])).
      { apply NoDup_app; [exact Hacc | repeat constructor; auto |].
        intros x Hx [<- | []]. auto. }
      destruct (IH (acc ++ [i]) Hacc') as (out & Eo & Hnd & Hin).
      exists out. split; [| split; [exact Hnd|]].
      * rewrite <- Eo. now rewrite map_app.
      * intros n. rewrite Hin, in_app_iff. simpl. tauto.
Qed.

(** X11.  A stored array of positive safe integers in which some are
    repeated is loaded as a set that holds each of them once: the same
    identifiers, without repetition. *)
Theorem loadCaught_dedups (ids : list Z) :
  Forall safe_positive ids ->
  exists out, loadCaught (holding (JSON_stringify (map num ids))) = Return (map num out)
              /\ NoDup out /\ forall n, In n out <-> In n ids.
Proof.
  intros Hids. destruct (new_Set_nums ids [] (NoDup_nil Z)) as (out & Eo & Hnd & Hin).
  exists out. split; [| split; [exact Hnd|]].
  - unfold loadCaught, getItem, holding. cbn [denied stored obj_own bind].
    rewrite String.eqb_refl. rewrite stringify_array_truthy. cbn [negb].
    rewrite (parse_stringify_ids ids Hids). cbn [bind isArray elements].
    unfold new_Set. change (@nil json) with (map num []). rewrite Eo. reflexivity.
  - intros n. rewrite Hin. simpl. tauto.
Qed.

Lemma loadCaught_dedups_witness :
  exists out, loadCaught (holding "[25,1,25,1,25]") = Return (map num out)
              /\ NoDup out /\ forall n, In n out <-> In n [25; 1; 25; 1; 25].
Proof.
  apply (loadCaught_dedups [25; 1; 25; 1; 25]).
  repeat constructor; unfold MAX_SAFE_INTEGER; simpl; lia.
Defined.

Lemma set_delete_nums (ids : list Z) (i : Z) :
  exists out, set_delete sameValueZero (map num ids) (num i) = map num out
              /\ incl out ids.
Proof.
  induction ids as [|n ids (out & E & Hinc)]; simpl.
  - exists []. split; [reflexivity | intros x []].
  - destruct (i =? n).
    + exists ids. split; [reflexivity | now apply incl_tl, incl_refl].
    + exists (n :: out). simpl. rewrite E. split; [reflexivity|].
      intros x [<- | Hx]; [now left | right; now apply Hinc].
Qed.

Lemma toggle_nums (ids : list Z) (i : Z) :
  NoDup ids ->
  exists out, toggle (map num ids) i = map num out /\ NoDup out
              /\ forall n, In n out -> In n ids \/ n = i.
Proof.
  intros Hnd. pose proof (set_wf_nums ids Hnd) as Hwf.
  pose proof (toggle_wf _ i Hwf) as Hwf'. unfold toggle in *.
  rewrite (new_Set_json _ Hwf) in *.
  destruct (set_has sameValueZero (map num ids) (num i)) eqn:E.
  - destruct (set_delete_nums ids i) as (out & Eo & Hinc). rewrite Eo in *.
    exists out. split; [reflexivity | split; [now apply wf_nums_nodup|]].
    intros n Hn. left. now apply Hinc.
  - unfold set_add in *. rewrite E in *. exists (ids ++ [i]).
    rewrite map_app in *. split; [reflexivity | split].
    + apply wf_nums_nodup. now rewrite map_app.
    + intros n Hn. apply in_app_iff in Hn. destruct Hn as [H | [<- | []]]; auto.
Qed.

Lemma load_saved (st : Storage) (ids : list Z) :
  working st -> NoDup ids -> Forall safe_positive ids ->
  loadCaught (saveCaught st (map num ids)) = Return (map num ids)
  /\ working (saveCaught st (map num ids)).
Proof.
  intros [Hd Hf] Hnd Hids. unfold saveCaught, setItem. rewrite Hd, Hf. cbn [orb].
  split; [| now split].
  unfold loadCaught, getItem. cbn [denied stored bind].
  rewrite obj_own_set. unfold Array_from.
  rewrite stringify_array_truthy. cbn [negb].
  rewrite (parse_stringify_ids ids Hids). cbn [bind isArray elements].
  now rewrite (new_Set_json _ (set_wf_nums ids Hnd)).
Qed.

Lemma toggleCaught_synced (a : Persisted) (ids : list Z) (i : Z) :
  working (storage a) -> caught a = map num ids -> NoDup ids ->
  Forall safe_positive ids -> safe_positive i ->
  let a' := toggleCaught a (Some i) in
  loadCaught (storage a') = Return (caught a') /\ working (storage a')
  /\ exists out, caught a' = map num out /\ NoDup out /\ Forall safe_positive out.
Proof.
  intros Hw Hc Hnd Hids Hi. cbv zeta. unfold toggleCaught.
  assert (Hz : (i =? 0) = false) by (apply Z.eqb_neq; unfold safe_positive in Hi; lia).
  rewrite Hz, Hc. cbn [caught storage].
  destruct (toggle_nums ids i Hnd) as (out & Eo & Hnd' & Hin). rewrite Eo.
  assert (Hout : Forall safe_positive out).
  { apply Forall_forall. intros n Hn. destruct (Hin n Hn) as [H | ->]; [| exact Hi].
    rewrite Forall_forall in Hids. now apply Hids. }
  destruct (load_saved (storage a) out Hw Hnd' Hout) as [H1 H2].
  split; [exact H1 | split; [exact H2|]]. now exists out.
Qed.

(** X12.  With a storage that accepts reads and writes and a set of positive
    safe integers, after any number of calls of [toggleCaught], one at
    least, each for a positive safe integer, the storage holds the set of
    identifiers in memory: [loadCaught] returns that very set, whatever the
    storage held before. *)
Theorem toggles_persist (a : Persisted) (ids : list Z) (i : Z) (rest : list Z) :
  working (storage a) -> caught a = map num ids -> NoDup ids ->
  Forall safe_positive ids -> Forall safe_positive (i :: rest) ->
  loadCaught (storage (toggles a (i :: rest))) = Return (caught (toggles a (i :: rest))).
Proof.
  intros Hw Hc Hnd Hids Hall. inversion Hall as [|i' rest' Hi Hrest]; subst.
  unfold toggles. cbn [fold_left].
  destruct (toggleCaught_synced a ids i Hw Hc Hnd Hids Hi) as (Hsync & Hw' & out & Ho & Hn & Hs).
  clear Hall Hc Hnd Hids Hi Hw.
  revert out Hsync Hw' Ho Hn Hs. generalize (toggleCaught a (Some i)). clear a ids i.
  induction rest as [|j rest IH]; intros b out Hsync Hw Ho Hn Hs; [exact Hsync|].
  inversion Hrest as [|j' rest' Hj Hrest']; subst. cbn [fold_left].
  destruct (toggleCaught_synced b out j Hw Ho Hn Hs Hj) as (Hsync' & Hw' & out' & Ho' & Hn' & Hs').
  apply (IH Hrest' _ out' Hsync' Hw' Ho' Hn' Hs').
Qed.

Lemma toggles_persist_witness :
  let a := {| caught := [num 3; num 25]; storage := holding "stale" |} in
  loadCaught (storage (toggles a [25; 7; 3; 151]))
  = Return (caught (toggles a [25; 7; 3; 151])).
Proof.
  cbv zeta.
  apply (toggles_persist {| caught := [num 3; num 25]; storage := holding "stale" |}
           [3; 25] 25 [7; 3; 151]).
  - split; reflexivity.
  - reflexivity.
  - repeat constructor; simpl; intuition congruence.
  - repeat constructor; unfold MAX_SAFE_INTEGER; simpl; lia.
  - repeat constructor; unfold MAX_SAFE_INTEGER; simpl; lia.
Defined.

(** ** The counters *)

Lemma toggle_length (s : list json) (i : Z) :
  set_wf sameValueZero s ->
  Z.of_nat (List.length (toggle s i))
  = Z.of_nat (List.length s)
    + (if set_has sameValueZero s (num i) then -1 else 1).
Proof.
  intros Hwf. unfold toggle. rewrite (new_Set_json _ Hwf).
  destruct (set_has sameValueZero s (num i)) eqn:E.
  - pose proof (set_delete_perm _ sameValueZero (num i) (same_num_eq i) _ E) as Hp.
    apply Permutation_length in Hp. simpl in Hp. lia.
  - unfold set_add. rewrite E, length_app. simpl. lia.
Qed.

(** X13.  The counters of the header: [total] is the number of records, or
    1025 while there is none; [missingCount] is never negative, and is what
    is left of [total] when the set is not larger than it; and one call of
    the updater of [toggleCaught] moves [caughtCount] by exactly one, down
    when the identifier was in the set and up when it was not. *)
Theorem progress_counts (its : list Pokemon) (caughtSet : list json) (i : Z) :
  set_wf sameValueZero caughtSet ->
  let p := progress its caughtSet in
  let p' := progress its (toggle caughtSet i) in
  total p = (if Z.of_nat (List.length its) =? 0 then 1025 else Z.of_nat (List.length its))
  /\ 0 < total p
  /\ 0 <= missingCount p
  /\ (caughtCount p <= total p -> caughtCount p + missingCount p = total p)
  /\ (total p < caughtCount p -> missingCount p = 0)
  /\ total p' = total p
  /\ caughtCount p'
     = caughtCount p + (if set_has sameValueZero caughtSet (num i) then -1 else 1).
Proof.
  intros Hwf. cbv zeta. unfold progress. cbn [total caughtCount missingCount].
  rewrite (toggle_length caughtSet i Hwf). unfold DEX_MAX.
  destruct (Z.eqb_spec (Z.of_nat (List.length its)) 0); repeat split; lia.
Qed.

Lemma progress_counts_witness :
  let its := stubs_from 1 ["bulbasaur"; "ivysaur"; "venusaur"] in
  caughtCount (progress its (toggle [num 3; num 25] 25)) = 1
  /\ caughtCount (progress its [num 3; num 25]) + missingCount (progress its [num 3; num 25])
     = total (progress its [num 3; num 25]).
Proof.
  cbv zeta.
  assert (Hwf : set_wf sameValueZero [num 3; num 25]) by (simpl; auto).
  destruct (progress_counts (stubs_from 1 ["bulbasaur"; "ivysaur"; "venusaur"])
              [num 3; num 25] 25 Hwf) as (_ & _ & _ & H & _ & _ & H').
  split; [exact H' | apply H; vm_compute; discriminate].
Defined.

(** ** More on the list view *)

Lemma filtered_in (items : list Entry) (q : string) (mode : Mode) (caughtSet : list json)
  (p : Entry) :
  In p (filtered items q mode caughtSet)
  <-> In p items /\ matches_query (toLowerCase (trim q)) p = true
      /\ matches_mode mode caughtSet p = true.
Proof. unfold filtered. rewrite !filter_In. tauto. Qed.

(** X14.  For every query, the items listed under [Missing] and those
    listed under [Caught] are together the items listed under [All], each
    as often as there; no item is listed under both; and with an empty
    query [All] lists every item. *)
Theorem filtered_splits (items : list Entry) (q : string) (caughtSet : list json) :
  Permutation (filtered items q Caught caughtSet ++ filtered items q Missing caughtSet)
              (filtered items q All caughtSet)
  /\ (forall p, In p (filtered items q Caught caughtSet) ->
                ~ In p (filtered items q Missing caughtSet))
  /\ filtered items EmptyString All caughtSet = items.
Proof.
  split; [| split].
  - unfold filtered. cbn [matches_mode].
    set (l := filter (matches_query (toLowerCase (trim q))) items).
    assert (Hall : filter (matches_mode All caughtSet) l = l).
    { clear. induction l as [|x l IH]; simpl; congruence. }
    rewrite Hall. apply (filter_partition (matches_mode Caught caughtSet) l).
  - intros p Hc Hm. apply filtered_in in Hc. apply filtered_in in Hm.
    destruct Hc as (_ & _ & Hc). destruct Hm as (_ & _ & Hm).
    cbn [matches_mode] in Hc, Hm. rewrite Hc in Hm. discriminate.
  - unfold filtered. cbn. induction items as [|x l IH]; simpl; congruence.
Qed.

(** X15.  In the list view, toggling the identifier of an item that is
    listed under [Missing] takes it out of that list and puts it in the one
    of [Caught], and the other way round; for an item with another
    identifier nothing changes, under any mode. *)
Theorem toggle_moves_item (items : list Entry) (q : string) (caughtSet : list json)
  (p : Entry) :
  set_wf sameValueZero caughtSet ->
  let after := toggle caughtSet (entry_id p) in
  (In p (filtered items q Missing caughtSet) <-> In p (filtered items q Caught after))
  /\ (In p (filtered items q Caught caughtSet) <-> In p (filtered items q Missing after))
  /\ (forall p' mode, entry_id p' <> entry_id p ->
        (In p' (filtered items q mode caughtSet) <-> In p' (filtered items q mode after))).
Proof.
  intros Hwf. cbv zeta.
  pose proof (toggle_has_same caughtSet (entry_id p) Hwf) as Hs.
  split; [| split].
  - rewrite !filtered_in. cbn [matches_mode]. rewrite Hs. tauto.
  - rewrite !filtered_in. cbn [matches_mode]. rewrite Hs, negb_involutive. tauto.
  - intros p' mode Hne. rewrite !filtered_in.
    assert (E : matches_mode mode (toggle caughtSet (entry_id p)) p'
                = matches_mode mode caughtSet p').
    { unfold matches_mode. rewrite (toggle_has_other caughtSet (entry_id p)); auto.
      unfold num. congruence. }
    rewrite E. tauto.
Qed.

Lemma toggle_moves_item_witness :
  let items := [item 1 "bulbasaur"; item 25 "pikachu"] in
  In (item 25 "pikachu") (filtered items "pika" Missing [num 1])
  <-> In (item 25 "pikachu") (filtered items "pika" Caught (toggle [num 1] 25)).
Proof.
  cbv zeta.
  assert (Hwf : set_wf sameValueZero [num 1]) by (simpl; auto).
  exact (proj1 (toggle_moves_item [item 1 "bulbasaur"; item 25 "pikachu"] "pika" [num 1]
                  (item 25 "pikachu") Hwf)).
Defined.

(** ** Pieces of a string *)

Section Pieces.
Variable sep : ascii -> bool.
Hypothesis sep_space : sep " " = true.

Lemma split_pieces (s cur : string) (in_run : bool) :
  (in_run = true -> cur = EmptyString) ->
  filter truthy (split_from sep s cur in_run) = pieces_from sep s cur.
Proof.
  revert cur in_run. induction s as [|c r IH]; intros cur in_run Hrun; simpl.
  - reflexivity.
  - destruct (sep c).
    + destruct in_run.
      * rewrite (Hrun eq_refl). simpl. now apply IH.
      * simpl. rewrite (IH EmptyString true) by reflexivity. reflexivity.
    + apply IH. discriminate.
Qed.

Lemma pieces_pieces_from (s : string) : pieces sep s = pieces_from sep s EmptyString.
Proof. unfold pieces, split_runs. apply split_pieces. discriminate. Qed.

Lemma free_of_app (a b : string) :
  free_of sep a -> free_of sep b -> free_of sep (a ++ b).
Proof. induction a as [|c a IH]; simpl; [auto | intuition]. Qed.

Lemma pieces_from_are_pieces (s cur : string) :
  free_of sep cur -> Forall (piece sep) (pieces_from sep s cur).
Proof.
  revert cur. induction s as [|c r IH]; intros cur Hcur; simpl.
  - destruct cur; simpl; [constructor|]. constructor; [| constructor].
    split; [discriminate | exact Hcur].
  - destruct (sep c) eqn:Hc.
    + destruct cur; simpl; [apply IH; exact I|].
      constructor; [split; [discriminate | exact Hcur] | apply IH; exact I].
    + apply IH. apply free_of_app; [exact Hcur | simpl; auto].
Qed.

Lemma pieces_from_word (w rest cur : string) :
  free_of sep w ->
  pieces_from sep (w ++ rest) cur = pieces_from sep rest (cur ++ w).
Proof.
  revert cur. induction w as [|c w IH]; intros cur Hw.
  - simpl. now rewrite sapp_nil_r.
  - destruct Hw as [Hc Hw]. simpl. rewrite Hc, IH by assumption.
    now rewrite sapp_assoc.
Qed.

Lemma pieces_from_join (ws : list string) :
  Forall (piece sep) ws -> pieces_from sep (join " " ws) EmptyString = ws.
Proof.
  induction 1 as [|w ws [Hne Hw] Hws IH]; [reflexivity|].
  destruct ws as [|w' ws].
  - simpl. rewrite <- (sapp_nil_r w) at 1. rewrite pieces_from_word by assumption.
    simpl. destruct w; [congruence | reflexivity].
  - rewrite join_cons by discriminate.
    rewrite pieces_from_word by assumption. cbn [append pieces_from].
    rewrite sep_space. destruct w; [congruence|]. cbn [truthy]. now rewrite IH.
Qed.

Lemma join_chars (ws : list string) (c : ascii) :
  In c (list_ascii_of_string (join " " ws)) ->
  c = " "%char \/ exists w, In w ws /\ In c (list_ascii_of_string w).
Proof.
  assert (Happ : forall a b, list_ascii_of_string (a ++ b)
                             = list_ascii_of_string a ++ list_ascii_of_string b).
  { intros a b. induction a as [|x a IH]; simpl; congruence. }
  induction ws as [|w ws IH]; [intros []|].
  destruct ws as [|w' ws].
  - simpl. intros H. right. exists w. auto.
  - rewrite join_cons by discriminate. rewrite !Happ, !in_app_iff. simpl.
    intros [H | [[<- | []] | H]].
    + right. exists w. auto.
    + now left.
    + destruct (IH H) as [-> | (x & Hx & Hc)]; [now left|].
      right. exists x. split; [now right | exact Hc].
Qed.

Lemma free_of_chars (w : string) (c : ascii) :
  free_of sep w -> In c (list_ascii_of_string w) -> sep c = false.
Proof.
  induction w as [|x w IH]; simpl; [intros _ [] |].
  intros [Hx Hw] [<- | H]; auto.
Qed.

(** The pieces put together with one space between them: the result has
    these pieces, and the space is its only separator. *)
Lemma joined_pieces (ws : list string) :
  Forall (piece sep) ws ->
  pieces sep (join " " ws) = ws
  /\ forall c, In c (list_ascii_of_string (join " " ws)) -> sep c = true -> c = " "%char.
Proof.
  intros H. split.
  - rewrite pieces_pieces_from. now apply pieces_from_join.
  - intros c Hc Hs. destruct (join_chars ws c Hc) as [-> | (w & Hw & Hcw)]; [reflexivity|].
    rewrite Forall_forall in H. destruct (H w Hw) as [_ Hfree].
    rewrite (free_of_chars w c Hfree Hcw) in Hs. discriminate.
Qed.
End Pieces.

(** ** [titleCase] *)










(** ** The text of a description *)

Lemma words_are_pieces (s : string) : words s = pieces is_space s.
Proof. reflexivity. Qed.

Lemma clean_shape (text : string) :
  words (clean text) = words text
  /\ (forall c, In c (list_ascii_of_string (clean text)) -> is_space c = true -> c = " "%char)
  /\ clean (clean text) = clean text.
Proof.
  assert (Hp : Forall (piece is_space) (words text)).
  { rewrite words_are_pieces, pieces_pieces_from.
    apply pieces_from_are_pieces. exact I. }
  destruct (joined_pieces is_space eq_refl _ Hp) as [H1 H2].
  rewrite <- clean_words in H1, H2. rewrite <- words_are_pieces in H1.
  split; [exact H1 | split; [exact H2|]].
  rewrite (clean_words (clean text)), H1. symmetry. apply clean_words.
Qed.

(** X17.  The description that [bestEnglishFlavor] returns has no white
    space other than single spaces between its words: no line feed, form
    feed or tab is left, none at its ends, and cleaning it again changes
    nothing. *)
Theorem bestEnglishFlavor_clean (species : option Species) (c : ascii) :
  let r := bestEnglishFlavor species in
  clean r = r
  /\ join " " (words r) = r
  /\ (In c (list_ascii_of_string r) -> is_space c = true -> c = " "%char).
Proof.
  cbv zeta.
  assert (H : bestEnglishFlavor species = EmptyString
              \/ exists t, bestEnglishFlavor species = clean t).
  { unfold bestEnglishFlavor.
    destruct (filter _ _) as [|e en]; [now left|].
    destruct (first_hit (e :: en) preferred) as [hit|]; [right; now eexists|].
    destruct (nth_error (e :: en) (List.length (e :: en) - 1)) as [x|];
      [right; now eexists | now left]. }
  destruct H as [-> | (t & ->)].
  - split; [reflexivity | split; [reflexivity | intros []]].
  - destruct (clean_shape t) as (H1 & H2 & H3).
    split; [exact H3 | split; [| apply H2]].
    rewrite <- clean_words. exact H3.
Qed.

(** ** [prettyLocationArea] *)

Lemma eqb_longer (c : ascii) (s t : string) : String.eqb (String c (s ++ t)) t = false.
Proof.
  apply String.eqb_neq. intros E. apply (f_equal String.length) in E.
  simpl in E. rewrite slength_app in E. lia.
Qed.

Lemma area_ending_suffix (s : string) : area_ending (s ++ "-area") = Some s.
Proof.
  induction s as [|c s IH]; [reflexivity|].
  change (String c s ++ "-area")%string with (String c (s ++ "-area")).
  cbn [area_ending]. rewrite eqb_longer. fold area_ending. now rewrite IH.
Qed.

Lemma all_digits_hyphen (s d : string) : all_digits (s ++ String "-" d) = false.
Proof.
  induction s as [|c s IH]; [reflexivity|].
  cbn [append all_digits]. rewrite IH. apply andb_false_r.
Qed.

Lemma number_ending_suffix (s d : string) :
  truthy d = true -> all_digits d = true -> number_ending (s ++ String "-" d) = Some s.
Proof.
  intros Ht Hd. induction s as [|c s IH].
  - cbn [append number_ending]. rewrite Ht, Hd. reflexivity.
  - cbn [append number_ending]. rewrite all_digits_hyphen, andb_false_r, IH. reflexivity.
Qed.

Lemma last_char_app (a b : string) :
  b <> EmptyString -> last_char (a ++ b) = last_char b.
Proof.
  intros Hb. induction a as [|c a IH]; [reflexivity|].
  cbn [append last_char]. rewrite IH.
  destruct b as [|x b]; [congruence|]. simpl. now destruct (last_char b).
Qed.

Lemma area_ending_last (s kept : string) :
  area_ending s = Some kept -> last_char s = Some "a"%char.
Proof.
  revert kept. induction s as [|c s IH]; intros kept; [discriminate|].
  cbn [area_ending]. destruct (String.eqb (String c s) "-area") eqn:E.
  - apply String.eqb_eq in E. now rewrite E.
  - fold area_ending. destruct (area_ending s) as [k|]; [| discriminate].
    intros _. cbn [last_char]. now rewrite (IH k eq_refl).
Qed.

Lemma last_digit (d : string) :
  truthy d = true -> all_digits d = true ->
  exists c, last_char d = Some c /\ is_digit c = true.
Proof.
  induction d as [|x d IH]; [discriminate|].
  intros _ H. cbn [all_digits] in H. apply andb_true_iff in H as [Hx Hd].
  destruct d as [|y d].
  - exists x. now split.
  - destruct (IH eq_refl Hd) as (c & Hc & Hdc). exists c. split; [| exact Hdc].
    cbn [last_char] in *. now rewrite Hc.
Qed.

(** X18.  [prettyLocationArea] takes a trailing [-area] off the name, then
    a trailing hyphen with digits, before [titleCase]: a name made of [s], a
    hyphen, a number and perhaps [-area] is shown as [titleCase(s)], so that
    names that differ in that number alone are shown alike. *)
Theorem prettyLocationArea_drops (s d : string) :
  truthy d = true -> all_digits d = true ->
  prettyLocationArea (s ++ "-" ++ d ++ "-area") = titleCase s
  /\ prettyLocationArea (s ++ "-" ++ d) = titleCase s.
Proof.
  intros Ht Hd.
  assert (Hnum : without number_ending (s ++ "-" ++ d) = s).
  { unfold without. change (s ++ "-" ++ d)%string with (s ++ String "-" d)%string.
    now rewrite number_ending_suffix. }
  split; unfold prettyLocationArea.
  - replace (s ++ "-" ++ d ++ "-area")%string with ((s ++ "-" ++ d) ++ "-area")%string
      by (now rewrite !sapp_assoc).
    unfold without at 2. rewrite area_ending_suffix. now rewrite Hnum.
  - assert (Hno : area_ending (s ++ "-" ++ d) = None).
    { destruct (area_ending (s ++ "-" ++ d)) as [k|] eqn:E; [| reflexivity].
      apply area_ending_last in E.
      rewrite last_char_app in E by discriminate.
      change ("-" ++ d)%string with (String "-" d) in E. cbn [last_char] in E.
      destruct (last_digit d Ht Hd) as (c & Hc & Hdig). rewrite Hc in E.
      injection E as ->. discriminate Hdig. }
    unfold without at 2. rewrite Hno. now rewrite Hnum.
Qed.

Lemma prettyLocationArea_drops_witness :
  prettyLocationArea "kanto-route-1-area" = "Kanto Route"
  /\ prettyLocationArea "kanto-route-22" = "Kanto Route".
Proof.
  split.
  - exact (proj1 (prettyLocationArea_drops "kanto-route" "1" eq_refl eq_refl)).
  - exact (proj2 (prettyLocationArea_drops "kanto-route" "22" eq_refl eq_refl)).
Defined.

(** ** The number of a record on display *)

Lemma padded_upto (n : nat) :
  forallb (fun k => let id := Z.of_nat k in
                    (String.length (padded id) =? 4)%nat && (digits_value (padded id) =? id))
          (seq 0 n) = true ->
  forall id, 0 <= id < Z.of_nat n ->
    String.length (padded id) = 4%nat /\ digits_value (padded id) = id.
Proof.
  intros H id Hid. rewrite forallb_forall in H.
  specialize (H (Z.to_nat id)). cbv zeta in H. rewrite Z2Nat.id in H by lia.
  assert (Hin : In (Z.to_nat id) (seq 0 n)) by (apply in_seq; lia).
  apply H in Hin. apply andb_true_iff in Hin as [H1 H2].
  split; [now apply Nat.eqb_eq | now apply Z.eqb_eq].
Qed.

(** X19.  The number shown for a record, [String(id).padStart(4, "0")], has
    exactly four digits for every identifier below 10000 and reads as that
    identifier; so it does for each of the 1025 records of the list. *)
Theorem padded_four_digits (id : Z) :
  0 <= id < 10000 ->
  String.length (padded id) = 4%nat /\ digits_value (padded id) = id.
Proof.
  intros H. apply (padded_upto (Z.to_nat 10000)); [vm_compute; reflexivity | lia].
Qed.

Lemma padded_four_digits_witness :
  String.length (padded 25) = 4%nat /\ digits_value (padded 25) = 25.
Proof. apply (padded_four_digits 25). lia. Defined.

(** ** [DexSidePanel]: a late species answer *)

(** X20.  When the species request of a run started for another species
    than the one on display answers, nothing on display changes: not the
    species, the error, the encounter map, the selected version or the
    loading mark; and that run is over, so that it never asks for the
    encounters. *)
Theorem stale_species_discarded (localeCompare : string -> string -> comparison)
  (id : Z) (xs : list PanelAction) (k : nat) (run : Run) (r : result Species) :
  let p := panel_session localeCompare id xs in
  let p' := panel_step localeCompare p (SpeciesSettled k r) in
  nth_error (runs p) k = Some run -> run_id run <> pokemon_id p ->
  species p' = species p /\ error p' = error p /\ encLoading p' = encLoading p
  /\ enc p' = enc p /\ selectedVersion p' = selectedVersion p
  /\ pokemon_id p' = pokemon_id p
  /\ (phase run = AwaitSpecies -> nth_error (runs p') k = Some (move run Finished)).
Proof.
  cbv zeta. intros Hk Hid.
  destruct (display_inv_session localeCompare xs (mount id) (panel_inv_mount id)
              (display_inv_mount localeCompare id)) as ((Hlast & _) & _).
  fold (panel_session localeCompare id xs) in Hlast.
  assert (Ha : alive run = false).
  { destruct (alive run) eqn:Ha; [| reflexivity].
    destruct (Hlast k run Hk Ha) as [E _]. contradiction. }
  cbn [panel_step]. rewrite Hk. unfold species_settled. rewrite Ha.
  destruct (phase run); cbn [with_runs species error encLoading enc selectedVersion
                              pokemon_id runs];
    repeat split; try discriminate.
  intros _. now apply replace_nth_same with (y := run).
Qed.

Lemma stale_species_discarded_witness :
  let p := panel_session String.compare 2 [Happens (Render 1)] in
  let p' := panel_step String.compare p (SpeciesSettled 0 (Return ivysaur_species)) in
  species p' = None /\ enc p' = None
  /\ nth_error (runs p') 0 = Some {| run_id := 2; alive := false; phase := Finished |}.
Proof.
  cbv zeta.
  assert (Hid : 2 <> 1) by lia.
  destruct (stale_species_discarded String.compare 2 [Happens (Render 1)] 0
              {| run_id := 2; alive := false; phase := AwaitSpecies |}
              (Return ivysaur_species) eq_refl Hid) as (H1 & _ & _ & H2 & _ & _ & H3).
  split; [exact H1 | split; [exact H2 | exact (H3 eq_refl)]].
Defined.

(** ** A detail request that fails *)

(** X21.  When the detail request in force fails, the failure is ignored:
    the records and the selection stay as they are, the selected record
    still has no types, and no request is left that is both in force and
    unanswered, so that nothing will fill the record in until the selection
    or the records change. *)
Theorem detail_failure_ignored (evs : list AppEvent) (k : nat) (f : Fetch) :
  let a := app_run initial evs in
  let a' := app_step a (DetailSettled k Throw) in
  nth_error (fetches a) k = Some f ->
  fetch_pending f = true -> fetch_alive f = true ->
  items a' = items a /\ selectedIndex a' = selectedIndex a
  /\ selected a' = Some (fetch_cur f) /\ has_types (fetch_cur f) = false
  /\ Forall (fun g => fetch_alive g = true -> fetch_pending g = false) (fetches a').
Proof.
  cbv zeta. intros Hk Hp Ha.
  pose proof (app_inv_run evs initial app_inv_initial) as Hinv.
  assert (Hun : Forall (fun f => has_types (fetch_cur f) = false)
                  (fetches (app_run initial evs))).
  { apply untyped_run. constructor. }
  set (a := app_run initial evs) in *.
  destruct (Hinv k f Hk Ha) as (Hlast & Hidx & Hcur).
  cbn [app_step]. rewrite Hk, Hp. cbn [items selectedIndex fetches]. unfold selected.
  cbn [items selectedIndex].
  split; [reflexivity | split; [reflexivity | split; [exact Hcur | split]]].
  - rewrite Forall_forall in Hun. apply (Hun f). eapply nth_error_In; eassumption.
  - apply Forall_forall. intros g Hg Hga.
    destruct (In_nth_error _ _ Hg) as (j & Hj).
    destruct (replace_nth_lookup _ _ _ _ _ _ Hk Hj) as [[-> ->] | [Hne Hold]].
    + reflexivity.
    + exfalso. apply Hne. destruct (Hinv j g Hold Hga) as (Hj' & _). lia.
Qed.

Lemma detail_failure_ignored_witness :
  let a := app_run initial [ListSettled (Return ["bulbasaur"; "ivysaur"])] in
  let a' := app_step a (DetailSettled 0 Throw) in
  items a' = items a /\ selected a' = Some (stub 0 "bulbasaur")
  /\ Forall (fun g => fetch_alive g = true -> fetch_pending g = false) (fetches a').
Proof.
  cbv zeta.
  destruct (detail_failure_ignored [ListSettled (Return ["bulbasaur"; "ivysaur"])] 0
              {| fetch_index := 0; fetch_cur := stub 0 "bulbasaur";
                 fetch_alive := true; fetch_pending := true |}
              eq_refl eq_refl eq_refl) as (H1 & _ & H2 & _ & H3).
  split; [exact H1 | split; [exact H2 | exact H3]].
Defined.

(** ** Writes that the storage refuses *)

Lemma toggles_caught (a : Persisted) (ids : list Z) :
  caught (toggles a ids)
  = fold_left (fun s i => if i =? 0 then s else toggle s i) ids (caught a).
Proof.
  unfold toggles. revert a. induction ids as [|i ids IH]; intros a; [reflexivity|].
  cbn [fold_left]. rewrite IH. f_equal. unfold toggleCaught. now destruct (i =? 0).
Qed.

(** X22.  With a storage that refuses every write, whatever calls of
    [toggleCaught] are made: the set in memory changes as it does with a
    storage that accepts them, each failure being ignored, while the
    storage stays as it was, so that [loadCaught] returns afterwards what
    it returned before. *)
Theorem refused_writes_ignored (a : Persisted) (ids : list Z) :
  denied (storage a) || full (storage a) = true ->
  storage (toggles a ids) = storage a
  /\ loadCaught (storage (toggles a ids)) = loadCaught (storage a)
  /\ forall st, caught (toggles a ids)
                = caught (toggles {| caught := caught a; storage := st |} ids).
Proof.
  intros Hr.
  assert (Hs : storage (toggles a ids) = storage a).
  { unfold toggles. revert a Hr. induction ids as [|i ids IH]; intros a Hr; [reflexivity|].
    cbn [fold_left].
    assert (E : storage (toggleCaught a (Some i)) = storage a).
    { unfold toggleCaught. destruct (i =? 0); [reflexivity|].
      cbn [storage]. unfold saveCaught, setItem. now rewrite Hr. }
    rewrite IH; [exact E | now rewrite E]. }
  split; [exact Hs | split; [now rewrite Hs|]].
  intros st. now rewrite !toggles_caught.
Qed.

Lemma refused_writes_ignored_witness :
  let a := {| caught := [num 3];
              storage := {| stored := [(LS_KEY, "[3]")]; denied := false; full := true |} |} in
  storage (toggles a [25; 3]) = storage a
  /\ loadCaught (storage (toggles a [25; 3])) = Return [num 3]
  /\ caught (toggles a [25; 3]) = [num 25].
Proof.
  cbv zeta.
  destruct (refused_writes_ignored
              {| caught := [num 3];
                 storage := {| stored := [(LS_KEY, "[3]")]; denied := false; full := true |} |}
              [25; 3] eq_refl) as (H1 & H2 & H3).
  split; [exact H1 | split].
  - rewrite H2. reflexivity.
  - rewrite (H3 storage0). reflexivity.
Defined.

(** ** [DexSidePanel]: the loading mark *)

Lemma scanning_step (lc : string -> string -> comparison) (p : Panel) (x : PanelAction) :
  display_inv lc p ->
  (forall m, enc p = Some m -> encLoading p = false) ->
  forall m, enc (panel_act lc p x) = Some m -> encLoading (panel_act lc p x) = false.
Proof.
  intros (D1 & _ & _) H.
  destruct x as [[id | | k r | k r] | v]; cbn [panel_act panel_step].
  - destruct (id =? pokemon_id p); [exact H|]. cbn [enc]. intros m [=].
  - exact H.
  - destruct (nth_error (runs p) k) as [run|] eqn:Hk; [| exact H].
    destruct (phase run) eqn:Hph; try exact H.
    unfold species_settled. destruct (alive run) eqn:Ha; [| exact H].
    cbn [enc encLoading]. intros m Hm.
    destruct (D1 k run Hk Ha) as (E & _); [congruence | congruence].
  - destruct (nth_error (runs p) k) as [run|] eqn:Hk; [| exact H].
    destruct (phase run) eqn:Hph; try exact H.
    unfold encounters_settled. destruct (alive run) eqn:Ha; [| exact H].
    destruct (enc_value lc r); cbn [enc encLoading]; reflexivity.
  - unfold choose_version. destruct (enc p) as [m0|] eqn:Em; [| rewrite Em; exact H].
    destruct (existsb (String.eqb v) (versions m0)); [| rewrite Em; exact H].
    cbn [enc encLoading]. intros m _. now apply (H m0).
Qed.

(** X23.  Whenever the panel has an encounter map on display, its loading
    mark is off: the map and the mark are never shown together. *)
Theorem map_shown_not_scanning (localeCompare : string -> string -> comparison)
  (id : Z) (xs : list PanelAction) :
  enc (panel_session localeCompare id xs) = None
  \/ encLoading (panel_session localeCompare id xs) = false.
Proof.
  unfold panel_session.
  assert (H : forall p, panel_inv p -> display_inv localeCompare p ->
                (forall m, enc p = Some m -> encLoading p = false) ->
                forall m, enc (fold_left (panel_act localeCompare) xs p) = Some m ->
                          encLoading (fold_left (panel_act localeCompare) xs p) = false).
  { induction xs as [|x xs IH]; intros p Hp Hd He; [exact He|].
    cbn [fold_left]. apply IH.
    - now apply panel_inv_act.
    - now apply display_inv_act.
    - now apply scanning_step. }
  destruct (enc (fold_left (panel_act localeCompare) xs (mount id))) as [m|] eqn:E;
    [right | now left].
  apply (H (mount id) (panel_inv_mount id) (display_inv_mount localeCompare id)) with (m := m).
  - intros m0 [=].
  - exact E.
Qed.
